(** * strafes-globals-db: the world-record synchronisation engine

    A shallow embedding of the TypeScript job that copies world records and
    the map catalogue of the StrafesNET API into three MySQL tables
    ([users], [maps], [globals]), and the properties its specification
    states about it.

    - JavaScript numbers that hold identifiers, page numbers and counters
      are integers ([Z]).
    - [Set<number>] is a [gset Z], [Map<K, V>] and the three tables are
      [gmap]s, arrays are lists.
    - Functions that do not receive the database connection run in the
      monad [Net] (result and emitted events); functions that receive it
      run in [Db] (the store is threaded through).  [while] loops carry
      fuel; running out of it is the outcome [OutOfFuel]. *)

From Stdlib Require Import ZArith Lia.
From stdpp Require Import gmap strings list fin_maps fin_sets.

Set Warnings "-clear-no-such-hyp".

Local Open Scope Z_scope.

(** ** Data model *)

(** [new Date(s)]: the date built from the string the API sent. *)
Inductive Date := NewDate (s : string).

(** What the records endpoint sends for one time: [record.id],
    [record.user.id], [record.user.username], [record.map.id],
    [record.game_id], [record.style_id], [record.mode_id], [record.date],
    [record.time]. *)
Record ApiUser := { api_user_id : Z; api_username : string }.
Record ApiMapRef := { api_map_id : Z }.
Record ApiTime := {
  api_id : Z;
  api_user : ApiUser;
  api_map : ApiMapRef;
  api_game_id : Z;
  api_style_id : Z;
  api_mode_id : Z;
  api_date : string;
  api_time : Z
}.

(** [interface Record]. *)
Record WR := {
  timeId : Z;
  userId : Z;
  username : string;
  mapId : Z;
  game : Z;
  style : Z;
  course : Z;
  date : Date;
  time : Z
}.

(** [interface StrafesMap]; [string | undefined] is an [option]. *)
Record StrafesMap := {
  sm_id : Z;
  sm_name : string;
  sm_creator : string;
  sm_game : Z;
  sm_date : Date;
  sm_createdAt : Date;
  sm_updatedAt : Date;
  sm_submitter : Z;
  sm_smallThumb : option string;
  sm_largeThumb : option string;
  sm_assetVersion : Z;
  sm_loadCount : Z;
  sm_modes : Z
}.

(** What the map endpoint sends for one map.  [map.thumbnail] is an asset
    id or missing. *)
Record ApiMap := {
  am_id : Z;
  am_display_name : string;
  am_creator : string;
  am_game_id : Z;
  am_date : string;
  am_created_at : string;
  am_updated_at : string;
  am_submitter : Z;
  am_thumbnail : option Z;
  am_asset_version : Z;
  am_load_count : Z;
  am_modes : Z
}.

(** One entry of the thumbnail service's answer. *)
Record ApiAsset := { targetId : Z; imageUrl : string }.

(** [enum Mode]. *)
Inductive Mode := Seed | Refresh.

Global Instance Date_eq_dec : EqDecision Date.
Proof. solve_decision. Defined.
Global Instance WR_eq_dec : EqDecision WR.
Proof. solve_decision. Defined.
Global Instance StrafesMap_eq_dec : EqDecision StrafesMap.
Proof. solve_decision. Defined.

(** The object literal pushed onto [wrs] in [refreshWRs] and [loadAllWRs]. *)
Definition toRecord (record : ApiTime) : WR :=
  {| timeId := api_id record;
     userId := api_user_id (api_user record);
     username := api_username (api_user record);
     mapId := api_map_id (api_map record);
     game := api_game_id record;
     style := api_style_id record;
     course := api_mode_id record;
     date := NewDate (api_date record);
     time := api_time record |}.

(** ** The seen-set loops

    The source has the same loop four times: over [data] with [timeIds]
    (in [refreshWRs] and in [loadAllWRs]), over [wrs] with [userIdSet] (in
    [insertUsers]) and over [wrs] with [mapIdSet] (in [wrsHaveMapsLoaded]):

      if (seen.has(key(x))) continue;
      seen.add(key(x));
      out.push(conv(x));
*)
Section SeenSet.
Context {A B : Type} (key : A → Z) (conv : A → B).

Definition pushUnseen (acc : list B * gset Z) (x : A) : list B * gset Z :=
  if decide (key x ∈ acc.2) then acc
  else (acc.1 ++ [conv x], {[key x]} ∪ acc.2).

Definition scan (acc : list B * gset Z) (xs : list A) : list B * gset Z :=
  foldl pushUnseen acc xs.

(** The specification's wording, "retain only the first occurrence of
    each identifier, in arrival order": the head stays, and everything
    behind it with the same identifier goes. *)
Fixpoint firstOccurrences (xs : list A) : list A :=
  match xs with
  | [] => []
  | x :: xs' => x :: filter (λ y, key y ≠ key x) (firstOccurrences xs')
  end.
End SeenSet.

(** The body of [for (const record of data)] in [refreshWRs] and
    [loadAllWRs], on the pair ([wrs], [timeIds]). *)
Definition pushRecords (acc : list WR * gset Z) (data : list ApiTime)
  : list WR * gset Z :=
  scan api_id toRecord acc data.

(** [userRows] as [insertUsers] builds it. *)
Definition userRows (wrs : list WR) : list (Z * string) :=
  (scan userId (λ wr, (userId wr, username wr)) ([], ∅) wrs).1.

(** [mapIds] as [wrsHaveMapsLoaded] builds it. *)
Definition mapIdsOf (wrs : list WR) : list Z :=
  (scan mapId mapId ([], ∅) wrs).1.

(** ** The store

    The three tables are those of the [CREATE TABLE] statements of [main]:
    each is keyed by its primary key, [globals] also has the unique index
    [map_index] on (map_id, game, style, course) and its two foreign
    keys. *)

(** One row of [globals]: the eight values [wrRows] holds per record. *)
Record GlobalsRow := {
  time_id : Z;
  user_id : Z;
  map_id : Z;
  col_game : Z;
  col_style : Z;
  col_course : Z;
  col_date : Date;
  col_time : Z
}.

Global Instance GlobalsRow_eq_dec : EqDecision GlobalsRow.
Proof. solve_decision. Defined.

(** The columns of the unique index [map_index]. *)
Definition slot (r : GlobalsRow) : Z * Z * Z * Z :=
  (map_id r, col_game r, col_style r, col_course r).

Record DB := {
  users : gmap Z string;
  maps : gmap Z StrafesMap;
  globals : gmap Z GlobalsRow
}.

Definition emptyDB : DB := {| users := ∅; maps := ∅; globals := ∅ |}.

(** The statements the job sends. *)
Inductive Stmt :=
| CreateUsers
| CreateMaps
| CreateGlobals
| UpsertUsers (rows : list (Z * string))
| SelectMapIds (mapIds : list Z)
| TruncateMaps
| InsertMaps (rows : list StrafesMap)
| TruncateGlobals
| InsertGlobals (rows : list GlobalsRow)
| UpsertGlobals (rows : list GlobalsRow).

Inductive SqlError :=
| ER_PARSE_ERROR
| ER_DUP_ENTRY (index : string)
| ER_NO_REFERENCED_ROW.

(** What [connection.query] resolves to: a header with [affectedRows], or
    the selected rows (here the [map_id] column). *)
Inductive QueryResult :=
| ResultSetHeader (n : Z)
| RowData (rows : list Z).

Definition affectedRows (r : QueryResult) : Z :=
  match r with ResultSetHeader n => n | RowData _ => 0 end.

Definition rowsOf (r : QueryResult) : list Z :=
  match r with ResultSetHeader _ => [] | RowData rows => rows end.

(** [INSERT INTO users ... ON DUPLICATE KEY UPDATE username=new.username],
    one row: a new user counts 1, a changed username 2, an unchanged row 0. *)
Definition upsertUser (acc : gmap Z string * Z) (row : Z * string)
  : gmap Z string * Z :=
  (<[row.1 := row.2]> acc.1,
   acc.2 + match acc.1 !! row.1 with
           | None => 1
           | Some old => if decide (old = row.2) then 0 else 2
           end).

(** [INSERT INTO maps ... VALUES], one row. *)
Definition insertMapRow (acc : SqlError + gmap Z StrafesMap) (row : StrafesMap)
  : SqlError + gmap Z StrafesMap :=
  match acc with
  | inl e => inl e
  | inr m =>
      match m !! sm_id row with
      | Some _ => inl (ER_DUP_ENTRY "PRIMARY")
      | None => inr (<[sm_id row := row]> m)
      end
  end.

(** Both foreign keys of [globals]. *)
Definition referencesExist (db : DB) (r : GlobalsRow) : bool :=
  bool_decide (is_Some (users db !! user_id r))
  && bool_decide (is_Some (maps db !! map_id r)).

(** Some row other than the one keyed [k] holds the slot [s]. *)
Definition slotTakenByOther (g : gmap Z GlobalsRow) (s : Z * Z * Z * Z) (k : Z)
  : bool :=
  bool_decide (map_Exists (λ k' b, slot b = s ∧ k' ≠ k) g).

Definition slotTaken (g : gmap Z GlobalsRow) (s : Z * Z * Z * Z) : bool :=
  bool_decide (map_Exists (λ _ b, slot b = s) g).

(** [INSERT INTO globals ... VALUES], one row. *)
Definition insertGlobalsRow (db : DB) (acc : SqlError + gmap Z GlobalsRow)
    (r : GlobalsRow) : SqlError + gmap Z GlobalsRow :=
  match acc with
  | inl e => inl e
  | inr g =>
      if negb (referencesExist db r) then inl ER_NO_REFERENCED_ROW
      else if bool_decide (is_Some (g !! time_id r))
      then inl (ER_DUP_ENTRY "PRIMARY")
      else if slotTaken g (slot r) then inl (ER_DUP_ENTRY "map_index")
      else inr (<[time_id r := r]> g)
  end.

(** [INSERT INTO globals ... ON DUPLICATE KEY UPDATE] with every column
    assigned, one row.  When a row with the same [time_id] exists it takes
    the new values, which fails if another row holds the new slot.
    Otherwise the row that holds the slot, if there is one, takes the new
    values (and so moves to the new [time_id]); otherwise the row is
    inserted.  An insert counts 1, a change 2, an unchanged row 0. *)
Definition upsertGlobalsRow (db : DB) (acc : SqlError + gmap Z GlobalsRow * Z)
    (r : GlobalsRow) : SqlError + gmap Z GlobalsRow * Z :=
  match acc with
  | inl e => inl e
  | inr (g, n) =>
      if negb (referencesExist db r) then inl ER_NO_REFERENCED_ROW
      else
        match g !! time_id r with
        | Some old =>
            if slotTakenByOther g (slot r) (time_id r)
            then inl (ER_DUP_ENTRY "map_index")
            else inr (<[time_id r := r]> g,
                      n + if decide (old = r) then 0 else 2)
        | None =>
            inr (<[time_id r := r]> (filter (λ kb, slot kb.2 ≠ slot r) g),
                 n + if slotTaken g (slot r) then 2 else 1)
        end
  end.

Definition setUsers (db : DB) (u : gmap Z string) : DB :=
  {| users := u; maps := maps db; globals := globals db |}.
Definition setMaps (db : DB) (m : gmap Z StrafesMap) : DB :=
  {| users := users db; maps := m; globals := globals db |}.
Definition setGlobals (db : DB) (g : gmap Z GlobalsRow) : DB :=
  {| users := users db; maps := maps db; globals := g |}.

(** Modelled from the spec: the relational store behind
    [connection.query], which the job reaches through the mysql2 driver
    and which is no part of the repository; the statements are those the
    source sends, the constraints those of the specification's "Outbound
    store".  A statement either runs to its end or fails and leaves the
    store as it was.  The driver writes a row list in place of the [?];
    with no rows nothing is written there, and the statement ([VALUES]
    followed by nothing, [IN ()]) does not parse. *)
Definition runStmt (db : DB) (q : Stmt) : SqlError + QueryResult * DB :=
  match q with
  | CreateUsers | CreateMaps | CreateGlobals => inr (ResultSetHeader 0, db)
  | UpsertUsers [] => inl ER_PARSE_ERROR
  | UpsertUsers rows =>
      let r := foldl upsertUser (users db, 0) rows in
      inr (ResultSetHeader r.2, setUsers db r.1)
  | SelectMapIds [] => inl ER_PARSE_ERROR
  | SelectMapIds mapIds =>
      inr (RowData (map_to_list (filter (λ kv, kv.1 ∈ mapIds) (maps db))).*1,
           db)
  | TruncateMaps => inr (ResultSetHeader 0, setMaps db ∅)
  | InsertMaps [] => inl ER_PARSE_ERROR
  | InsertMaps rows =>
      match foldl insertMapRow (inr (maps db)) rows with
      | inl e => inl e
      | inr m => inr (ResultSetHeader (Z.of_nat (length rows)), setMaps db m)
      end
  | TruncateGlobals => inr (ResultSetHeader 0, setGlobals db ∅)
  | InsertGlobals [] => inl ER_PARSE_ERROR
  | InsertGlobals rows =>
      match foldl (insertGlobalsRow db) (inr (globals db)) rows with
      | inl e => inl e
      | inr g => inr (ResultSetHeader (Z.of_nat (length rows)), setGlobals db g)
      end
  | UpsertGlobals [] => inl ER_PARSE_ERROR
  | UpsertGlobals rows =>
      match foldl (upsertGlobalsRow db) (inr (globals db, 0)) rows with
      | inl e => inl e
      | inr (g, n) => inr (ResultSetHeader n, setGlobals db g)
      end
  end.

(** What the keys of [globals] ask of the table: a row sits under its own
    [time_id] (the primary key), and no two rows share a slot (the unique
    index). *)
Definition keysAgree (g : gmap Z GlobalsRow) : Prop :=
  ∀ k r, g !! k = Some r → time_id r = k.

Definition slotsUnique (g : gmap Z GlobalsRow) : Prop :=
  ∀ k1 k2 r1 r2,
    g !! k1 = Some r1 → g !! k2 = Some r2 → slot r1 = slot r2 → k1 = k2.

(** ** Effects *)

(** The [params] object of a request. *)
Inductive Params :=
| PageParams (page_number page_size : Z)
| AssetParams (assetIds : list Z) (size format : string).

(** What is thrown: by [axios.get] (network error, timeout, HTTP status)
    or by [connection.query]. *)
Inductive Exn :=
| AxiosError (cause : string)
| QueryError (e : SqlError).

(** The lines written with [console.log] and [console.error]. *)
Inductive LogLine :=
| LogMissingDatabaseUser
| LogMissingApiKey
| LogRunning (mode : Mode)
| LogLoadingPage (page : Z)
| LogSleeping
| LogError (err : Exn)
| LogInsertedUsers (n : Z)
| LogInsertedMaps (n : Z)
| LogInsertedWRs (n : Z).

(** What a run does to the outside, in order.  A query is recorded with
    the store it ran against. *)
Inductive Event :=
| EvGet (url : string) (params : Params) (apiKey : option string) (timeout : Z)
| EvLog (line : LogLine)
| EvSleep (ms : Z)
| EvQuery (q : Stmt) (before : DB)
| EvEnd.

Inductive Res (A : Type) :=
| Ok (a : A)
| Throw (e : Exn)
| OutOfFuel.
Arguments Ok {A} a.
Arguments Throw {A} e.
Arguments OutOfFuel {A}.

(** Code without the connection: a result and the events it caused. *)
Definition Net (A : Type) : Type := Res A * list Event.

Global Instance Net_ret : MRet Net := λ A a, (Ok a, []).

Global Instance Net_bind : MBind Net := λ A B f m,
  match m.1 with
  | Ok a => ((f a).1, m.2 ++ (f a).2)
  | Throw e => (Throw e, m.2)
  | OutOfFuel => (OutOfFuel, m.2)
  end.

Definition emit (e : Event) : Net unit := (Ok tt, [e]).

Definition console_log (line : LogLine) : Net unit := emit (EvLog line).

(** [sleep(ms)]. *)
Definition sleep (ms : Z) : Net unit := emit (EvSleep ms).

(** [try { ... } catch (err) { ... }]. *)
Definition try_catch {A} (body : Net A) (handler : Exn → Net A) : Net A :=
  match body.1 with
  | Throw err => ((handler err).1, body.2 ++ (handler err).2)
  | _ => body
  end.

(** Code with the connection: the store goes in and comes out. *)
Definition Db (A : Type) : Type := DB → Res A * DB * list Event.

Global Instance Db_ret : MRet Db := λ A a db, (Ok a, db, []).

Global Instance Db_bind : MBind Db := λ A B f m db,
  match m db with
  | (Ok a, db1, ev1) =>
      match f a db1 with (r, db2, ev2) => (r, db2, ev1 ++ ev2) end
  | (Throw e, db1, ev1) => (Throw e, db1, ev1)
  | (OutOfFuel, db1, ev1) => (OutOfFuel, db1, ev1)
  end.

(** A call of a connection-free function from one that has the connection. *)
Definition lift {A} (m : Net A) : Db A := λ db, (m.1, db, m.2).

(** [connection.query(q, ...)]: rejects when the statement fails. *)
Definition query (q : Stmt) : Db QueryResult := λ db,
  match runStmt db q with
  | inl e => (Throw (QueryError e), db, [EvQuery q db])
  | inr (r, db') => (Ok r, db', [EvQuery q db])
  end.

(** ** The outside world *)

(** The header ["x-rate-limit-burst"] as the loop reads it: not a string,
    a string that [+remaining] turns into [NaN], or a string that it turns
    into a number (a count of requests, an integer). *)
Inductive HeaderValue :=
| NotAString
| NaNString
| NumString (n : Z).

(** A response: the header and [response.data.data]. *)
Record AxiosResponse (T : Type) := {
  rateLimitBurst : HeaderValue;
  data : T
}.
Arguments rateLimitBurst {T} _.
Arguments data {T} _.

(** What [axios.get] comes to: it throws with a cause, or resolves. *)
Definition Reply (T : Type) : Type := string + AxiosResponse T.

(** The environment of a run: the API key and what each endpoint answers
    to a request, by the end of its url and its parameters.  An endpoint
    answers the same request the same way every time it is asked. *)
Record World := {
  STRAFES_KEY : option string;
  strafesApi : string → Z → Z → Reply (list ApiTime);
  mapsApi : string → Z → Z → Reply (list ApiMap);
  thumbnailsApi : list Z → string → string → Reply (list ApiAsset)
}.

(** [!x] for a string from the environment: missing or empty. *)
Definition missing (x : option string) : bool :=
  match x with
  | None => true
  | Some s => bool_decide (s = "")
  end.

(** [!maps] for an array: an array is an object, and no object is falsy,
    the empty array included. *)
Definition notArray {A} (maps : list A) : bool := false.

(** [if (map.thumbnail)]: an asset id that is there and is not 0. *)
Definition hasThumbnail (thumbnail : option Z) : bool :=
  match thumbnail with
  | Some n => bool_decide (n ≠ 0)
  | None => false
  end.

(** ** The engine *)

Section Engine.
Context (world : World).

(** [axios.get(url, {params, headers, timeout: 3000})], given what the
    endpoint answers. *)
Definition axios_get {T} (url : string) (params : Params)
    (apiKey : option string) (reply : Reply T) : Net (AxiosResponse T) :=
  (match reply with
   | inr response => Ok response
   | inl cause => Throw (AxiosError cause)
   end,
   [EvGet url params apiKey 3000]).

Definition tryGetRequest {T} (url : string) (params : Params)
    (apiKey : option string) (reply : Reply T)
  : Net (option (AxiosResponse T)) :=
  try_catch
    (response ← axios_get url params apiKey reply; mret (Some response))
    (λ err, _ ← console_log (LogError err); mret None).

Definition tryGetStrafes (end_of_url : string) (page_number page_size : Z)
  : Net (option (AxiosResponse (list ApiTime))) :=
  tryGetRequest ("https://api.strafes.net/api/v1/" +:+ end_of_url)
    (PageParams page_number page_size) (STRAFES_KEY world)
    (strafesApi world end_of_url page_number page_size).

Definition tryGetMaps (end_of_url : string) (page_number page_size : Z)
  : Net (option (AxiosResponse (list ApiMap))) :=
  tryGetRequest ("https://maps.strafes.net/public-api/v1/" +:+ end_of_url)
    (PageParams page_number page_size) (STRAFES_KEY world)
    (mapsApi world end_of_url page_number page_size).

Definition tryGetThumbnails (assetIds : list Z) (size format : string)
  : Net (option (AxiosResponse (list ApiAsset))) :=
  tryGetRequest "https://thumbnails.roproxy.com/v1/assets"
    (AssetParams assetIds size format) None
    (thumbnailsApi world assetIds size format).

(** *** [loadAllWRs] *)

(** The variables the [while] loop of [loadAllWRs] carries besides [page]. *)
Record LoopVars := {
  wrs : list WR;
  timeIds : gset Z;
  burstRemaining : Z;
  hasMore : bool
}.

(** [let burstRemaining = 999; let hasMore = true;] with the two empty
    collections. *)
Definition initialVars : LoopVars :=
  {| wrs := []; timeIds := ∅; burstRemaining := 999; hasMore := true |}.

(** The first statement of the body of [for (const response of resolved)],
    after the [continue] for a missing response. *)
Definition trackBurst (burstRemaining : Z) (remaining : HeaderValue) : Z :=
  match remaining with
  | NumString n => if bool_decide (n < burstRemaining) then n else burstRemaining
  | _ => burstRemaining
  end.

(** One turn of [for (const response of resolved)]. *)
Definition handleResponse (v : LoopVars)
    (response : option (AxiosResponse (list ApiTime))) : LoopVars :=
  match response with
  | None => v
  | Some response =>
      let burstRemaining' :=
        trackBurst (burstRemaining v) (rateLimitBurst response) in
      if bool_decide (Z.of_nat (length (data response)) ≤ 0)
      then {| wrs := wrs v; timeIds := timeIds v;
              burstRemaining := burstRemaining'; hasMore := false |}
      else
        let acc := pushRecords (wrs v, timeIds v) (data response) in
        {| wrs := acc.1; timeIds := acc.2;
           burstRemaining := burstRemaining'; hasMore := hasMore v |}
  end.

(** The five requests of a burst, [page + 0] to [page + 4], and
    [Promise.all] over them: the answers come back in the order of the
    requests. *)
Definition burst (page : Z)
  : Net (list (option (AxiosResponse (list ApiTime)))) :=
  mapM (λ i, tryGetStrafes "time/worldrecord" (page + i) 100) [0; 1; 2; 3; 4].

(** How one turn of the [while] loop ends: by [break], or ready for the
    next turn. *)
Inductive Turn :=
| Break (v : LoopVars)
| Next (v : LoopVars) (page : Z).

(** The body of [while (hasMore)]. *)
Definition loadAllWRs_body (v : LoopVars) (page : Z) : Net Turn :=
  _ ← console_log (LogLoadingPage page);
  resolved ← burst page;
  let page := page + 5 in
  let v := foldl handleResponse v resolved in
  if negb (hasMore v) then mret (Break v)
  else if bool_decide (burstRemaining v < 70) then
    let v := {| wrs := wrs v; timeIds := timeIds v;
                burstRemaining := 999; hasMore := hasMore v |} in
    _ ← console_log LogSleeping;
    _ ← sleep (1000 * 60);
    mret (Next v page)
  else mret (Next v page).

Fixpoint loadAllWRs_loop (fuel : nat) (v : LoopVars) (page : Z)
  : Net (list WR) :=
  match fuel with
  | O => (OutOfFuel, [])
  | S fuel =>
      if hasMore v then
        turn ← loadAllWRs_body v page;
        match turn with
        | Break v => mret (wrs v)
        | Next v page => loadAllWRs_loop fuel v page
        end
      else mret (wrs v)
  end.

Definition loadAllWRs (fuel : nat) : Net (list WR) :=
  loadAllWRs_loop fuel initialVars 1.

(** *** [loadMaps] *)

(** [assetIds]: the thumbnails of the maps of a page that have one. *)
Definition assetIdsOf (data : list ApiMap) : list Z :=
  omap (λ map, if hasThumbnail (am_thumbnail map) then am_thumbnail map
               else None) data.

(** The loop over [largeReq.data.data]. *)
Definition setLarge (assetToThumb : gmap Z (gmap string string))
    (assetInfo : ApiAsset) : gmap Z (gmap string string) :=
  <[targetId assetInfo := {["large" := imageUrl assetInfo]}]> assetToThumb.

(** The loop over [smallReq.data.data]. *)
Definition setSmall (assetToThumb : gmap Z (gmap string string))
    (assetInfo : ApiAsset) : gmap Z (gmap string string) :=
  match assetToThumb !! targetId assetInfo with
  | Some urlMap =>
      <[targetId assetInfo := <["small" := imageUrl assetInfo]> urlMap]>
        assetToThumb
  | None =>
      <[targetId assetInfo := {["small" := imageUrl assetInfo]}]> assetToThumb
  end.

(** [if (req) { for (const assetInfo of req.data.data) ... }]. *)
Definition mergeThumbs
    (step : gmap Z (gmap string string) → ApiAsset → gmap Z (gmap string string))
    (assetToThumb : gmap Z (gmap string string))
    (req : option (AxiosResponse (list ApiAsset)))
  : gmap Z (gmap string string) :=
  match req with
  | Some req => foldl step assetToThumb (data req)
  | None => assetToThumb
  end.

(** The object pushed onto [maps]. *)
Definition toStrafesMap (assetToThumb : gmap Z (gmap string string))
    (map : ApiMap) : StrafesMap :=
  let urls :=
    if hasThumbnail (am_thumbnail map)
    then am_thumbnail map ≫= (λ thumbnail, assetToThumb !! thumbnail)
    else None in
  {| sm_id := am_id map;
     sm_name := am_display_name map;
     sm_creator := am_creator map;
     sm_game := am_game_id map;
     sm_date := NewDate (am_date map);
     sm_createdAt := NewDate (am_created_at map);
     sm_updatedAt := NewDate (am_updated_at map);
     sm_submitter := am_submitter map;
     sm_smallThumb := urls ≫= (λ urls, urls !! "small");
     sm_largeThumb := urls ≫= (λ urls, urls !! "large");
     sm_assetVersion := am_asset_version map;
     sm_loadCount := am_load_count map;
     sm_modes := am_modes map |}.

(** [while (true)] of [loadMaps], from its page [i] with [maps] so far.
    The two thumbnail requests are sent one after the other and then
    awaited; here each is awaited where it is sent. *)
Fixpoint loadMaps_loop (fuel : nat) (i : Z) (maps : list StrafesMap)
  : Net (list StrafesMap) :=
  match fuel with
  | O => (OutOfFuel, [])
  | S fuel =>
      mapRes ← tryGetMaps "map" i 100;
      let i := i + 1 in
      match mapRes with
      | None => mret []
      | Some mapRes =>
          let data := data mapRes in
          if bool_decide (Z.of_nat (length data) < 1) then mret maps
          else
            let assetIds := assetIdsOf data in
            largeReq ← tryGetThumbnails assetIds "420x420" "Webp";
            smallReq ← tryGetThumbnails assetIds "75x75" "Webp";
            let assetToThumb :=
              mergeThumbs setSmall (mergeThumbs setLarge ∅ largeReq) smallReq in
            let maps := maps ++ (toStrafesMap assetToThumb <$> data) in
            if bool_decide (Z.of_nat (length data) < 100) then mret maps
            else loadMaps_loop fuel i maps
      end
  end.

Definition loadMaps (fuel : nat) : Net (list StrafesMap) :=
  loadMaps_loop fuel 1 [].

(** *** The functions that hold the connection *)

(** The array of column values [wrs.map(...)] builds per record. *)
Definition wrRow (record : WR) : GlobalsRow :=
  {| time_id := timeId record;
     user_id := userId record;
     map_id := mapId record;
     col_game := game record;
     col_style := style record;
     col_course := course record;
     col_date := date record;
     col_time := time record |}.

Definition insertUsers (wrs : list WR) : Db unit :=
  usersInserted ← query (UpsertUsers (userRows wrs));
  lift (console_log (LogInsertedUsers (affectedRows usersInserted))).

Definition wrsHaveMapsLoaded (wrs : list WR) : Db bool :=
  let mapIds := mapIdsOf wrs in
  rows ← query (SelectMapIds mapIds);
  mret (bool_decide (length (rowsOf rows) = length mapIds)).

(** The rows of [maps] are the maps themselves, field by field in the
    order of the columns. *)
Definition updateMaps (fuel : nat) : Db bool :=
  maps ← lift (loadMaps fuel);
  if notArray maps then mret false
  else
    let mapRows := maps in
    _ ← query TruncateMaps;
    inserted ← query (InsertMaps mapRows);
    _ ← lift (console_log (LogInsertedMaps (affectedRows inserted)));
    mret true.

Definition refreshWRs (fuel : nat) : Db bool :=
  response ← lift (tryGetStrafes "time/worldrecord" 1 100);
  match response with
  | None => mret false
  | Some response =>
      let wrs := (pushRecords ([], ∅) (data response)).1 in
      _ ← insertUsers wrs;
      loaded ← wrsHaveMapsLoaded wrs;
      stop ← (if negb loaded
              then updated ← updateMaps fuel; mret (negb updated)
              else mret false);
      if (stop : bool) then mret false
      else
        let wrRows := wrRow <$> wrs in
        inserted ← query (UpsertGlobals wrRows);
        _ ← lift (console_log (LogInsertedWRs (affectedRows inserted)));
        mret true
  end.

Definition seedWRs (fuel : nat) : Db bool :=
  updated ← updateMaps fuel;
  if negb updated then mret false
  else
    wrs ← lift (loadAllWRs fuel);
    _ ← insertUsers wrs;
    let wrRows := wrRow <$> wrs in
    _ ← query TruncateGlobals;
    inserted ← query (InsertGlobals wrRows);
    _ ← lift (console_log (LogInsertedWRs (affectedRows inserted)));
    mret true.

(** [main], from the environment and the arguments to the exit code.  The
    connection is taken to open and to end without an error, and the
    answers of the services to carry bodies of the shape the code reads;
    what is left to reject is [connection.query].  A [Throw] is a
    rejection nobody handles: [process.exitCode] is not assigned and the
    connection is not ended. *)
Definition main (DB_USER DB_PASSWORD : option string) (args : list string)
    (fuel : nat) : Db Z :=
  if missing DB_USER || missing DB_PASSWORD then
    _ ← lift (console_log LogMissingDatabaseUser); mret 1
  else if missing (STRAFES_KEY world) then
    _ ← lift (console_log LogMissingApiKey); mret 1
  else
    let mode := if decide (args !! 0%nat = Some "seed") then Seed else Refresh in
    _ ← lift (console_log (LogRunning mode));
    _ ← query CreateUsers;
    _ ← query CreateMaps;
    _ ← query CreateGlobals;
    success ← match mode with
              | Seed => seedWRs fuel
              | Refresh => refreshWRs fuel
              end;
    _ ← lift (emit EvEnd);
    mret (if (success : bool) then 0 else 1).

End Engine.

(** ** Vocabulary of the properties *)

(** What [tryGetStrafes] yields for a page of world records: the response,
    or nothing when the request failed. *)
Definition answer (world : World) (page : Z)
  : option (AxiosResponse (list ApiTime)) :=
  match strafesApi world "time/worldrecord" page 100 with
  | inr response => Some response
  | inl _ => None
  end.

(** The pages of the burst that starts at [page]. *)
Definition burstPages (page : Z) : list Z :=
  (λ i, page + i) <$> [0; 1; 2; 3; 4].

(** The records of the responses of a round, in the order they are read. *)
Definition fetched (resolved : list (option (AxiosResponse (list ApiTime))))
  : list ApiTime :=
  resolved ≫= (λ response,
    match response with Some response => data response | None => [] end).

(** Some response of the round carries no record. *)
Definition exhausted (resolved : list (option (AxiosResponse (list ApiTime))))
  : Prop :=
  ∃ response, Some response ∈ resolved ∧ data response = [].

(** The remaining-capacity values the responses of a round report. *)
Definition reported (resolved : list (option (AxiosResponse (list ApiTime))))
  : list Z :=
  omap (λ response,
    match response with
    | Some response =>
        match rateLimitBurst response with
        | NumString n => Some n
        | _ => None
        end
    | None => None
    end) resolved.

Definition minimum (l : list Z) : option Z :=
  match l with
  | [] => None
  | x :: l' => Some (foldl Z.min x l')
  end.

(** "The minimum reported remaining capacity of the round is below 70." *)
Definition minimumBelow70
    (resolved : list (option (AxiosResponse (list ApiTime)))) : Prop :=
  ∃ m, minimum (reported resolved) = Some m ∧ m < 70.

(** The page numbers of the world-record requests among some events. *)
Definition requestedPages (evs : list Event) : list Z :=
  omap (λ e,
    match e with
    | EvGet url (PageParams page_number _) _ _ =>
        if decide (url = "https://api.strafes.net/api/v1/time/worldrecord")
        then Some page_number else None
    | _ => None
    end) evs.

Definition isSleep (e : Event) : Prop :=
  match e with EvSleep _ => True | _ => False end.

Definition isQuery (e : Event) : Prop :=
  match e with EvQuery _ _ => True | _ => False end.

(** The record-level write of refresh mode. *)
Definition isGlobalsUpsert (e : Event) : Prop :=
  match e with EvQuery (UpsertGlobals _) _ => True | _ => False end.

(** The table [globals] after one row was upserted without an error: the
    row that held the slot of [r], if any, is gone, and [r] sits under its
    [time_id]. *)
Definition upsertInto (g : gmap Z GlobalsRow) (r : GlobalsRow)
  : gmap Z GlobalsRow :=
  <[time_id r := r]> (filter (λ kb, slot kb.2 ≠ slot r) g).

(** A row of the table as it is left by the upsert of [r] under another
    key. *)
Definition keep (r : GlobalsRow) (ob : option GlobalsRow) : option GlobalsRow :=
  match ob with
  | Some b => if decide (slot b = slot r) then None else Some b
  | None => None
  end.

(** Two tables that the upsert of [r] makes equal. *)
Definition sameOutside (r : GlobalsRow) (g g' : gmap Z GlobalsRow) : Prop :=
  ∀ k, k ≠ time_id r → keep r (g !! k) = keep r (g' !! k).

(** The last statements of [seedWRs]: the table is emptied and the rows
    are inserted. *)
Definition seedWrite (wrRows : list GlobalsRow) : Db bool :=
  _ ← query TruncateGlobals;
  inserted ← query (InsertGlobals wrRows);
  _ ← lift (console_log (LogInsertedWRs (affectedRows inserted)));
  mret true.

(** The states in which the [while] loop of [loadAllWRs] starts a turn. *)
Inductive Reachable (world : World) : LoopVars → Z → Prop :=
| reach_first : Reachable world initialVars 1
| reach_next v page v' page' evs :
    Reachable world v page →
    loadAllWRs_body world v page = (Ok (Next v' page'), evs) →
    Reachable world v' page'.

(** [xs !! i] is the first element of [xs] with its key. *)
Definition firstWithKey {A} (key : A → Z) (xs : list A) (i : nat) (x : A)
  : Prop :=
  xs !! i = Some x ∧ ∀ j y, (j < i)%nat → xs !! j = Some y → key y ≠ key x.

(** How often a record with the identifier [i] occurs in a batch. *)
Definition occurrences (i : Z) (batch : list WR) : nat :=
  length (filter (λ w, timeId w = i) batch).

(** The events of the request for one page of world records. *)
Definition pageEvents (world : World) (page : Z) : list Event :=
  (tryGetStrafes world "time/worldrecord" page 100).2.

(** What [resolved] holds in the turn that starts at [page]. *)
Definition resolvedAt (world : World) (page : Z)
  : list (option (AxiosResponse (list ApiTime))) :=
  answer world <$> burstPages page.

(** The events of a turn up to the end of [Promise.all]. *)
Definition roundEvents (world : World) (page : Z) : list Event :=
  EvLog (LogLoadingPage page) :: (burstPages page ≫= pageEvents world).

(** [burstRemaining = 999] in the branch that sleeps. *)
Definition resetBurst (v : LoopVars) : LoopVars :=
  {| wrs := wrs v; timeIds := timeIds v;
     burstRemaining := 999; hasMore := hasMore v |}.

(** *** Vocabulary of the further properties *)

(** What [tryGetMaps] yields for a page of maps. *)
Definition mapAnswer (world : World) (page : Z)
  : option (AxiosResponse (list ApiMap)) :=
  match mapsApi world "map" page 100 with
  | inr response => Some response
  | inl _ => None
  end.

(** What [tryGetThumbnails] yields for a list of assets and a size. *)
Definition thumbAnswer (world : World) (assetIds : list Z) (size : string)
  : option (AxiosResponse (list ApiAsset)) :=
  match thumbnailsApi world assetIds size "Webp" with
  | inr response => Some response
  | inl _ => None
  end.

(** The maps [loadMaps] pushes for the page that holds [data], with what
    the thumbnail service answers for the assets of the page. *)
Definition convertPage (world : World) (data : list ApiMap) : list StrafesMap :=
  toStrafesMap
    (mergeThumbs setSmall
       (mergeThumbs setLarge ∅ (thumbAnswer world (assetIdsOf data) "420x420"))
       (thumbAnswer world (assetIdsOf data) "75x75"))
  <$> data.

(** The maps the pages [1] to [K] of the map endpoint list. *)
Definition listedMaps (world : World) (K : Z) : list ApiMap :=
  seqZ 1 K ≫= (λ p,
    match mapAnswer world p with Some r => data r | None => [] end).

(** A map without its two thumbnails. *)
Definition clearThumbs (m : StrafesMap) : StrafesMap :=
  {| sm_id := sm_id m; sm_name := sm_name m; sm_creator := sm_creator m;
     sm_game := sm_game m; sm_date := sm_date m;
     sm_createdAt := sm_createdAt m; sm_updatedAt := sm_updatedAt m;
     sm_submitter := sm_submitter m;
     sm_smallThumb := None; sm_largeThumb := None;
     sm_assetVersion := sm_assetVersion m; sm_loadCount := sm_loadCount m;
     sm_modes := sm_modes m |}.

(** The url a response of the thumbnail service lists for an asset: the
    one of its last entry for the asset. *)
Definition urlFor (asset : Z) (req : option (AxiosResponse (list ApiAsset)))
  : option string :=
  req ≫= (λ req, last (imageUrl <$> filter (λ a, targetId a = asset) (data req))).

(** The maps of an outcome of [loadMaps], without their thumbnails. *)
Definition catalogueOf (r : Res (list StrafesMap)) : Res (list StrafesMap) :=
  match r with
  | Ok maps => Ok (clearThumbs <$> maps)
  | Throw e => Throw e
  | OutOfFuel => OutOfFuel
  end.

(** The url [loadMaps] stores for a map out of a response of the thumbnail
    service: none for a map without thumbnail. *)
Definition thumbOf (map : ApiMap) (req : option (AxiosResponse (list ApiAsset)))
  : option string :=
  if hasThumbnail (am_thumbnail map)
  then am_thumbnail map ≫= (λ asset, urlFor asset req)
  else None.

(** Both foreign keys of [globals] hold in a store. *)
Definition foreignKeysHold (db : DB) : Prop :=
  ∀ k r, globals db !! k = Some r →
    is_Some (users db !! user_id r) ∧ is_Some (maps db !! map_id r).

(** [xs !! i] is the last element of [xs] with its key. *)
Definition lastWithKey {A K} (key : A → K) (xs : list A) (i : nat) (x : A)
  : Prop :=
  xs !! i = Some x ∧ ∀ j y, (i < j)%nat → xs !! j = Some y → key y ≠ key x.

(** A request as the job sends it: three seconds of timeout; a page of 100
    with the API key to one of the two StrafesNET hosts, or a list of
    assets without a key to the thumbnail proxy. *)
Definition requestShape (world : World) (e : Event) : Prop :=
  match e with
  | EvGet url params apiKey timeout =>
      timeout = 3000
      ∧ match params with
        | PageParams _ page_size =>
            page_size = 100 ∧ apiKey = STRAFES_KEY world
            ∧ (url = "https://api.strafes.net/api/v1/time/worldrecord"
               ∨ url = "https://maps.strafes.net/public-api/v1/map")
        | AssetParams _ size format =>
            apiKey = None ∧ format = "Webp"
            ∧ (size = "420x420" ∨ size = "75x75")
            ∧ url = "https://thumbnails.roproxy.com/v1/assets"
        end
  | _ => True
  end.

(** What the functions [main] calls put on the outside: requests of the
    shape above, lines, sleeps and statements, never the end of the
    connection. *)
Definition engineEvent (world : World) (e : Event) : Prop :=
  requestShape world e ∧ e ≠ EvEnd.


(** The three settings [main] asks for are there. *)
Definition configured (world : World) (DB_USER DB_PASSWORD : option string)
  : Prop :=
  missing DB_USER = false ∧ missing DB_PASSWORD = false
  ∧ missing (STRAFES_KEY world) = false.

(** The mode [main] picks from the arguments. *)
Definition modeOf (args : list string) : Mode :=
  if decide (args !! 0%nat = Some "seed") then Seed else Refresh.

(** What [main] does before it calls [seedWRs] or [refreshWRs]. *)
Definition startup (mode : Mode) (db : DB) : list Event :=
  [EvLog (LogRunning mode); EvQuery CreateUsers db; EvQuery CreateMaps db;
   EvQuery CreateGlobals db].

(** The table [maps] that holds the maps of a list, and the table
    [globals] that holds the rows of a list, each under its key. *)
Definition mapTable (cat : list StrafesMap) : gmap Z StrafesMap :=
  list_to_map ((λ m, (sm_id m, m)) <$> cat).

Definition globalsTable (rows : list GlobalsRow) : gmap Z GlobalsRow :=
  list_to_map ((λ r, (time_id r, r)) <$> rows).

(** The status the process ends with after [main();] (l.482), which
    handles nothing: the exit code [main] assigned, or, when the promise
    of [main] rejects, the status 1 with which Node ends a process on an
    unhandled rejection.  That last part is the runtime's doing, no part
    of the repository. *)
Definition exitStatus (r : Res Z) : option Z :=
  match r with
  | Ok code => Some code
  | Throw _ => Some 1
  | OutOfFuel => None
  end.

(** A statement that writes rows of [globals]. *)
Definition writesGlobals (e : Event) : Prop :=
  match e with
  | EvQuery (UpsertGlobals _) _ | EvQuery (InsertGlobals _) _
  | EvQuery TruncateGlobals _ => True
  | _ => False
  end.

(** ** Sample worlds and stores *)

Definition sampleTime (i u m : Z) (name : string) : ApiTime :=
  {| api_id := i;
     api_user := {| api_user_id := u; api_username := name |};
     api_map := {| api_map_id := m |};
     api_game_id := 1; api_style_id := 1; api_mode_id := 0;
     api_date := "2024-05-01T10:00:00Z"; api_time := 23456 |}.

Definition sampleMap (i : Z) : ApiMap :=
  {| am_id := i; am_display_name := "Map"; am_creator := "builder";
     am_game_id := 1; am_date := "2020-01-01"; am_created_at := "2020-01-01";
     am_updated_at := "2020-01-02"; am_submitter := 5;
     am_thumbnail := None; am_asset_version := 1; am_load_count := 10;
     am_modes := 1 |}.

(** Every endpoint is down. *)
Definition downWorld : World :=
  {| STRAFES_KEY := Some "key";
     strafesApi := λ _ _ _, inl "timeout of 3000ms exceeded";
     mapsApi := λ _ _ _, inl "timeout of 3000ms exceeded";
     thumbnailsApi := λ _ _ _, inl "timeout of 3000ms exceeded" |}.

(** Two pages of records, page 3 empty; the map endpoint lists map 99. *)
Definition smallWorld : World :=
  {| STRAFES_KEY := Some "key";
     strafesApi := λ _ page _,
       if decide (page = 1) then
         inr {| rateLimitBurst := NumString 60;
                data := [sampleTime 1 7 99 "ann"; sampleTime 2 7 99 "anne"] |}
       else if decide (page = 2) then
         inr {| rateLimitBurst := NumString 95;
                data := [sampleTime 2 7 99 "anne"; sampleTime 3 8 99 "bob"] |}
       else if decide (page = 3) then
         inr {| rateLimitBurst := NotAString; data := [] |}
       else if decide (page = 4) then
         inr {| rateLimitBurst := NotAString; data := [sampleTime 4 8 99 "bob"] |}
       else inl "Request failed with status code 500";
     mapsApi := λ _ page _,
       if decide (page = 1) then
         inr {| rateLimitBurst := NotAString; data := [sampleMap 99] |}
       else inl "Request failed with status code 500";
     thumbnailsApi := λ _ _ _, inl "timeout of 3000ms exceeded" |}.

(** Every page holds one record and reports a remaining capacity of 60. *)
Definition busyWorld : World :=
  {| STRAFES_KEY := Some "key";
     strafesApi := λ _ page _,
       inr {| rateLimitBurst := NumString 60;
              data := [sampleTime page 7 99 "ann"] |};
     mapsApi := λ _ _ _, inl "timeout of 3000ms exceeded";
     thumbnailsApi := λ _ _ _, inl "timeout of 3000ms exceeded" |}.

(** The first page names map 99; the map endpoint lists map 1 only. *)
Definition staleCatalogWorld : World :=
  {| STRAFES_KEY := Some "key";
     strafesApi := λ _ _ _,
       inr {| rateLimitBurst := NumString 99;
              data := [sampleTime 1 7 99 "ann"] |};
     mapsApi := λ _ _ _,
       inr {| rateLimitBurst := NotAString; data := [sampleMap 1] |};
     thumbnailsApi := λ _ _ _, inl "timeout of 3000ms exceeded" |}.

(** The first page names map 99; the map endpoint is down. *)
Definition mapsDownWorld : World :=
  {| STRAFES_KEY := Some "key";
     strafesApi := λ _ _ _,
       inr {| rateLimitBurst := NumString 99;
              data := [sampleTime 1 7 99 "ann"] |};
     mapsApi := λ _ _ _, inl "timeout of 3000ms exceeded";
     thumbnailsApi := λ _ _ _, inl "timeout of 3000ms exceeded" |}.

(** Two pages of records with distinct slots, page 3 empty; the map
    endpoint lists the maps 98 and 99, the second with a thumbnail. *)
Definition seedWorld : World :=
  {| STRAFES_KEY := Some "key";
     strafesApi := λ _ page _,
       if decide (page = 1) then
         inr {| rateLimitBurst := NumString 90;
                data := [sampleTime 1 7 99 "ann"; sampleTime 2 8 98 "bob"] |}
       else if decide (page = 2) then
         inr {| rateLimitBurst := NumString 89;
                data := [sampleTime 2 8 98 "bob"; sampleTime 3 7 97 "ann"] |}
       else inr {| rateLimitBurst := NotAString; data := [] |};
     mapsApi := λ _ page _,
       if decide (page = 1) then
         inr {| rateLimitBurst := NotAString;
                data := [sampleMap 97; sampleMap 98;
                         {| am_id := 99; am_display_name := "Map";
                            am_creator := "builder"; am_game_id := 1;
                            am_date := "2020-01-01";
                            am_created_at := "2020-01-01";
                            am_updated_at := "2020-01-02"; am_submitter := 5;
                            am_thumbnail := Some 555; am_asset_version := 1;
                            am_load_count := 10; am_modes := 1 |}] |}
       else inl "Request failed with status code 500";
     thumbnailsApi := λ _ size _,
       if decide (size = "420x420") then
         inr {| rateLimitBurst := NotAString;
                data := [{| targetId := 555; imageUrl := "large.webp" |}] |}
       else inl "timeout of 3000ms exceeded" |}.

(** The map endpoint lists 100 maps on page 1 and fails from page 2 on. *)
Definition fullPageWorld : World :=
  {| STRAFES_KEY := Some "key";
     strafesApi := λ _ _ _, inl "timeout of 3000ms exceeded";
     mapsApi := λ _ page _,
       if decide (page = 1) then
         inr {| rateLimitBurst := NotAString;
                data := sampleMap <$> seqZ 1 100 |}
       else inl "Request failed with status code 500";
     thumbnailsApi := λ _ _ _, inl "timeout of 3000ms exceeded" |}.

(** [seedWorld] with the thumbnail service down. *)
Definition seedWorldNoThumbs : World :=
  {| STRAFES_KEY := STRAFES_KEY seedWorld;
     strafesApi := strafesApi seedWorld;
     mapsApi := mapsApi seedWorld;
     thumbnailsApi := λ _ _ _, inl "timeout of 3000ms exceeded" |}.

(** A store whose table [maps] holds map 99 and nothing else. *)
Definition catalogDB : DB :=
  setMaps emptyDB (mapTable [toStrafesMap ∅ (sampleMap 99)]).

(** * Properties *)

(** ** The seen-set loops keep first occurrences *)

Section SeenSetFacts.
Context {A B : Type} (key : A → Z) (conv : A → B).

Lemma scan_app acc (xs ys : list A) :
  scan key conv acc (xs ++ ys) = scan key conv (scan key conv acc xs) ys.
Proof. unfold scan. apply foldl_app. Qed.

Lemma scan_cons acc (x : A) xs :
  scan key conv acc (x :: xs) = scan key conv (pushUnseen key conv acc x) xs.
Proof. reflexivity. Qed.

(** The loop appends, in order, the first occurrences whose key is new,
    and adds the keys it meets to the set. *)
Lemma scan_spec (xs : list A) : ∀ acc,
  scan key conv acc xs =
    (acc.1 ++ (conv <$> filter (λ x, key x ∉ acc.2) (firstOccurrences key xs)),
     acc.2 ∪ list_to_set (key <$> xs)).
Proof.
  induction xs as [|x xs IH]; intros [out seen].
  - unfold scan; simpl. f_equal; [by rewrite app_nil_r | set_solver].
  - rewrite scan_cons. unfold pushUnseen; simpl.
    destruct (decide (key x ∈ seen)) as [Hin|Hout]; rewrite IH; simpl.
    + rewrite filter_cons_False by (intros Hn; by apply Hn).
      rewrite list_filter_filter. f_equal; [|set_solver].
      do 2 f_equal. apply list_filter_iff. intros y. split; [|tauto].
      intros Hy. split; [done|]. intros Heq. apply Hy. by rewrite Heq.
    + rewrite filter_cons_True by done.
      rewrite list_filter_filter, fmap_cons, <- app_assoc. simpl.
      f_equal; [|set_solver]. do 3 f_equal.
      apply list_filter_iff. intros y. set_solver.
Qed.

Lemma firstOccurrences_subset (xs : list A) x :
  x ∈ firstOccurrences key xs → x ∈ xs.
Proof.
  revert x. induction xs as [|y xs IH]; simpl; intros x Hx; [done|].
  apply elem_of_cons in Hx as [->|Hx]; [left|].
  apply list_elem_of_filter in Hx as [_ Hx]. right. by apply IH.
Qed.

Lemma firstOccurrences_keys (xs : list A) k :
  k ∈ key <$> firstOccurrences key xs ↔ k ∈ key <$> xs.
Proof.
  induction xs as [|y xs IH]; simpl; [done|].
  rewrite !elem_of_cons, <- IH.
  rewrite !list_elem_of_fmap. split.
  - intros [->|(x & -> & Hx)]; [by left|].
    apply list_elem_of_filter in Hx as [_ Hx]. right. eauto.
  - intros [->|(x & -> & Hx)]; [by left|].
    destruct (decide (key x = key y)) as [->|Hne]; [by left|].
    right. exists x. split; [done|]. by apply list_elem_of_filter.
Qed.

Lemma firstOccurrences_NoDup (xs : list A) :
  NoDup (key <$> firstOccurrences key xs).
Proof.
  induction xs as [|y xs IH]; simpl; [constructor|].
  constructor.
  - rewrite list_elem_of_fmap. intros (x & Heq & Hx).
    apply list_elem_of_filter in Hx as [Hne _]. by apply Hne.
  - revert IH. generalize (firstOccurrences key xs). intros l.
    induction l as [|z l IHl]; simpl; [constructor|].
    rewrite NoDup_cons. intros [Hz Hl].
    rewrite filter_cons. destruct (decide (key z ≠ key y)); [|by apply IHl].
    simpl. constructor; [|by apply IHl].
    rewrite list_elem_of_fmap. intros (x & Heq & Hx).
    apply list_elem_of_filter in Hx as [_ Hx].
    apply Hz. rewrite Heq. by apply list_elem_of_fmap_2.
Qed.

(** Every element that is kept is the first one of the input with its key. *)
Lemma firstOccurrences_first (xs : list A) x :
  x ∈ firstOccurrences key xs → ∃ i, firstWithKey key xs i x.
Proof.
  revert x. induction xs as [|y xs IH]; simpl; intros x Hx; [by inversion Hx|].
  apply elem_of_cons in Hx as [->|Hx].
  - exists 0%nat. split; [done|]. intros j z Hj. lia.
  - apply list_elem_of_filter in Hx as [Hne Hx].
    destruct (IH x Hx) as (i & Hi & Hfirst).
    exists (S i). split; [done|].
    intros [|j] z Hj Hz; simpl in Hz.
    + by inversion Hz; subst.
    + apply (Hfirst j); [lia|done].
Qed.

Lemma scan_fresh (xs : list A) :
  scan key conv ([], ∅) xs
  = (conv <$> firstOccurrences key xs, list_to_set (key <$> xs)).
Proof.
  rewrite scan_spec. cbn [fst snd app]. f_equal; [|set_solver]. f_equal.
  induction (firstOccurrences key xs) as [|y l IH]; [done|].
  rewrite filter_cons_True by set_solver. by rewrite IH.
Qed.

End SeenSetFacts.

Lemma timeId_toRecord (xs : list ApiTime) :
  timeId <$> (toRecord <$> xs) = api_id <$> xs.
Proof. rewrite <- list_fmap_compose. by apply list_fmap_ext. Qed.

Lemma occurrences_once (batch : list WR) (i : Z) :
  NoDup (timeId <$> batch) → i ∈ timeId <$> batch → occurrences i batch = 1%nat.
Proof.
  unfold occurrences. induction batch as [|w batch IH]; simpl.
  - intros _ Hin. by inversion Hin.
  - rewrite NoDup_cons, elem_of_cons. intros [Hw Hnd] Hin.
    rewrite filter_cons. destruct (decide (timeId w = i)) as [<-|Hne].
    + simpl. f_equal. apply length_zero_iff_nil.
      destruct (filter _ batch) as [|w' l] eqn:Hf; [done|].
      assert (w' ∈ filter (λ w0, timeId w0 = timeId w) batch) as Hw'
        by (rewrite Hf; left).
      apply list_elem_of_filter in Hw' as [Heq Hw'].
      destruct Hw. rewrite <- Heq. by apply list_elem_of_fmap_2.
    + destruct Hin as [->|Hin]; [done|]. by apply IH.
Qed.

Lemma pushRecords_fresh (data : list ApiTime) :
  pushRecords ([], ∅) data
  = (toRecord <$> firstOccurrences api_id data, list_to_set (api_id <$> data)).
Proof. apply scan_fresh. Qed.

Lemma pushRecords_app acc (xs ys : list ApiTime) :
  pushRecords (pushRecords acc xs) ys = pushRecords acc (xs ++ ys).
Proof. unfold pushRecords. by rewrite scan_app. Qed.

Lemma dedup_facts (data : list ApiTime) :
  NoDup (timeId <$> (pushRecords ([], ∅) data).1)
  ∧ ∀ x, x ∈ data → occurrences (api_id x) (pushRecords ([], ∅) data).1 = 1%nat.
Proof.
  rewrite pushRecords_fresh. cbn [fst].
  assert (NoDup (timeId <$> (toRecord <$> firstOccurrences api_id data))) as Hnd.
  { rewrite timeId_toRecord. apply firstOccurrences_NoDup. }
  split; [done|]. intros x Hx. apply occurrences_once; [done|].
  rewrite timeId_toRecord. apply firstOccurrences_keys.
  by apply list_elem_of_fmap_2.
Qed.

(** C4. The deduplicator keeps the first occurrence of every [timeId], in
    the order of arrival, and drops later ones: the batch built from [data]
    is the list of first occurrences, no identifier is in it twice, every
    record that was fed is in it exactly once (by identifier), every record
    of the batch is the first one fed with its identifier, feeding pages one
    after the other is feeding their concatenation, and feeding the same
    records again changes nothing. *)
Theorem dedup_keeps_first_occurrences (data : list ApiTime) :
  let out := (pushRecords ([], ∅) data).1 in
  out = toRecord <$> firstOccurrences api_id data
  ∧ NoDup (timeId <$> out)
  ∧ (∀ x, x ∈ data → occurrences (api_id x) out = 1%nat)
  ∧ (∀ w, w ∈ out → ∃ i x, firstWithKey api_id data i x ∧ w = toRecord x)
  ∧ (∀ acc more,
       pushRecords (pushRecords acc data) more = pushRecords acc (data ++ more))
  ∧ (∀ acc, pushRecords (pushRecords acc data) data = pushRecords acc data).
Proof.
  intros out. subst out. rewrite pushRecords_fresh. cbn [fst].
  assert (NoDup (timeId <$> (toRecord <$> firstOccurrences api_id data))) as Hnd.
  { rewrite timeId_toRecord. apply firstOccurrences_NoDup. }
  split; [done|]. split; [done|]. split; [|split; [|split]].
  - intros x Hx. apply occurrences_once; [done|].
    rewrite timeId_toRecord. apply firstOccurrences_keys.
    by apply list_elem_of_fmap_2.
  - intros w Hw. apply list_elem_of_fmap in Hw as (x & -> & Hx).
    destruct (firstOccurrences_first api_id data x Hx) as [i Hi]. eauto.
  - intros acc more. apply pushRecords_app.
  - intros [wrs0 ids]. unfold pushRecords. rewrite !scan_spec. cbn [fst snd].
    f_equal; [|set_solver].
    rewrite <- (app_nil_r (wrs0 ++ _)) at 2. f_equal.
    pose proof (firstOccurrences_subset api_id data) as Hsub.
    revert Hsub. generalize (firstOccurrences api_id data) as l.
    induction l as [|y l IH]; intros Hsub; [done|].
    rewrite filter_cons_False.
    + apply IH. intros x Hx. apply Hsub. by right.
    + intros Hy. apply Hy. apply elem_of_union_r, elem_of_list_to_set.
      apply list_elem_of_fmap_2, Hsub. by left.
Qed.

(** C10. [insertUsers] sends one statement, the upsert of [userRows]; in
    [userRows] no [userId] is there twice, the rows are those of the first
    record of every user in the order of the batch, and so the username
    written for a user is the one of the first record of the batch with
    that [userId]. *)
Theorem insertUsers_first_username (wrs : list WR) (db : DB) :
  (insertUsers wrs db).2
    = EvQuery (UpsertUsers (userRows wrs)) db ::
      match runStmt db (UpsertUsers (userRows wrs)) with
      | inr (r, _) => [EvLog (LogInsertedUsers (affectedRows r))]
      | inl _ => []
      end
  ∧ userRows wrs
    = (λ wr, (userId wr, username wr)) <$> firstOccurrences userId wrs
  ∧ NoDup (userRows wrs).*1
  ∧ (∀ u name, (u, name) ∈ userRows wrs →
       ∃ i wr, firstWithKey userId wrs i wr
               ∧ userId wr = u ∧ username wr = name).
Proof.
  assert (userRows wrs
          = (λ wr, (userId wr, username wr)) <$> firstOccurrences userId wrs)
    as Hrows by (unfold userRows; by rewrite scan_fresh).
  split; [|split; [done|split]].
  - unfold insertUsers, mbind, Db_bind, query, lift, console_log, emit.
    destruct (runStmt db (UpsertUsers (userRows wrs))) as [e|[r db']]; done.
  - rewrite Hrows, <- list_fmap_compose.
    apply (firstOccurrences_NoDup userId wrs).
  - intros u name. rewrite Hrows. intros Hin.
    apply list_elem_of_fmap in Hin as (wr & Heq & Hwr). inversion Heq; subst.
    destruct (firstOccurrences_first userId wrs wr Hwr) as [i Hi]. eauto.
Qed.

(** ** The fetcher and one turn of the pagination loop *)

Section Pagination.
Context (world : World).

Lemma Net_bind_ok {A B} (a : A) (evs : list Event) (f : A → Net B) :
  ((Ok a, evs) ≫= f) = ((f a).1, evs ++ (f a).2).
Proof. reflexivity. Qed.

Lemma tryGetRequest_eq {T} url params key (reply : Reply T) :
  tryGetRequest url params key reply =
  match reply with
  | inr response => (Ok (Some response), [EvGet url params key 3000])
  | inl cause =>
      (Ok None,
       [EvGet url params key 3000; EvLog (LogError (AxiosError cause))])
  end.
Proof. by destruct reply. Qed.

Lemma tryGetStrafes_eq (page : Z) :
  tryGetStrafes world "time/worldrecord" page 100
  = (Ok (answer world page), pageEvents world page).
Proof.
  unfold pageEvents, answer, tryGetStrafes. rewrite tryGetRequest_eq.
  by destruct (strafesApi world "time/worldrecord" page 100).
Qed.

Lemma pageEvents_eq (page : Z) :
  pageEvents world page =
  EvGet "https://api.strafes.net/api/v1/time/worldrecord" (PageParams page 100)
    (STRAFES_KEY world) 3000 ::
  match strafesApi world "time/worldrecord" page 100 with
  | inr _ => []
  | inl cause => [EvLog (LogError (AxiosError cause))]
  end.
Proof.
  unfold pageEvents, tryGetStrafes. rewrite tryGetRequest_eq.
  by destruct (strafesApi world "time/worldrecord" page 100).
Qed.

Lemma requestedPages_app (evs1 evs2 : list Event) :
  requestedPages (evs1 ++ evs2) = requestedPages evs1 ++ requestedPages evs2.
Proof. unfold requestedPages. apply omap_app. Qed.

Lemma requestedPages_page (page : Z) :
  requestedPages (pageEvents world page) = [page].
Proof.
  rewrite pageEvents_eq.
  by destruct (strafesApi world "time/worldrecord" page 100).
Qed.

Lemma pageEvents_no_sleep (page : Z) :
  Forall (λ e, ¬ isSleep e) (pageEvents world page).
Proof.
  rewrite pageEvents_eq.
  destruct (strafesApi world "time/worldrecord" page 100);
    repeat constructor; simpl; tauto.
Qed.

Lemma burst_eq (page : Z) :
  burst world page
  = (Ok (resolvedAt world page), burstPages page ≫= pageEvents world).
Proof.
  unfold burst, resolvedAt, burstPages. simpl.
  unfold mbind at 1, Net_bind. rewrite !tryGetStrafes_eq. simpl.
  repeat (unfold mbind at 1, Net_bind; rewrite ?tryGetStrafes_eq; simpl).
  by rewrite !app_nil_r.
Qed.

Lemma roundEvents_pages (page : Z) :
  requestedPages (roundEvents world page) = burstPages page.
Proof.
  unfold roundEvents, burstPages. simpl.
  by rewrite !requestedPages_app, !requestedPages_page.
Qed.

Lemma roundEvents_no_sleep (page : Z) :
  Forall (λ e, ¬ isSleep e) (roundEvents world page).
Proof.
  unfold roundEvents, burstPages. simpl. constructor; [simpl; tauto|].
  rewrite !Forall_app. repeat split; try apply pageEvents_no_sleep.
  constructor.
Qed.

(** The body of the [while] loop, evaluated. *)
Lemma loadAllWRs_body_eq (v : LoopVars) (page : Z) :
  loadAllWRs_body world v page =
  let v' := foldl handleResponse v (resolvedAt world page) in
  if negb (hasMore v') then (Ok (Break v'), roundEvents world page)
  else if bool_decide (burstRemaining v' < 70) then
    (Ok (Next (resetBurst v') (page + 5)),
     roundEvents world page ++ [EvLog LogSleeping; EvSleep 60000])
  else (Ok (Next v' (page + 5)), roundEvents world page).
Proof.
  unfold loadAllWRs_body, roundEvents, console_log, sleep, emit.
  rewrite Net_bind_ok, burst_eq, Net_bind_ok. cbv zeta.
  set (v' := foldl handleResponse v (resolvedAt world page)).
  unfold resetBurst. destruct (hasMore v'); cbn [negb].
  - destruct (bool_decide (burstRemaining v' < 70)).
    + by rewrite !Net_bind_ok.
    + cbn [fst snd app mret Net_ret]. by rewrite app_nil_r.
  - cbn [fst snd app mret Net_ret]. by rewrite app_nil_r.
Qed.

End Pagination.

(** ** What a round does to the loop variables *)

Lemma pushRecords_nil acc : pushRecords acc [] = acc.
Proof. reflexivity. Qed.

Lemma fetched_cons response resolved :
  fetched (response :: resolved)
  = match response with Some response => data response | None => [] end
    ++ fetched resolved.
Proof. reflexivity. Qed.

Lemma reported_cons response resolved :
  reported (response :: resolved)
  = match response with
    | Some response =>
        match rateLimitBurst response with NumString n => [n] | _ => [] end
    | None => []
    end ++ reported resolved.
Proof.
  unfold reported. simpl. destruct response as [response|]; [|done].
  by destruct (rateLimitBurst response).
Qed.

Lemma fetched_elem resolved (x : ApiTime) :
  x ∈ fetched resolved ↔ ∃ response, Some response ∈ resolved ∧ x ∈ data response.
Proof.
  unfold fetched. rewrite list_elem_of_bind. split.
  - intros ([response|] & Hx & Hin); [eauto|by inversion Hx].
  - intros (response & Hin & Hx). exists (Some response). eauto.
Qed.

Lemma exhausted_cons response resolved :
  exhausted (response :: resolved)
  ↔ (∃ r, response = Some r ∧ data r = []) ∨ exhausted resolved.
Proof.
  unfold exhausted. split.
  - intros (r & Hin & Hr). apply elem_of_cons in Hin as [Heq|Hin]; [left|right];
      eauto.
  - intros [(r & -> & Hr)|(r & Hin & Hr)]; exists r; split; try done;
      [left|by right].
Qed.

Lemma exhausted_or_not resolved : exhausted resolved ∨ ¬ exhausted resolved.
Proof.
  induction resolved as [|response resolved IH].
  - right. intros (r & Hin & _). inversion Hin.
  - rewrite exhausted_cons. destruct IH as [IH|IH]; [tauto|].
    destruct response as [r|].
    + destruct (data r) as [|x xs] eqn:Hdata; [left; left; eauto|].
      right. intros [(r' & Heq & Hr')|?]; [|done]. inversion Heq; subst.
      congruence.
    + right. intros [(r' & Heq & _)|?]; done.
Qed.

Lemma handleResponse_vars (v : LoopVars) response :
  let v' := handleResponse v response in
  (wrs v', timeIds v')
    = pushRecords (wrs v, timeIds v)
        match response with Some response => data response | None => [] end
  ∧ burstRemaining v'
    = match response with
      | Some response => trackBurst (burstRemaining v) (rateLimitBurst response)
      | None => burstRemaining v
      end
  ∧ (hasMore v' = true
     ↔ hasMore v = true ∧ ¬ ∃ r, response = Some r ∧ data r = []).
Proof.
  destruct response as [response|]; unfold handleResponse.
  - case_bool_decide as Hlen; cbn [wrs timeIds burstRemaining hasMore].
    + assert (data response = []) as Hdata
        by (destruct (data response); [done|simpl in Hlen; lia]).
      rewrite Hdata. repeat split; try done. intros [_ Hne]. destruct Hne. eauto.
    + split; [by destruct (pushRecords _ _)|]. split; [done|].
      split; [|tauto]. intros Hm. split; [done|].
      intros (r & Heq & Hr). inversion Heq; subst. rewrite Hr in Hlen.
      simpl in Hlen. lia.
  - repeat split; try tauto. intros (r & Heq & _). done.
Qed.

Lemma trackBurst_min (b : Z) (h : HeaderValue) :
  trackBurst b h = match h with NumString n => Z.min b n | _ => b end.
Proof.
  destruct h; try done. unfold trackBurst. case_bool_decide; lia.
Qed.

Lemma foldl_handleResponse resolved : ∀ v,
  let v' := foldl handleResponse v resolved in
  (wrs v', timeIds v') = pushRecords (wrs v, timeIds v) (fetched resolved)
  ∧ burstRemaining v' = foldl Z.min (burstRemaining v) (reported resolved)
  ∧ (hasMore v' = true ↔ hasMore v = true ∧ ¬ exhausted resolved).
Proof.
  induction resolved as [|response resolved IH]; intros v; cbv zeta.
  - repeat split; try tauto. intros (r & Hin & _). inversion Hin.
  - destruct (IH (handleResponse v response)) as (Hacc & Hburst & Hmore).
    destruct (handleResponse_vars v response) as (Hacc1 & Hburst1 & Hmore1).
    cbn [foldl]. split; [|split].
    + rewrite Hacc, Hacc1, fetched_cons. apply pushRecords_app.
    + rewrite Hburst, Hburst1. destruct response as [response|]; [|done].
      rewrite trackBurst_min, reported_cons.
      by destruct (rateLimitBurst response).
    + rewrite Hmore, Hmore1, exhausted_cons. tauto.
Qed.

Lemma foldl_min_out (l : list Z) : ∀ b x,
  foldl Z.min (Z.min b x) l = Z.min b (foldl Z.min x l).
Proof.
  induction l as [|y l IH]; intros b x; simpl; [done|].
  by rewrite <- IH, Z.min_assoc.
Qed.

Lemma foldl_min_minimum (b : Z) (l : list Z) :
  foldl Z.min b l = match minimum l with Some m => Z.min b m | None => b end.
Proof. destruct l as [|x l]; simpl; [done|]. apply foldl_min_out. Qed.

(** When the tracker starts a round at 70 or more, it ends the round below
    70 exactly when the round's reported minimum is below 70. *)
Lemma tracker_below_iff (b : Z) resolved :
  70 ≤ b →
  (foldl Z.min b (reported resolved) < 70 ↔ minimumBelow70 resolved).
Proof.
  intros Hb. rewrite foldl_min_minimum. unfold minimumBelow70.
  destruct (minimum (reported resolved)) as [m|].
  - split.
    + intros Hlt. exists m. split; [done|lia].
    + intros (m' & Heq & Hlt). inversion Heq; subst. lia.
  - split; [lia|]. by intros (m' & Heq & _).
Qed.

Lemma pushRecords_seen acc (xs : list ApiTime) :
  acc.2 = list_to_set (timeId <$> acc.1) → NoDup (timeId <$> acc.1) →
  (pushRecords acc xs).2 = list_to_set (timeId <$> (pushRecords acc xs).1)
  ∧ NoDup (timeId <$> (pushRecords acc xs).1).
Proof.
  revert acc. induction xs as [|x xs IH]; intros acc Hset Hnd; [done|].
  unfold pushRecords. rewrite scan_cons. apply IH; unfold pushUnseen.
  - destruct (decide (api_id x ∈ acc.2)); [done|]. simpl.
    rewrite fmap_app, list_to_set_app_L, <- Hset. simpl. set_solver.
  - destruct (decide (api_id x ∈ acc.2)) as [|Hout]; [done|]. simpl.
    rewrite fmap_app. apply NoDup_app. split; [done|]. split.
    + intros i Hi Hi'. apply list_elem_of_singleton in Hi'. subst.
      apply Hout. rewrite Hset. by apply elem_of_list_to_set.
    + apply NoDup_singleton.
Qed.

Lemma pushRecords_covers acc (xs : list ApiTime) x :
  x ∈ xs → api_id x ∈ (pushRecords acc xs).2.
Proof.
  intros Hx. unfold pushRecords. rewrite scan_spec. simpl.
  apply elem_of_union_r, elem_of_list_to_set. by apply list_elem_of_fmap_2.
Qed.

(** ** The pagination loop *)

Section Loop.
Context (world : World).

(** One turn of the loop that starts with [hasMore] set. *)
Lemma loadAllWRs_loop_step (fuel : nat) (v : LoopVars) (page : Z) :
  hasMore v = true →
  loadAllWRs_loop world (S fuel) v page =
  match loadAllWRs_body world v page with
  | (Ok (Break v'), evs) => (Ok (wrs v'), evs)
  | (Ok (Next v' page'), evs) =>
      ((loadAllWRs_loop world fuel v' page').1,
       evs ++ (loadAllWRs_loop world fuel v' page').2)
  | (Throw e, evs) => (Throw e, evs)
  | (OutOfFuel, evs) => (OutOfFuel, evs)
  end.
Proof.
  intros Hmore. cbn [loadAllWRs_loop]. rewrite Hmore.
  destruct (loadAllWRs_body world v page) as [[[v'|v' page']| |] evs];
    try reflexivity.
  rewrite Net_bind_ok. cbn [mret Net_ret fst snd]. by rewrite app_nil_r.
Qed.

(** What holds whenever the loop starts a turn: [hasMore] is set, the
    tracker is at 70 or more, [timeIds] is the set of the identifiers of
    [wrs], and no identifier is in [wrs] twice. *)
Lemma Reachable_inv (v : LoopVars) (page : Z) :
  Reachable world v page →
  hasMore v = true ∧ 70 ≤ burstRemaining v
  ∧ timeIds v = list_to_set (timeId <$> wrs v)
  ∧ NoDup (timeId <$> wrs v).
Proof.
  induction 1 as [|v page v' page' evs Hreach (Hmore & Hburst & Hset & Hnd) Hbody].
  - simpl. repeat split; try done; try lia. constructor.
  - rewrite loadAllWRs_body_eq in Hbody. cbv zeta in Hbody.
    set (w := foldl handleResponse v (resolvedAt world page)) in *.
    destruct (foldl_handleResponse (resolvedAt world page) v)
      as (Hacc & _ & _). fold w in Hacc.
    destruct (pushRecords_seen (wrs v, timeIds v)
                (fetched (resolvedAt world page)) Hset Hnd) as [Hset' Hnd'].
    rewrite <- Hacc in Hset', Hnd'. cbn [fst snd] in Hset', Hnd'.
    destruct (hasMore w) eqn:Hw; cbn [negb] in Hbody; [|by inversion Hbody].
    case_bool_decide as Hlow; inversion Hbody; subst; clear Hbody.
    + unfold resetBurst. cbn. repeat split; try done; lia.
    + repeat split; try done; lia.
Qed.

Lemma burstPages_seqZ (page : Z) : burstPages page = seqZ page 5.
Proof.
  unfold burstPages, seqZ. change (Z.to_nat 5) with 5%nat. cbn [seq fmap list_fmap].
  repeat (apply (f_equal2 cons); [lia|]). done.
Qed.

Lemma elem_of_burstPages (p page : Z) :
  p ∈ burstPages page ↔ page ≤ p < page + 5.
Proof. rewrite burstPages_seqZ, elem_of_seqZ. lia. Qed.

Lemma resolvedAt_elem (p page : Z) :
  page ≤ p < page + 5 → answer world p ∈ resolvedAt world page.
Proof.
  intros Hp. unfold resolvedAt. apply list_elem_of_fmap_2.
  by apply elem_of_burstPages.
Qed.

Lemma resolvedAt_inv (page : Z) response :
  response ∈ resolvedAt world page →
  ∃ p, page ≤ p < page + 5 ∧ response = answer world p.
Proof.
  unfold resolvedAt. intros (p & -> & Hp)%list_elem_of_fmap.
  exists p. split; [by apply elem_of_burstPages|done].
Qed.

(** The pages a run asks for, from any turn on: a block of fives. *)
Lemma loop_pages (fuel : nat) : ∀ v page,
  ∃ n : nat, (n ≤ fuel)%nat
    ∧ requestedPages (loadAllWRs_loop world fuel v page).2
      = seqZ page (5 * Z.of_nat n).
Proof.
  induction fuel as [|fuel IH]; intros v page.
  - exists 0%nat. by split.
  - destruct (hasMore v) eqn:Hmore.
    2:{ exists 0%nat. split; [lia|]. cbn [loadAllWRs_loop]. by rewrite Hmore. }
    rewrite loadAllWRs_loop_step, loadAllWRs_body_eq by done. cbv zeta.
    set (w := foldl handleResponse v (resolvedAt world page)).
    destruct (hasMore w); cbn [negb].
    + destruct (IH (if bool_decide (burstRemaining w < 70)
                    then resetBurst w else w) (page + 5)) as (n & Hn & Hpages).
      exists (S n). split; [lia|].
      replace (5 * Z.of_nat (S n)) with (5 + 5 * Z.of_nat n) by lia.
      rewrite seqZ_app by lia. rewrite <- burstPages_seqZ.
      case_bool_decide; cbn [fst snd];
        rewrite !requestedPages_app, roundEvents_pages, Hpages;
        by rewrite ?app_nil_r.
    + exists 1%nat. split; [lia|]. cbn [snd].
      by rewrite roundEvents_pages, burstPages_seqZ.
Qed.

(** C8. Whatever the replies are, failures included, a turn asks for the
    five pages from its cursor on and, when the loop goes on, goes on five
    pages further; so a run asks for the pages 1 to 5n in this order for
    some number n of turns, and for no page twice. *)
Theorem pages_requested_at_most_once (fuel : nat) :
  (∀ v page,
     requestedPages (loadAllWRs_body world v page).2 = burstPages page
     ∧ ∀ v' page' evs,
         loadAllWRs_body world v page = (Ok (Next v' page'), evs) →
         page' = page + 5)
  ∧ (∃ n : nat, (n ≤ fuel)%nat
       ∧ requestedPages (loadAllWRs world fuel).2 = seqZ 1 (5 * Z.of_nat n))
  ∧ NoDup (requestedPages (loadAllWRs world fuel).2).
Proof.
  split; [|split].
  - intros v page. rewrite loadAllWRs_body_eq. cbv zeta.
    set (w := foldl handleResponse v (resolvedAt world page)).
    destruct (hasMore w); cbn [negb]; [case_bool_decide|]; cbn [snd].
    + rewrite requestedPages_app, roundEvents_pages, app_nil_r.
      split; [done|]. intros v' page' evs Heq. by inversion Heq.
    + rewrite roundEvents_pages. split; [done|].
      intros v' page' evs Heq. by inversion Heq.
    + rewrite roundEvents_pages. split; [done|].
      intros v' page' evs Heq. by inversion Heq.
  - apply loop_pages.
  - destruct (loop_pages fuel initialVars 1) as (n & _ & Hpages).
    unfold loadAllWRs. rewrite Hpages. apply NoDup_seqZ.
Qed.

(** C5. For a turn the loop starts: when the loop goes on after it, then,
    if the minimum capacity reported by the responses of the turn is below
    70, the turn ends by sleeping 60 seconds, the tracker is 999 again, and
    the next turn comes after that; if it is not, the turn ends with its
    last response, nothing sleeps, and the next turn follows at once.  A
    turn that meets an empty page ends the loop and does not sleep. *)
Theorem backoff_below_70 (fuel : nat) (v : LoopVars) (page : Z) :
  Reachable world v page →
  let resolved := resolvedAt world page in
  Forall (λ e, ¬ isSleep e) (roundEvents world page)
  ∧ match loadAllWRs_body world v page with
    | (Ok (Next v' page'), evs) =>
        loadAllWRs_loop world (S fuel) v page
          = ((loadAllWRs_loop world fuel v' page').1,
             evs ++ (loadAllWRs_loop world fuel v' page').2)
        ∧ page' = page + 5
        ∧ (minimumBelow70 resolved →
             evs = roundEvents world page
                     ++ [EvLog LogSleeping; EvSleep 60000]
             ∧ burstRemaining v' = 999)
        ∧ (¬ minimumBelow70 resolved →
             evs = roundEvents world page ∧ 70 ≤ burstRemaining v')
    | (Ok (Break v'), evs) =>
        exhausted resolved
        ∧ loadAllWRs_loop world (S fuel) v page = (Ok (wrs v'), evs)
        ∧ evs = roundEvents world page
    | _ => False
    end.
Proof.
  intros Hreach resolved. split; [apply roundEvents_no_sleep|].
  destruct (Reachable_inv v page Hreach) as (Hmore & Hburst & _ & _).
  rewrite loadAllWRs_loop_step by done.
  rewrite loadAllWRs_body_eq. cbv zeta. fold resolved.
  destruct (foldl_handleResponse resolved v) as (_ & Htrack & Hexh).
  set (w := foldl handleResponse v resolved) in *.
  pose proof (tracker_below_iff (burstRemaining v) resolved Hburst) as Hiff.
  rewrite <- Htrack in Hiff.
  destruct (hasMore w) eqn:Hw; cbn [negb].
  - case_bool_decide as Hlow.
    + repeat split; try done. tauto.
    + repeat split; try done; try tauto. lia.
  - repeat split; try done.
    destruct (exhausted_or_not resolved) as [|Hne]; [done|].
    assert (false = true) by (apply Hexh; by split). done.
Qed.

End Loop.

(** ** Exhaustion and termination *)

Section Exhaustion.
Context (world : World).

Lemma seen_has_record (acc : list WR * gset Z) (i : Z) :
  acc.2 = list_to_set (timeId <$> acc.1) → i ∈ acc.2 →
  ∃ w, w ∈ acc.1 ∧ timeId w = i.
Proof.
  intros -> Hi. apply elem_of_list_to_set, list_elem_of_fmap in Hi.
  destruct Hi as (w & -> & Hw). eauto.
Qed.

(** The turn that meets an empty page ends the loop with what all five
    responses carried. *)
Lemma exhausted_turn (fuel : nat) (v : LoopVars) (page : Z) :
  hasMore v = true → exhausted (resolvedAt world page) →
  loadAllWRs_loop world (S fuel) v page
  = (Ok (pushRecords (wrs v, timeIds v) (fetched (resolvedAt world page))).1,
     roundEvents world page).
Proof.
  intros Hmore Hexh. rewrite loadAllWRs_loop_step, loadAllWRs_body_eq by done.
  cbv zeta.
  destruct (foldl_handleResponse (resolvedAt world page) v) as (Hacc & _ & Hm).
  set (w := foldl handleResponse v (resolvedAt world page)) in *.
  destruct (hasMore w); [destruct Hm as [Hm _]; by destruct Hm|].
  cbn [negb]. by rewrite <- Hacc.
Qed.

(** The turn that meets no empty page hands over to the next one. *)
Lemma continuing_turn (fuel : nat) (v : LoopVars) (page : Z) :
  hasMore v = true → ¬ exhausted (resolvedAt world page) →
  let w := foldl handleResponse v (resolvedAt world page) in
  let low := bool_decide (burstRemaining w < 70) in
  let v' := if low then resetBurst w else w in
  let evs := roundEvents world page
             ++ (if low then [EvLog LogSleeping; EvSleep 60000] else []) in
  loadAllWRs_loop world (S fuel) v page
    = ((loadAllWRs_loop world fuel v' (page + 5)).1,
       evs ++ (loadAllWRs_loop world fuel v' (page + 5)).2)
  ∧ hasMore v' = true
  ∧ (wrs v', timeIds v')
    = pushRecords (wrs v, timeIds v) (fetched (resolvedAt world page)).
Proof.
  intros Hmore Hexh. cbv zeta.
  rewrite loadAllWRs_loop_step, loadAllWRs_body_eq by done. cbv zeta.
  destruct (foldl_handleResponse (resolvedAt world page) v) as (Hacc & _ & Hm).
  set (w := foldl handleResponse v (resolvedAt world page)) in *.
  assert (hasMore w = true) as Hw by (by apply Hm).
  rewrite Hw. cbn [negb]. case_bool_decide.
  - by repeat split.
  - rewrite app_nil_r. by repeat split.
Qed.

(** C9. When a page of a burst comes back empty, the loop ends with that
    turn, so no further burst is sent, and the batch it returns holds a
    record for every record of every response of that burst, those read
    after the empty page included. *)
Theorem empty_page_keeps_rest_of_burst (fuel : nat) (v : LoopVars) (page : Z) :
  Reachable world v page →
  exhausted (resolvedAt world page) →
  ∃ batch evs,
    loadAllWRs_loop world (S fuel) v page = (Ok batch, evs)
    ∧ requestedPages evs = burstPages page
    ∧ ∀ (i j : nat) empty response x,
        resolvedAt world page !! i = Some (Some empty) → data empty = [] →
        (i < j)%nat →
        resolvedAt world page !! j = Some (Some response) →
        x ∈ data response →
        ∃ w, w ∈ batch ∧ timeId w = api_id x.
Proof.
  intros Hreach Hexh.
  destruct (Reachable_inv world v page Hreach) as (Hmore & _ & Hset & Hnd).
  eexists _, _. split; [by apply exhausted_turn|].
  split; [apply roundEvents_pages|].
  intros i j empty response x _ _ _ Hj Hx.
  set (xs := fetched (resolvedAt world page)).
  destruct (pushRecords_seen (wrs v, timeIds v) xs Hset Hnd) as [Hset' _].
  apply seen_has_record; [done|]. apply pushRecords_covers.
  apply fetched_elem. exists response. split; [|done].
  by apply list_elem_of_lookup_2 with j.
Qed.

(** From a turn on, with a first empty page [K] ahead and every page
    before it answered and not empty, the loop returns once the fuel
    covers the turns up to the one that holds [K]. *)
Lemma loop_reaches_empty_page (K : Z) (empty : AxiosResponse (list ApiTime)) :
  answer world K = Some empty → data empty = [] →
  ∀ (n : nat) v page,
    hasMore v = true →
    page ≤ K < page + 5 * Z.of_nat n →
    (∀ p, page ≤ p < K → ∃ r, answer world p = Some r ∧ data r ≠ []) →
    ∃ xs evs,
      (∀ fuel, (n ≤ fuel)%nat →
         loadAllWRs_loop world fuel v page
         = (Ok (pushRecords (wrs v, timeIds v) xs).1, evs))
      ∧ ∀ p r x, page ≤ p < K → answer world p = Some r → x ∈ data r → x ∈ xs.
Proof.
  intros HK Hempty. induction n as [|n IH]; intros v page Hmore Hrange Hfull.
  { lia. }
  destruct (decide (K < page + 5)) as [Hin|Hout].
  - exists (fetched (resolvedAt world page)), (roundEvents world page). split.
    + intros [|fuel] Hfuel; [lia|]. apply exhausted_turn; [done|].
      exists empty. split; [|done]. rewrite <- HK.
      apply resolvedAt_elem. lia.
    + intros p r x Hp Hr Hx. apply fetched_elem. exists r. split; [|done].
      rewrite <- Hr. apply resolvedAt_elem. lia.
  - assert (¬ exhausted (resolvedAt world page)) as Hexh.
    { intros (r & Hr & Hdata). apply resolvedAt_inv in Hr as (p & Hp & Hr).
      destruct (Hfull p ltac:(lia)) as (r' & Hr' & Hne).
      rewrite Hr' in Hr. inversion Hr; subst. done. }
    pose proof (λ fuel, continuing_turn fuel v page Hmore Hexh) as Hturn.
    cbv zeta in Hturn.
    set (w := foldl handleResponse v (resolvedAt world page)) in *.
    set (v' := if bool_decide (burstRemaining w < 70) then resetBurst w else w)
      in *.
    set (evs := roundEvents world page ++ _) in *.
    destruct (Hturn 0%nat) as (_ & Hm' & Hacc).
    destruct (IH v' (page + 5) Hm' ltac:(lia)) as (xs & evs' & Hrun & Hxs).
    { intros p Hp. apply Hfull. lia. }
    exists (fetched (resolvedAt world page) ++ xs), (evs ++ evs'). split.
    + intros [|fuel] Hfuel; [lia|]. destruct (Hturn fuel) as (-> & _ & _).
      rewrite Hrun by lia. cbn [fst snd].
      by rewrite Hacc, pushRecords_app.
    + intros p r x Hp Hr Hx. apply elem_of_app.
      destruct (decide (p < page + 5)).
      * left. apply fetched_elem. exists r. split; [|done].
        rewrite <- Hr. apply resolvedAt_elem. lia.
      * right. apply (Hxs p r x); [lia|done|done].
Qed.

(** C1. When the source answers page [K] with no record and every page
    before it with some, the loop returns (with the fuel for the turns up
    to the one that holds [K], and with any more), no identifier is twice
    in the batch it returns, and the batch holds every record of the pages
    1 to [K] - 1 exactly once. *)
Theorem loadAllWRs_terminates (K : Z) (empty : AxiosResponse (list ApiTime)) :
  1 ≤ K →
  answer world K = Some empty → data empty = [] →
  (∀ p, 1 ≤ p < K → ∃ r, answer world p = Some r ∧ data r ≠ []) →
  ∃ (turns : nat) batch evs,
    (∀ fuel, (turns ≤ fuel)%nat → loadAllWRs world fuel = (Ok batch, evs))
    ∧ NoDup (timeId <$> batch)
    ∧ ∀ p r x, 1 ≤ p < K → answer world p = Some r → x ∈ data r →
        occurrences (api_id x) batch = 1%nat.
Proof.
  intros HK Hans Hempty Hfull.
  destruct (loop_reaches_empty_page K empty Hans Hempty (Z.to_nat K)
              initialVars 1 eq_refl ltac:(lia) Hfull) as (xs & evs & Hrun & Hxs).
  exists (Z.to_nat K), (pushRecords ([], ∅) xs).1, evs.
  split; [exact Hrun|].
  destruct (dedup_facts xs) as (Hnd & Hocc).
  split; [done|]. intros p r x Hp Hr Hx. apply Hocc. by apply (Hxs p r x).
Qed.

End Exhaustion.

(** ** Failures of a request *)

Section FetchFailure.
Context (world : World).

Lemma Db_bind_eq {A B} (m : Db A) (f : A → Db B) (db : DB) :
  (m ≫= f) db =
  match m db with
  | (Ok a, db1, ev1) =>
      match f a db1 with (r, db2, ev2) => (r, db2, ev1 ++ ev2) end
  | (Throw e, db1, ev1) => (Throw e, db1, ev1)
  | (OutOfFuel, db1, ev1) => (OutOfFuel, db1, ev1)
  end.
Proof. reflexivity. Qed.

Lemma loadAllWRs_body_ok (v : LoopVars) (page : Z) :
  ∃ turn evs, loadAllWRs_body world v page = (Ok turn, evs).
Proof.
  rewrite loadAllWRs_body_eq. cbv zeta.
  destruct (negb _); [eauto|]. destruct (bool_decide _); eauto.
Qed.

Lemma loadAllWRs_loop_no_throw (fuel : nat) : ∀ v page e,
  (loadAllWRs_loop world fuel v page).1 ≠ Throw e.
Proof.
  induction fuel as [|fuel IH]; intros v page e; [done|].
  destruct (hasMore v) eqn:Hmore.
  - rewrite loadAllWRs_loop_step by done.
    destruct (loadAllWRs_body_ok v page) as (turn & evs & ->).
    destruct turn as [v'|v' page']; [done|]. apply IH.
  - cbn [loadAllWRs_loop]. by rewrite Hmore.
Qed.

Lemma refreshWRs_no_page (fuel : nat) (db : DB) :
  answer world 1 = None →
  refreshWRs world fuel db = (Ok false, db, pageEvents world 1).
Proof.
  intros Hnone. unfold refreshWRs. rewrite Db_bind_eq. unfold lift.
  rewrite tryGetStrafes_eq, Hnone. cbn. by rewrite app_nil_r.
Qed.

(** A run in refresh mode whose request for the page fails: [main] sets
    the exit code 1 and ends the connection. *)
Lemma main_no_page (DB_USER DB_PASSWORD : option string) (args : list string)
    (fuel : nat) (db : DB) :
  configured world DB_USER DB_PASSWORD →
  modeOf args = Refresh →
  answer world 1 = None →
  main world DB_USER DB_PASSWORD args fuel db
  = (Ok 1, db, startup Refresh db ++ pageEvents world 1 ++ [EvEnd]).
Proof.
  intros (Hu & Hp & Hk) Hmode Hnone. unfold main. rewrite Hu, Hp, Hk.
  cbn [orb]. cbv zeta. fold (modeOf args). rewrite Hmode.
  rewrite Db_bind_eq. unfold lift at 1. cbn [console_log emit fst snd].
  rewrite Db_bind_eq. unfold query at 1. cbn [runStmt].
  rewrite Db_bind_eq. unfold query at 1. cbn [runStmt].
  rewrite Db_bind_eq. unfold query at 1. cbn [runStmt].
  rewrite Db_bind_eq, refreshWRs_no_page by done. reflexivity.
Qed.

(** C6, as amended.  A request that fails does not throw: [tryGetRequest]
    logs the cause and returns nothing.  In the pagination loop a missing
    response leaves the loop variables as they are and the loop never
    throws.  In refresh mode the failure of the request for the page makes
    [refreshWRs] return [false] before any statement is sent, and the run
    ends with the exit code 1: [main], with its settings there, sends
    nothing but its three [CREATE TABLE] statements, ends the connection
    and sets 1. *)
Theorem fetch_failure_is_soft (fuel : nat) (db : DB) :
  (∀ T url params key (reply : Reply T),
     match reply with
     | inl cause =>
         tryGetRequest url params key reply
         = (Ok None,
            [EvGet url params key 3000; EvLog (LogError (AxiosError cause))])
     | inr response =>
         tryGetRequest url params key reply
         = (Ok (Some response), [EvGet url params key 3000])
     end)
  ∧ (∀ v, handleResponse v None = v)
  ∧ (∀ e, (loadAllWRs world fuel).1 ≠ Throw e)
  ∧ (answer world 1 = None →
       refreshWRs world fuel db = (Ok false, db, pageEvents world 1)
       ∧ ∀ q before, EvQuery q before ∉ pageEvents world 1)
  ∧ (answer world 1 = None →
     ∀ DB_USER DB_PASSWORD args,
       configured world DB_USER DB_PASSWORD →
       modeOf args = Refresh →
       main world DB_USER DB_PASSWORD args fuel db
       = (Ok 1, db, startup Refresh db ++ pageEvents world 1 ++ [EvEnd])
       ∧ exitStatus (main world DB_USER DB_PASSWORD args fuel db).1.1
         = Some 1).
Proof.
  split; [|split; [|split; [|split]]].
  - intros T url params key reply. rewrite tryGetRequest_eq. by destruct reply.
  - done.
  - intros e. apply loadAllWRs_loop_no_throw.
  - intros Hnone. split; [by apply refreshWRs_no_page|].
    intros q before. rewrite pageEvents_eq.
    destruct (strafesApi world "time/worldrecord" 1 100); intros Hin;
      repeat (apply elem_of_cons in Hin as [Hin|Hin]; [discriminate|]);
      inversion Hin.
  - intros Hnone DB_USER DB_PASSWORD args Hconf Hmode.
    by rewrite main_no_page.
Qed.

End FetchFailure.

(** C6, as the specification states it, fails in refresh mode: with the
    records endpoint down, the request for the page fails softly, and the
    run ends with exit code 1 without having written anything. *)
Lemma fetch_failure_fails_refresh_run :
  (tryGetStrafes downWorld "time/worldrecord" 1 100).1 = Ok None
  ∧ ∃ evs,
      main downWorld (Some "user") (Some "secret") [] 1 emptyDB
      = (Ok 1, emptyDB, evs).
Proof. split; [reflexivity|]. eexists. vm_compute. reflexivity. Qed.

(** ** Statements against the store *)

Lemma foldl_upsertUser_fst (rows : list (Z * string)) : ∀ u n,
  (foldl upsertUser (u, n) rows).1
  = foldl (λ m row, <[row.1 := row.2]> m) u rows.
Proof.
  induction rows as [|row rows IH]; intros u n; [done|].
  cbn [foldl]. unfold upsertUser at 2. cbn [fst snd]. apply IH.
Qed.

Lemma foldl_insert_lookup (rows : list (Z * string)) : ∀ (u : gmap Z string) k,
  is_Some (foldl (λ m row, <[row.1 := row.2]> m) u rows !! k)
  ↔ is_Some (u !! k) ∨ k ∈ rows.*1.
Proof.
  induction rows as [|row rows IH]; intros u k; cbn [foldl].
  - split; [by left|]. intros [?|Hin]; [done|inversion Hin].
  - rewrite IH, fmap_cons, elem_of_cons, lookup_insert_is_Some. 
    destruct (decide (row.1 = k)); naive_solver.
Qed.

(** Upserting rows with distinct keys a second time changes nothing. *)
Lemma foldl_insert_again (rows : list (Z * string)) : ∀ (u : gmap Z string),
  NoDup rows.*1 →
  (∀ k name, (k, name) ∈ rows → u !! k = Some name) →
  foldl (λ m row, <[row.1 := row.2]> m) u rows = u.
Proof.
  induction rows as [|[k name] rows IH]; intros u Hnd Hu; [done|].
  cbn [foldl fst snd]. rewrite insert_id by (apply Hu; left).
  apply IH; [by inversion Hnd|]. intros k' name' Hin. apply Hu. by right.
Qed.

Lemma foldl_insert_holds (rows : list (Z * string)) : ∀ (u : gmap Z string),
  NoDup rows.*1 →
  ∀ k name, (k, name) ∈ rows →
    foldl (λ m row, <[row.1 := row.2]> m) u rows !! k = Some name.
Proof.
  induction rows as [|[k0 name0] rows IH]; intros u Hnd k name Hin.
  { inversion Hin. }
  cbn [foldl fst snd]. apply NoDup_cons in Hnd as [Hk0 Hnd].
  apply elem_of_cons in Hin as [Heq|Hin].
  - inversion Heq; subst. clear IH Hnd.
    revert u. induction rows as [|[k1 name1] rows IH]; intros u.
    + apply lookup_insert_eq.
    + cbn [foldl fst snd]. apply not_elem_of_cons in Hk0.
      destruct Hk0 as [Hne Hk0]. cbn [fst] in Hne.
      rewrite insert_insert_ne by done. by apply IH.
  - by apply IH.
Qed.

(** The answer to [SELECT map_id FROM maps WHERE map_id IN (mapIds)] has as
    many rows as [mapIds] has entries exactly when every one of them is the
    key of a map. *)
Lemma select_count (m : gmap Z StrafesMap) (mapIds : list Z) :
  NoDup mapIds →
  (length (map_to_list (filter (λ kv, kv.1 ∈ mapIds) m)).*1 = length mapIds
   ↔ ∀ i, i ∈ mapIds → is_Some (m !! i)).
Proof.
  intros Hnd. set (fm := filter (λ kv : Z * StrafesMap, kv.1 ∈ mapIds) m).
  rewrite length_fmap, length_map_to_list.
  rewrite <- (size_dom (D := gset Z) fm).
  rewrite <- (size_list_to_set (C := gset Z) mapIds) by done.
  assert (dom fm ⊆ (list_to_set mapIds : gset Z)) as Hsub.
  { intros i [x Hx]%elem_of_dom. apply map_lookup_filter_Some in Hx as [_ Hi].
    by apply elem_of_list_to_set. }
  split.
  - intros Hsize i Hi.
    assert (dom fm = list_to_set mapIds) as Heq
      by (apply set_subseteq_size_eq; [done|lia]).
    assert (i ∈ dom fm) as [x Hx]%elem_of_dom
      by (rewrite Heq; by apply elem_of_list_to_set).
    apply map_lookup_filter_Some in Hx as [Hx _]. eauto.
  - intros Hall. f_equal. apply set_eq. intros i. split; [apply Hsub|].
    intros Hi%elem_of_list_to_set. destruct (Hall i Hi) as [x Hx].
    apply elem_of_dom. exists x. by apply map_lookup_filter_Some.
Qed.

Lemma foldl_insertMapRow_error (rows : list StrafesMap) e :
  foldl insertMapRow (inl e) rows = inl e.
Proof. by induction rows. Qed.

Lemma foldl_insertMapRow_keys (rows : list StrafesMap) : ∀ m0 m,
  foldl insertMapRow (inr m0) rows = inr m →
  ∀ k, is_Some (m !! k) ↔ is_Some (m0 !! k) ∨ k ∈ sm_id <$> rows.
Proof.
  induction rows as [|row rows IH]; intros m0 m Hfold k; cbn [foldl] in Hfold.
  - inversion Hfold; subst. split; [by left|].
    intros [?|Hin]; [done|inversion Hin].
  - unfold insertMapRow at 2 in Hfold.
    destruct (m0 !! sm_id row) eqn:Hrow.
    + by rewrite foldl_insertMapRow_error in Hfold.
    + rewrite (IH _ _ Hfold), fmap_cons, elem_of_cons, lookup_insert_is_Some.
      destruct (decide (sm_id row = k)); naive_solver.
Qed.

(** The keys of the seen-set loops cover their input. *)
Lemma userRows_covers (wrs : list WR) wr :
  wr ∈ wrs → userId wr ∈ (userRows wrs).*1.
Proof.
  intros Hwr. unfold userRows. rewrite scan_fresh. cbn [fst].
  rewrite <- list_fmap_compose.
  apply (firstOccurrences_keys userId wrs), list_elem_of_fmap_2, Hwr.
Qed.

Lemma userRows_NoDup (wrs : list WR) : NoDup (userRows wrs).*1.
Proof.
  unfold userRows. rewrite scan_fresh. cbn [fst].
  rewrite <- list_fmap_compose. apply (firstOccurrences_NoDup userId wrs).
Qed.

Lemma mapIdsOf_elem (wrs : list WR) i :
  i ∈ mapIdsOf wrs ↔ i ∈ mapId <$> wrs.
Proof.
  unfold mapIdsOf. rewrite scan_fresh. cbn [fst].
  apply (firstOccurrences_keys mapId wrs).
Qed.

Lemma mapIdsOf_NoDup (wrs : list WR) : NoDup (mapIdsOf wrs).
Proof.
  unfold mapIdsOf. rewrite scan_fresh. cbn [fst].
  apply (firstOccurrences_NoDup mapId wrs).
Qed.

(** ** The map catalogue *)

Section Catalogue.
Context (world : World).

Lemma tryGetRequest_no_query {T} url params key (reply : Reply T) :
  Forall (λ e, ¬ isQuery e) (tryGetRequest url params key reply).2.
Proof.
  rewrite tryGetRequest_eq. destruct reply; repeat constructor; simpl; tauto.
Qed.

Lemma tryGetRequest_ok {T} url params key (reply : Reply T) :
  ∃ r, (tryGetRequest url params key reply).1 = Ok r.
Proof. rewrite tryGetRequest_eq. destruct reply; eauto. Qed.

Lemma Net_bind_tryGetRequest {T B} url params key (reply : Reply T)
    (f : option (AxiosResponse T) → Net B) :
  (tryGetRequest url params key reply ≫= f)
  = let r := match reply with inr response => Some response | inl _ => None end
    in ((f r).1, (tryGetRequest url params key reply).2 ++ (f r).2).
Proof. rewrite tryGetRequest_eq. by destruct reply. Qed.

Lemma loadMaps_loop_no_query (fuel : nat) : ∀ i maps,
  Forall (λ e, ¬ isQuery e) (loadMaps_loop world fuel i maps).2.
Proof.
  induction fuel as [|fuel IH]; intros i maps; [constructor|].
  cbn [loadMaps_loop]. unfold tryGetMaps, tryGetThumbnails.
  rewrite Net_bind_tryGetRequest. cbv zeta. cbn [snd].
  apply Forall_app. split; [apply tryGetRequest_no_query|].
  destruct (mapsApi world "map" i 100) as [cause|mapRes]; [constructor|].
  case_bool_decide; [constructor|].
  rewrite Net_bind_tryGetRequest. cbv zeta. cbn [snd].
  apply Forall_app. split; [apply tryGetRequest_no_query|].
  rewrite Net_bind_tryGetRequest. cbv zeta. cbn [snd].
  apply Forall_app. split; [apply tryGetRequest_no_query|].
  case_bool_decide; [constructor|]. apply IH.
Qed.

(** A failed request for a page of maps ends [loadMaps] with the empty
    array. *)
Lemma loadMaps_first_page_fails (fuel : nat) cause :
  mapsApi world "map" 1 100 = inl cause →
  loadMaps world (S fuel)
  = (Ok [],
     [EvGet "https://maps.strafes.net/public-api/v1/map" (PageParams 1 100)
        (STRAFES_KEY world) 3000;
      EvLog (LogError (AxiosError cause))]).
Proof.
  intros Hfail. unfold loadMaps. cbn [loadMaps_loop]. unfold tryGetMaps.
  rewrite Net_bind_tryGetRequest, tryGetRequest_eq, Hfail. reflexivity.
Qed.

Lemma query_eq (q : Stmt) (db : DB) :
  query q db =
  match runStmt db q with
  | inl e => (Throw (QueryError e), db, [EvQuery q db])
  | inr (r, db') => (Ok r, db', [EvQuery q db])
  end.
Proof. reflexivity. Qed.

(** [updateMaps], evaluated: whatever [loadMaps] returns, the table is
    emptied and the rows are sent. *)
Lemma updateMaps_eq (fuel : nat) (db : DB) :
  updateMaps world fuel db =
  match loadMaps world fuel with
  | (Ok cat, evs) =>
      match runStmt (setMaps db ∅) (InsertMaps cat) with
      | inl e =>
          (Throw (QueryError e), setMaps db ∅,
           evs ++ [EvQuery TruncateMaps db;
                   EvQuery (InsertMaps cat) (setMaps db ∅)])
      | inr (r, db') =>
          (Ok true, db',
           evs ++ [EvQuery TruncateMaps db;
                   EvQuery (InsertMaps cat) (setMaps db ∅);
                   EvLog (LogInsertedMaps (affectedRows r))])
      end
  | (Throw e, evs) => (Throw e, db, evs)
  | (OutOfFuel, evs) => (OutOfFuel, db, evs)
  end.
Proof.
  unfold updateMaps. rewrite Db_bind_eq. unfold lift.
  destruct (loadMaps world fuel) as [[cat| |] evs]; cbn [fst snd]; try done.
  unfold notArray. rewrite Db_bind_eq, query_eq.
  change (runStmt db TruncateMaps) with
    (inr (ResultSetHeader 0, setMaps db ∅) : SqlError + QueryResult * DB).
  cbv beta iota. rewrite Db_bind_eq, query_eq.
  destruct (runStmt (setMaps db ∅) (InsertMaps cat)) as [e|[r db']]; [done|].
  reflexivity.
Qed.

Lemma updateMaps_never_false (fuel : nat) (db : DB) :
  (updateMaps world fuel db).1.1 ≠ Ok false.
Proof.
  rewrite updateMaps_eq. destruct (loadMaps world fuel) as [[cat| |] evs];
    try done.
  by destruct (runStmt (setMaps db ∅) (InsertMaps cat)) as [e|[r db']].
Qed.

End Catalogue.

(** ** Refresh mode, statement by statement *)

Section RefreshSteps.
Context (world : World).

Lemma insertUsers_eq (wrs : list WR) (db : DB) :
  insertUsers wrs db =
  match runStmt db (UpsertUsers (userRows wrs)) with
  | inl e =>
      (Throw (QueryError e), db, [EvQuery (UpsertUsers (userRows wrs)) db])
  | inr (r, db') =>
      (Ok tt, db',
       [EvQuery (UpsertUsers (userRows wrs)) db;
        EvLog (LogInsertedUsers (affectedRows r))])
  end.
Proof.
  unfold insertUsers. rewrite Db_bind_eq, query_eq.
  by destruct (runStmt db (UpsertUsers (userRows wrs))) as [e|[r db']].
Qed.

Lemma wrsHaveMapsLoaded_eq (wrs : list WR) (db : DB) :
  wrsHaveMapsLoaded wrs db =
  match runStmt db (SelectMapIds (mapIdsOf wrs)) with
  | inl e =>
      (Throw (QueryError e), db, [EvQuery (SelectMapIds (mapIdsOf wrs)) db])
  | inr (r, db') =>
      (Ok (bool_decide (length (rowsOf r) = length (mapIdsOf wrs))), db',
       [EvQuery (SelectMapIds (mapIdsOf wrs)) db])
  end.
Proof.
  unfold wrsHaveMapsLoaded. cbv zeta. rewrite Db_bind_eq, query_eq.
  by destruct (runStmt db (SelectMapIds (mapIdsOf wrs))) as [e|[r db']].
Qed.

(** The last two statements of [refreshWRs], run against [dbw] after the
    events [evs]. *)
Lemma refresh_write_eq (rows : list GlobalsRow) (dbw : DB) :
  (inserted ← query (UpsertGlobals rows);
   _ ← lift (console_log (LogInsertedWRs (affectedRows inserted)));
   mret true) dbw =
  match runStmt dbw (UpsertGlobals rows) with
  | inl e =>
      (Throw (QueryError e), dbw, [EvQuery (UpsertGlobals rows) dbw])
  | inr (rw, dbw') =>
      (Ok true, dbw',
       [EvQuery (UpsertGlobals rows) dbw;
        EvLog (LogInsertedWRs (affectedRows rw))])
  end.
Proof.
  rewrite Db_bind_eq, query_eq.
  by destruct (runStmt dbw (UpsertGlobals rows)) as [e|[rw dbw']].
Qed.

(** [refreshWRs] once the page has arrived, evaluated up to the results of
    its statements and of [updateMaps]. *)
Lemma refreshWRs_eq (fuel : nat) (db : DB) response :
  answer world 1 = Some response →
  refreshWRs world fuel db =
  let wrs := (pushRecords ([], ∅) (data response)).1 in
  let rows := wrRow <$> wrs in
  let write (dbw : DB) (evs : list Event) : Res bool * DB * list Event :=
    match runStmt dbw (UpsertGlobals rows) with
    | inl e =>
        (Throw (QueryError e), dbw, evs ++ [EvQuery (UpsertGlobals rows) dbw])
    | inr (rw, dbw') =>
        (Ok true, dbw',
         evs ++ [EvQuery (UpsertGlobals rows) dbw;
                 EvLog (LogInsertedWRs (affectedRows rw))])
    end in
  match runStmt db (UpsertUsers (userRows wrs)) with
  | inl e =>
      (Throw (QueryError e), db,
       pageEvents world 1 ++ [EvQuery (UpsertUsers (userRows wrs)) db])
  | inr (r1, db1) =>
      let evU := pageEvents world 1
                 ++ [EvQuery (UpsertUsers (userRows wrs)) db;
                     EvLog (LogInsertedUsers (affectedRows r1))] in
      match runStmt db1 (SelectMapIds (mapIdsOf wrs)) with
      | inl e =>
          (Throw (QueryError e), db1,
           evU ++ [EvQuery (SelectMapIds (mapIdsOf wrs)) db1])
      | inr (r2, db2) =>
          let evS := evU ++ [EvQuery (SelectMapIds (mapIdsOf wrs)) db1] in
          if bool_decide (length (rowsOf r2) = length (mapIdsOf wrs))
          then write db2 evS
          else
            match updateMaps world fuel db2 with
            | (Ok true, db3, ev3) => write db3 (evS ++ ev3)
            | (Ok false, db3, ev3) => (Ok false, db3, evS ++ ev3)
            | (Throw e, db3, ev3) => (Throw e, db3, evS ++ ev3)
            | (OutOfFuel, db3, ev3) => (OutOfFuel, db3, evS ++ ev3)
            end
      end
  end.
Proof.
  intros Hans. unfold refreshWRs. rewrite Db_bind_eq. unfold lift.
  rewrite tryGetStrafes_eq, Hans. cbv zeta. cbn [fst snd].
  set (wrs := (pushRecords ([], ∅) (data response)).1).
  rewrite Db_bind_eq, insertUsers_eq.
  destruct (runStmt db (UpsertUsers (userRows wrs))) as [e|[r1 db1]]; [done|].
  rewrite Db_bind_eq, wrsHaveMapsLoaded_eq.
  destruct (runStmt db1 (SelectMapIds (mapIdsOf wrs))) as [e|[r2 db2]].
  { by rewrite <- app_assoc. }
  rewrite Db_bind_eq.
  destruct (bool_decide (length (rowsOf r2) = length (mapIdsOf wrs))); cbn [negb].
  - change ((mret false : Db bool) db2) with (Ok false, db2, @nil Event).
    cbv beta iota. rewrite refresh_write_eq.
    destruct (runStmt db2 (UpsertGlobals (wrRow <$> wrs))) as [e|[rw dbw']];
      by rewrite app_nil_l, <- !app_assoc.
  - rewrite Db_bind_eq.
    destruct (updateMaps world fuel db2) as [[[[]| |] db3] ev3]; cbn [negb].
    + change ((mret false : Db bool) db3) with (Ok false, db3, @nil Event).
      cbv beta iota. rewrite refresh_write_eq, app_nil_r.
      destruct (runStmt db3 (UpsertGlobals (wrRow <$> wrs))) as [e|[rw dbw']];
        by rewrite <- !app_assoc.
    + change ((mret true : Db bool) db3) with (Ok true, db3, @nil Event).
      cbv beta iota. change ((mret false : Db bool) db3) with (Ok false, db3, @nil Event).
      by rewrite !app_nil_r, <- !app_assoc.
    + by rewrite <- !app_assoc.
    + by rewrite <- !app_assoc.
Qed.

End RefreshSteps.

(** ** Refresh mode: what precedes the write of the records *)

Lemma runStmt_UpsertUsers (db : DB) (rows : list (Z * string)) :
  rows ≠ [] →
  runStmt db (UpsertUsers rows)
  = inr (ResultSetHeader (foldl upsertUser (users db, 0) rows).2,
         setUsers db (foldl (λ m row, <[row.1 := row.2]> m) (users db) rows)).
Proof.
  intros Hne. destruct rows as [|row rows]; [done|].
  cbn [runStmt]. by rewrite foldl_upsertUser_fst.
Qed.

Lemma runStmt_SelectMapIds (db : DB) (mapIds : list Z) :
  mapIds ≠ [] →
  runStmt db (SelectMapIds mapIds)
  = inr (RowData (map_to_list (filter (λ kv, kv.1 ∈ mapIds) (maps db))).*1, db).
Proof. intros Hne. by destruct mapIds. Qed.

Lemma runStmt_InsertMaps_keys (db db' : DB) (cat : list StrafesMap) r :
  runStmt (setMaps db ∅) (InsertMaps cat) = inr (r, db') →
  users db' = users db ∧ globals db' = globals db
  ∧ ∀ k, is_Some (maps db' !! k) ↔ k ∈ sm_id <$> cat.
Proof.
  destruct cat as [|row cat]; [done|]. cbn [runStmt].
  destruct (foldl insertMapRow _ (row :: cat)) as [e|m] eqn:Hfold; [done|].
  intros Heq. inversion Heq; subst. repeat split; try done; cbn.
  - intros Hk. apply (foldl_insertMapRow_keys _ _ _ Hfold) in Hk as [Hk|Hk];
      [|done]. cbn in Hk. rewrite lookup_empty in Hk. by destruct Hk.
  - intros Hk. apply (foldl_insertMapRow_keys _ _ _ Hfold). by right.
Qed.

Lemma nonempty_of_elem {A} (l : list A) x : x ∈ l → l ≠ [].
Proof. intros Hx ->. inversion Hx. Qed.

Lemma userRows_nonempty (wrs : list WR) wr : wr ∈ wrs → userRows wrs ≠ [].
Proof.
  intros Hwr Hnil. pose proof (userRows_covers wrs wr Hwr) as Hin.
  rewrite Hnil in Hin. inversion Hin.
Qed.

Lemma mapIdsOf_nonempty (wrs : list WR) wr : wr ∈ wrs → mapIdsOf wrs ≠ [].
Proof.
  intros Hwr. apply (nonempty_of_elem _ (mapId wr)), mapIdsOf_elem.
  by apply list_elem_of_fmap_2.
Qed.

Lemma Forall_not_elem (P : Event → Prop) (l : list Event) e :
  Forall (λ e, ¬ P e) l → P e → e ∉ l.
Proof. intros Hall HP Hin. by apply (proj1 (Forall_forall _ _) Hall e). Qed.

Section RefreshOrder.
Context (world : World).

Lemma pageEvents_no_query (page : Z) :
  Forall (λ e, ¬ isQuery e) (pageEvents world page).
Proof.
  rewrite pageEvents_eq.
  destruct (strafesApi world "time/worldrecord" page 100);
    repeat constructor; simpl; tauto.
Qed.

Lemma not_query_not_upsert (l : list Event) :
  Forall (λ e, ¬ isQuery e) l → Forall (λ e, ¬ isGlobalsUpsert e) l.
Proof.
  intros Hall. eapply Forall_impl; [exact Hall|].
  intros [] Hq Hu; simpl in *; tauto.
Qed.

End RefreshOrder.

Ltac norm_app := repeat first [rewrite <- app_assoc | progress cbn [app]].

Lemma no_upsert_in (l : list Event) rows before :
  Forall (λ e, ¬ isGlobalsUpsert e) l → EvQuery (UpsertGlobals rows) before ∉ l.
Proof. intros Hall. by apply (Forall_not_elem isGlobalsUpsert). Qed.

Lemma upsert_event_unique (pre post : list Event) (e e' : Event) :
  Forall (λ e, ¬ isGlobalsUpsert e) pre →
  Forall (λ e, ¬ isGlobalsUpsert e) post →
  isGlobalsUpsert e' → e' ∈ pre ++ e :: post → e' = e.
Proof.
  intros Hpre Hpost He' Hin. apply elem_of_app in Hin as [Hin|Hin].
  - by destruct (Forall_not_elem _ _ _ Hpre He').
  - apply elem_of_cons in Hin as [->|Hin]; [done|].
    by destruct (Forall_not_elem _ _ _ Hpost He').
Qed.

Section RefreshWrite.
Context (world : World).

Lemma loadMaps_no_upsert (fuel : nat) :
  Forall (λ e, ¬ isGlobalsUpsert e) (loadMaps world fuel).2.
Proof. apply not_query_not_upsert, loadMaps_loop_no_query. Qed.

(** C2, as amended.  Whenever [refreshWRs] sends the write of the records,
    the rows are those of the batch, the upsert of the users of the batch
    was sent before and every user of the batch is in [users] when the
    write runs; and either every map of the batch is in [maps] then, or
    some map of the batch was missing, the catalogue was fetched, [maps]
    was emptied and filled with it before the write, and [maps] holds the
    maps of the catalogue and no others when the write runs. *)
Theorem refresh_write_after_users_and_maps (fuel : nat) (db : DB) r db' evs
    rows before :
  refreshWRs world fuel db = (r, db', evs) →
  EvQuery (UpsertGlobals rows) before ∈ evs →
  ∃ response,
    answer world 1 = Some response
    ∧ let wrs := (pushRecords ([], ∅) (data response)).1 in
      rows = wrRow <$> wrs
      ∧ (∃ evs1 evs2 evs3,
           evs = evs1 ++ EvQuery (UpsertUsers (userRows wrs)) db
                   :: evs2 ++ EvQuery (UpsertGlobals rows) before :: evs3
           ∧ Forall (λ e, ¬ isGlobalsUpsert e) (evs1 ++ evs2))
      ∧ (∀ wr, wr ∈ wrs → is_Some (users before !! userId wr))
      ∧ ((∀ wr, wr ∈ wrs → is_Some (maps before !! mapId wr))
         ∨ (∃ cat dbT evsA evsB evsC,
              (loadMaps world fuel).1 = Ok cat
              ∧ (∃ wr, wr ∈ wrs ∧ maps dbT !! mapId wr = None)
              ∧ evs = evsA ++ EvQuery TruncateMaps dbT
                        :: EvQuery (InsertMaps cat) (setMaps dbT ∅)
                        :: evsB ++ EvQuery (UpsertGlobals rows) before :: evsC
              ∧ ∀ k, is_Some (maps before !! k) ↔ k ∈ sm_id <$> cat)).
Proof.
  intros Hrun Hin. destruct (answer world 1) as [response|] eqn:Hans.
  2:{ rewrite refreshWRs_no_page in Hrun by done. injection Hrun as <- <- <-.
      by destruct (no_upsert_in _ rows before
                     (not_query_not_upsert _ (pageEvents_no_query world 1))). }
  exists response. split; [done|]. cbv zeta.
  rewrite (refreshWRs_eq world fuel db response Hans) in Hrun. cbv zeta in Hrun.
  set (wrs := (pushRecords ([], ∅) (data response)).1) in *.
  pose proof (not_query_not_upsert _ (pageEvents_no_query world 1)) as Hpage.
  destruct (runStmt db (UpsertUsers (userRows wrs))) as [e|[r1 db1]] eqn:HU.
  { injection Hrun as <- <- <-.
    assert (Forall (λ e, ¬ isGlobalsUpsert e)
              (pageEvents world 1 ++ [EvQuery (UpsertUsers (userRows wrs)) db]))
      as Hall by (apply Forall_app; split; [done|repeat constructor; simpl; tauto]).
    by destruct (no_upsert_in _ rows before Hall). }
  assert (userRows wrs ≠ []) as HrowsU by (intros Hn; by rewrite Hn in HU).
  rewrite runStmt_UpsertUsers in HU by done. inversion HU; subst r1 db1. clear HU.
  set (db1 := setUsers db _) in *.
  assert (∀ wr, wr ∈ wrs → is_Some (users db1 !! userId wr)) as Husers.
  { intros wr Hwr. apply foldl_insert_lookup. right. by apply userRows_covers. }
  destruct (runStmt db1 (SelectMapIds (mapIdsOf wrs))) as [e|[r2 db2]] eqn:HS.
  { injection Hrun as <- <- <-.
    assert (Forall (λ e, ¬ isGlobalsUpsert e)
              ((pageEvents world 1
                ++ [EvQuery (UpsertUsers (userRows wrs)) db;
                    EvLog (LogInsertedUsers (affectedRows (ResultSetHeader
                      (foldl upsertUser (users db, 0) (userRows wrs)).2)))])
               ++ [EvQuery (SelectMapIds (mapIdsOf wrs)) db1]))
      as Hall by (rewrite !Forall_app; repeat split; try done;
                  repeat constructor; simpl; tauto).
    by destruct (no_upsert_in _ rows before Hall). }
  assert (mapIdsOf wrs ≠ []) as HrowsM by (intros Hn; by rewrite Hn in HS).
  rewrite runStmt_SelectMapIds in HS by done. inversion HS; subst r2 db2. clear HS.
  cbn [rowsOf] in Hrun.
  set (evU := [EvLog (LogInsertedUsers (affectedRows (ResultSetHeader
                 (foldl upsertUser (users db, 0) (userRows wrs)).2)));
               EvQuery (SelectMapIds (mapIdsOf wrs)) db1]).
  assert (Forall (λ e, ¬ isGlobalsUpsert e) evU) as HevU
    by (repeat constructor; simpl; tauto).
  case_bool_decide as Hlen.
  - (* every map is there: the write runs against the store after the users *)
    pose proof (proj1 (select_count _ _ (mapIdsOf_NoDup wrs)) Hlen) as Hall.
    assert (∀ wr, wr ∈ wrs → is_Some (maps db1 !! mapId wr)) as Hmaps.
    { intros wr Hwr. apply Hall, mapIdsOf_elem. by apply list_elem_of_fmap_2. }
    assert (∃ post, evs = (pageEvents world 1
                ++ EvQuery (UpsertUsers (userRows wrs)) db :: evU)
                ++ EvQuery (UpsertGlobals (wrRow <$> wrs)) db1 :: post
              ∧ Forall (λ e, ¬ isGlobalsUpsert e) post) as (post & -> & Hpost).
    { destruct (runStmt db1 (UpsertGlobals (wrRow <$> wrs))) as [e|[rw dbw]];
        injection Hrun as <- <- <-; eexists; (split;
          [unfold evU; norm_app; reflexivity
          |repeat constructor; simpl; tauto]). }
    apply upsert_event_unique in Hin; [|
      rewrite Forall_app; split; [done|constructor; [simpl; tauto|done]]
      |done|done].
    inversion Hin; subst rows before. split; [done|].
    split; [|split; [done|by left]].
    exists (pageEvents world 1), evU, post. split; [norm_app; reflexivity|].
    by apply Forall_app.
  - (* some map is missing: the catalogue is fetched first *)
    assert (∃ wr, wr ∈ wrs ∧ maps db1 !! mapId wr = None) as Hmissing.
    { destruct (decide (Forall (λ wr, is_Some (maps db1 !! mapId wr)) wrs))
        as [Hall|Hnot].
      - destruct Hlen. apply select_count; [apply mapIdsOf_NoDup|].
        intros i Hi. apply mapIdsOf_elem, list_elem_of_fmap in Hi as (wr & -> & Hwr).
        by apply (proj1 (Forall_forall _ _) Hall).
      - apply not_Forall_Exists, Exists_exists in Hnot as (wr & Hwr & Hnone);
          [|apply _].
        exists wr. split; [done|]. by apply eq_None_not_Some. }
    rewrite updateMaps_eq in Hrun.
    pose proof (loadMaps_no_upsert fuel) as HloadEv.
    destruct (loadMaps world fuel) as [[cat| |] evsL] eqn:Hload; cbn [snd] in HloadEv.
    2,3: injection Hrun as <- <- <-;
         assert (Forall (λ e, ¬ isGlobalsUpsert e)
                   (((pageEvents world 1
                      ++ [EvQuery (UpsertUsers (userRows wrs)) db;
                          EvLog (LogInsertedUsers (affectedRows (ResultSetHeader
                            (foldl upsertUser (users db, 0) (userRows wrs)).2)))])
                     ++ [EvQuery (SelectMapIds (mapIdsOf wrs)) db1]) ++ evsL))
           as Hall by (rewrite !Forall_app; repeat split; try done;
                       repeat constructor; simpl; tauto);
         by destruct (no_upsert_in _ rows before Hall).
    destruct (runStmt (setMaps db1 ∅) (InsertMaps cat)) as [e|[r3 db3]] eqn:HI.
    { injection Hrun as <- <- <-.
      assert (Forall (λ e, ¬ isGlobalsUpsert e)
                (((pageEvents world 1
                   ++ [EvQuery (UpsertUsers (userRows wrs)) db;
                       EvLog (LogInsertedUsers (affectedRows (ResultSetHeader
                         (foldl upsertUser (users db, 0) (userRows wrs)).2)))])
                  ++ [EvQuery (SelectMapIds (mapIdsOf wrs)) db1])
                 ++ evsL ++ [EvQuery TruncateMaps db1;
                             EvQuery (InsertMaps cat) (setMaps db1 ∅)]))
        as Hall by (rewrite !Forall_app; repeat split; try done;
                    repeat constructor; simpl; tauto).
      by destruct (no_upsert_in _ rows before Hall). }
    destruct (runStmt_InsertMaps_keys _ _ _ _ HI) as (Hu3 & _ & Hkeys).
    set (evM := [EvLog (LogInsertedMaps (affectedRows r3))]).
    assert (∃ post, evs = (pageEvents world 1
                ++ EvQuery (UpsertUsers (userRows wrs)) db :: evU ++ evsL
                ++ EvQuery TruncateMaps db1
                   :: EvQuery (InsertMaps cat) (setMaps db1 ∅) :: evM)
                ++ EvQuery (UpsertGlobals (wrRow <$> wrs)) db3 :: post
              ∧ Forall (λ e, ¬ isGlobalsUpsert e) post) as (post & -> & Hpost).
    { destruct (runStmt db3 (UpsertGlobals (wrRow <$> wrs))) as [e|[rw dbw]];
        injection Hrun as <- <- <-; eexists; (split;
          [unfold evU, evM; norm_app; reflexivity
          |repeat constructor; simpl; tauto]). }
    assert (Forall (λ e, ¬ isGlobalsUpsert e)
              (evU ++ evsL ++ EvQuery TruncateMaps db1
                 :: EvQuery (InsertMaps cat) (setMaps db1 ∅) :: evM)) as Hmid
      by (rewrite !Forall_app; repeat split; try done;
          repeat constructor; simpl; tauto).
    apply upsert_event_unique in Hin; [|
      rewrite Forall_app; split; [done|constructor; [simpl; tauto|done]]
      |done|done].
    inversion Hin; subst rows before. split; [done|].
    split; [|split].
    + exists (pageEvents world 1),
        (evU ++ evsL ++ EvQuery TruncateMaps db1
           :: EvQuery (InsertMaps cat) (setMaps db1 ∅) :: evM), post.
      split; [norm_app; reflexivity|]. by apply Forall_app.
    + intros wr Hwr. rewrite Hu3. by apply Husers.
    + right. exists cat, db1,
        (pageEvents world 1
         ++ EvQuery (UpsertUsers (userRows wrs)) db :: evU ++ evsL), evM, post.
      split; [done|]. split; [done|]. split; [|done].
      unfold evU, evM. norm_app. reflexivity.
Qed.

End RefreshWrite.

(** C2, as the specification states it, fails: the page names map 99, the
    store has no map, the catalogue that is fetched lists map 1 only, and
    the write of the records is sent against a store without map 99. *)
Lemma refresh_write_without_map :
  ∃ rows before row,
    EvQuery (UpsertGlobals rows) before
      ∈ (refreshWRs staleCatalogWorld 1 emptyDB).2
    ∧ row ∈ rows
    ∧ maps before !! map_id row = None.
Proof.
  eexists _, _, _. split; [|split].
  - apply list_elem_of_lookup. exists 12%nat. vm_compute. reflexivity.
  - left.
  - vm_compute. reflexivity.
Qed.

(** ** The upsert into [globals] *)

Lemma upsertInto_lookup (g : gmap Z GlobalsRow) (r : GlobalsRow) (k : Z) :
  upsertInto g r !! k
  = if decide (k = time_id r) then Some r else keep r (g !! k).
Proof.
  unfold upsertInto. destruct (decide (k = time_id r)) as [->|Hne].
  - apply lookup_insert_eq.
  - rewrite lookup_insert_ne by done. rewrite map_lookup_filter.
    unfold keep. destruct (g !! k) as [b|]; [|done]. cbn.
    destruct (decide (slot b = slot r)); case_guard; naive_solver.
Qed.

Lemma keep_comm (r x : GlobalsRow) ob : keep r (keep x ob) = keep x (keep r ob).
Proof.
  unfold keep. destruct ob as [b|]; [|done].
  destruct (decide (slot b = slot x)) as [Hx|Hx],
           (decide (slot b = slot r)) as [Hr|Hr];
    rewrite ?decide_True by done; rewrite ?decide_False by done; done.
Qed.

Lemma keep_keep (r : GlobalsRow) ob : keep r (keep r ob) = keep r ob.
Proof.
  unfold keep. destruct ob as [b|]; [|done].
  destruct (decide (slot b = slot r)) as [Hr|Hr]; [done|].
  by rewrite decide_False by done.
Qed.

Lemma sameOutside_upsert (r : GlobalsRow) g g' :
  sameOutside r g g' → upsertInto g r = upsertInto g' r.
Proof.
  intros Hsame. apply map_eq. intros k. rewrite !upsertInto_lookup.
  destruct (decide (k = time_id r)); [done|]. by apply Hsame.
Qed.

Lemma sameOutside_step (r x : GlobalsRow) g g' :
  sameOutside r g g' → sameOutside r (upsertInto g x) (upsertInto g' x).
Proof.
  intros Hsame k Hk. rewrite !upsertInto_lookup.
  destruct (decide (k = time_id x)); [done|].
  rewrite !(keep_comm r x). f_equal. by apply Hsame.
Qed.

Lemma sameOutside_self (r : GlobalsRow) g : sameOutside r (upsertInto g r) g.
Proof.
  intros k Hk. rewrite upsertInto_lookup, decide_False by done.
  apply keep_keep.
Qed.

Lemma sameOutside_foldl (r : GlobalsRow) (rs : list GlobalsRow) : ∀ g g',
  sameOutside r g g' → sameOutside r (foldl upsertInto g rs) (foldl upsertInto g' rs).
Proof.
  induction rs as [|x rs IH]; intros g g' Hsame; [done|].
  cbn [foldl]. by apply IH, sameOutside_step.
Qed.

(** Upserting a batch a second time changes nothing. *)
Lemma foldl_upsertInto_again (rs : list GlobalsRow) : ∀ g,
  foldl upsertInto (foldl upsertInto g rs) rs = foldl upsertInto g rs.
Proof.
  induction rs as [|r rs IH] using rev_ind; intros g; [done|].
  rewrite !foldl_app. cbn [foldl].
  rewrite (sameOutside_upsert r _ (foldl upsertInto (foldl upsertInto g rs) rs)).
  - by rewrite IH.
  - apply sameOutside_foldl, sameOutside_self.
Qed.

Lemma keysAgree_upsert (g : gmap Z GlobalsRow) (r : GlobalsRow) :
  keysAgree g → keysAgree (upsertInto g r).
Proof.
  intros Hg k b. rewrite upsertInto_lookup.
  destruct (decide (k = time_id r)) as [->|Hne]; [by intros [= ->]|].
  unfold keep. destruct (g !! k) as [b'|] eqn:Hk; [|done].
  destruct (decide (slot b' = slot r)); [done|]. intros [= <-]. by apply Hg.
Qed.

Lemma slotsUnique_upsert (g : gmap Z GlobalsRow) (r : GlobalsRow) :
  slotsUnique g → slotsUnique (upsertInto g r).
Proof.
  intros Hg k1 k2 b1 b2. rewrite !upsertInto_lookup.
  destruct (decide (k1 = time_id r)) as [->|Hne1],
           (decide (k2 = time_id r)) as [->|Hne2]; [done| | |].
  - intros [= <-]. unfold keep. destruct (g !! k2) as [b|]; [|done].
    destruct (decide (slot b = slot r)); [done|]. intros [= <-]. congruence.
  - unfold keep. destruct (g !! k1) as [b|]; [|done].
    destruct (decide (slot b = slot r)); [done|]. intros [= <-] [= <-]. congruence.
  - unfold keep. destruct (g !! k1) as [b|] eqn:H1; [|done].
    destruct (g !! k2) as [b'|] eqn:H2; [|by destruct (decide _)].
    destruct (decide (slot b = slot r)); [done|].
    destruct (decide (slot b' = slot r)); [done|].
    intros [= <-] [= <-]. by apply Hg.
Qed.

Lemma invariants_foldl_upsert (rs : list GlobalsRow) : ∀ g,
  keysAgree g → slotsUnique g →
  keysAgree (foldl upsertInto g rs) ∧ slotsUnique (foldl upsertInto g rs).
Proof.
  induction rs as [|r rs IH]; intros g Hk Hs; [done|].
  cbn [foldl]. apply IH; [by apply keysAgree_upsert|by apply slotsUnique_upsert].
Qed.

(** After a batch with distinct identifiers, the row under the identifier
    of a row of the batch is that row, if there is one. *)
Lemma own_step (g : gmap Z GlobalsRow) (x r : GlobalsRow) :
  time_id x ≠ time_id r →
  g !! time_id r = None ∨ g !! time_id r = Some r →
  upsertInto g x !! time_id r = None ∨ upsertInto g x !! time_id r = Some r.
Proof.
  intros Hne Hg. rewrite upsertInto_lookup, decide_False by done.
  unfold keep. destruct Hg as [->| ->]; [by left|].
  destruct (decide (slot r = slot x)); [by left|by right].
Qed.

Lemma own_foldl (rs : list GlobalsRow) : ∀ g r,
  time_id r ∉ time_id <$> rs →
  g !! time_id r = None ∨ g !! time_id r = Some r →
  foldl upsertInto g rs !! time_id r = None
  ∨ foldl upsertInto g rs !! time_id r = Some r.
Proof.
  induction rs as [|x rs IH]; intros g r Hnot Hg; [done|].
  cbn [foldl]. rewrite fmap_cons, not_elem_of_cons in Hnot.
  destruct Hnot as [Hne Hnot]. apply IH; [done|]. by apply own_step.
Qed.

Lemma own_after_batch (rs : list GlobalsRow) : ∀ g r,
  NoDup (time_id <$> rs) → r ∈ rs →
  foldl upsertInto g rs !! time_id r = None
  ∨ foldl upsertInto g rs !! time_id r = Some r.
Proof.
  induction rs as [|x rs IH]; intros g r Hnd Hr; [inversion Hr|].
  rewrite fmap_cons in Hnd. apply NoDup_cons in Hnd as [Hx Hnd].
  cbn [foldl]. apply elem_of_cons in Hr as [->|Hr]; [|by apply IH].
  apply own_foldl; [done|]. right. by rewrite upsertInto_lookup, decide_True.
Qed.

Lemma slotTakenByOther_false (g : gmap Z GlobalsRow) (r : GlobalsRow) :
  slotTakenByOther g (slot r) (time_id r) = false →
  ∀ k b, g !! k = Some b → slot b = slot r → k = time_id r.
Proof.
  unfold slotTakenByOther. intros Hfalse k b Hk Hslot.
  apply bool_decide_eq_false in Hfalse.
  destruct (decide (k = time_id r)) as [|Hne]; [done|].
  destruct Hfalse. exists k, b. by repeat split.
Qed.

Lemma slotTakenByOther_unique (g : gmap Z GlobalsRow) (r : GlobalsRow) :
  slotsUnique g → g !! time_id r = Some r →
  slotTakenByOther g (slot r) (time_id r) = false.
Proof.
  intros Hs Hr. apply bool_decide_eq_false. intros (k & b & Hk & Hslot & Hne).
  apply Hne. by apply (Hs k (time_id r) b r).
Qed.

Lemma referencesExist_same (db db' : DB) (r : GlobalsRow) :
  users db' = users db → maps db' = maps db →
  referencesExist db' r = referencesExist db r.
Proof. intros Hu Hm. unfold referencesExist. by rewrite Hu, Hm. Qed.

Section GlobalsUpsert.
Context (db : DB).

(** A row that is upserted without an error leaves the closed form. *)
Lemma upsertGlobalsRow_ok g n (r : GlobalsRow) g' n' :
  upsertGlobalsRow db (inr (g, n)) r = inr (g', n') →
  g' = upsertInto g r ∧ referencesExist db r = true.
Proof.
  unfold upsertGlobalsRow.
  destruct (referencesExist db r); cbn [negb]; [|done].
  destruct (g !! time_id r) as [old|] eqn:Hold.
  - destruct (slotTakenByOther g (slot r) (time_id r)) eqn:Htaken; [done|].
    intros [= <- _]. split; [|done].
    apply map_eq. intros k. rewrite upsertInto_lookup.
    destruct (decide (k = time_id r)) as [->|Hne]; [apply lookup_insert_eq|].
    rewrite lookup_insert_ne by done. unfold keep.
    destruct (g !! k) as [b|] eqn:Hk; [|done].
    destruct (decide (slot b = slot r)) as [Hslot|]; [|done].
    destruct Hne. by apply (slotTakenByOther_false g r Htaken k b).
  - by intros [= <- _].
Qed.

Lemma foldl_upsertGlobalsRow_error (rs : list GlobalsRow) e :
  foldl (upsertGlobalsRow db) (inl e) rs = inl e.
Proof. by induction rs. Qed.

Lemma foldl_upsertGlobalsRow_ok (rs : list GlobalsRow) : ∀ g n g' n',
  foldl (upsertGlobalsRow db) (inr (g, n)) rs = inr (g', n') →
  g' = foldl upsertInto g rs ∧ ∀ r, r ∈ rs → referencesExist db r = true.
Proof.
  induction rs as [|x rs IH]; intros g n g' n' Hfold; cbn [foldl] in *.
  - inversion Hfold; subst. split; [done|]. intros r Hr. inversion Hr.
  - destruct (upsertGlobalsRow db (inr (g, n)) x) as [e|[g1 n1]] eqn:Hx.
    { by rewrite foldl_upsertGlobalsRow_error in Hfold. }
    apply upsertGlobalsRow_ok in Hx as [-> Hfk].
    destruct (IH _ _ _ _ Hfold) as [-> Hrest]. split; [done|].
    intros r Hr. apply elem_of_cons in Hr as [->|Hr]; [done|by apply Hrest].
Qed.

(** A batch whose rows are in the table already, or absent from it, goes
    through. *)
Lemma foldl_upsertGlobalsRow_present (rs : list GlobalsRow) : ∀ g n,
  keysAgree g → slotsUnique g →
  NoDup (time_id <$> rs) →
  (∀ r, r ∈ rs → referencesExist db r = true) →
  (∀ r, r ∈ rs → g !! time_id r = None ∨ g !! time_id r = Some r) →
  ∃ n', foldl (upsertGlobalsRow db) (inr (g, n)) rs
        = inr (foldl upsertInto g rs, n').
Proof.
  induction rs as [|x rs IH]; intros g n Hk Hs Hnd Hfk Hown; cbn [foldl].
  { eauto. }
  rewrite fmap_cons in Hnd. apply NoDup_cons in Hnd as [Hx Hnd].
  assert (∃ n1, upsertGlobalsRow db (inr (g, n)) x = inr (upsertInto g x, n1))
    as [n1 ->].
  { unfold upsertGlobalsRow. rewrite (Hfk x) by left. cbn [negb].
    destruct (Hown x ltac:(left)) as [Hnone|Hsome].
    - rewrite Hnone. eauto.
    - rewrite Hsome, slotTakenByOther_unique by done.
      eexists. do 2 f_equal. apply map_eq. intros k.
      rewrite upsertInto_lookup.
      destruct (decide (k = time_id x)) as [->|Hne]; [apply lookup_insert_eq|].
      rewrite lookup_insert_ne by done. unfold keep.
      destruct (g !! k) as [b|] eqn:Hb; [|done].
      destruct (decide (slot b = slot x)) as [Hslot|]; [|done].
      destruct Hne. by apply (Hs k (time_id x) b x). }
  apply IH; [by apply keysAgree_upsert|by apply slotsUnique_upsert|done| |].
  - intros r Hr. apply Hfk. by right.
  - intros r Hr. apply own_step; [|apply Hown; by right].
    intros Heq. apply Hx. rewrite Heq. by apply list_elem_of_fmap_2.
Qed.

End GlobalsUpsert.

Lemma runStmt_UpsertGlobals (db : DB) (rows : list GlobalsRow) :
  runStmt db (UpsertGlobals rows)
  = match rows with
    | [] => inl ER_PARSE_ERROR
    | _ =>
        match foldl (upsertGlobalsRow db) (inr (globals db, 0)) rows with
        | inl e => inl e
        | inr (g, n) => inr (ResultSetHeader n, setGlobals db g)
        end
    end.
Proof. by destruct rows. Qed.

(** The upsert of a batch with distinct identifiers that went through goes
    through again and leaves the store as it is; both keys hold after it. *)
Lemma upsert_globals_again (db db1 : DB) (rows : list GlobalsRow) r1 :
  keysAgree (globals db) → slotsUnique (globals db) →
  NoDup (time_id <$> rows) →
  runStmt db (UpsertGlobals rows) = inr (r1, db1) →
  users db1 = users db ∧ maps db1 = maps db
  ∧ keysAgree (globals db1) ∧ slotsUnique (globals db1)
  ∧ (∀ r, r ∈ rows → referencesExist db r = true)
  ∧ ∃ r2, runStmt db1 (UpsertGlobals rows) = inr (r2, db1).
Proof.
  intros Hk Hs Hnd. rewrite !runStmt_UpsertGlobals.
  destruct rows as [|row rows]; [done|].
  destruct (foldl (upsertGlobalsRow db) _ (row :: rows)) as [e|[g n]] eqn:Hfold;
    [done|].
  intros [= <- <-]. apply foldl_upsertGlobalsRow_ok in Hfold as [-> Hfk].
  destruct (invariants_foldl_upsert (row :: rows) (globals db) Hk Hs)
    as [Hk1 Hs1].
  split; [done|]. split; [done|]. split; [done|]. split; [done|].
  split; [done|].
  destruct (foldl_upsertGlobalsRow_present
              (setGlobals db (foldl upsertInto (globals db) (row :: rows)))
              (row :: rows) (foldl upsertInto (globals db) (row :: rows)) 0
              Hk1 Hs1 Hnd) as [n' Hagain].
  - intros r Hr. rewrite <- (Hfk r Hr). by apply referencesExist_same.
  - intros r Hr. by apply own_after_batch.
  - cbn [globals setGlobals]. rewrite Hagain, foldl_upsertInto_again.
    eexists. reflexivity.
Qed.

(** ** Seed mode, stage by stage *)

Lemma DB_eq (a b : DB) :
  users a = users b → maps a = maps b → globals a = globals b → a = b.
Proof. destruct a, b. cbn. by intros -> -> ->. Qed.

Lemma runStmt_InsertMaps (db : DB) (cat : list StrafesMap) :
  runStmt db (InsertMaps cat)
  = match cat with
    | [] => inl ER_PARSE_ERROR
    | _ =>
        match foldl insertMapRow (inr (maps db)) cat with
        | inl e => inl e
        | inr m => inr (ResultSetHeader (Z.of_nat (length cat)), setMaps db m)
        end
    end.
Proof. by destruct cat. Qed.

Lemma runStmt_InsertGlobals (db : DB) (rows : list GlobalsRow) :
  runStmt db (InsertGlobals rows)
  = match rows with
    | [] => inl ER_PARSE_ERROR
    | _ =>
        match foldl (insertGlobalsRow db) (inr (globals db)) rows with
        | inl e => inl e
        | inr g => inr (ResultSetHeader (Z.of_nat (length rows)), setGlobals db g)
        end
    end.
Proof. by destruct rows. Qed.

Lemma foldl_insertGlobalsRow_same (db db' : DB) (rows : list GlobalsRow) :
  users db' = users db → maps db' = maps db →
  ∀ acc, foldl (insertGlobalsRow db') acc rows
         = foldl (insertGlobalsRow db) acc rows.
Proof.
  intros Hu Hm. induction rows as [|r rows IH]; intros acc; [done|].
  cbn [foldl]. rewrite IH. f_equal. unfold insertGlobalsRow.
  destruct acc as [e|g]; [done|]. by rewrite (referencesExist_same db db').
Qed.

Section SeedStages.
Context (world : World).

Lemma seedWrite_eq (rows : list GlobalsRow) (db : DB) :
  seedWrite rows db =
  match runStmt (setGlobals db ∅) (InsertGlobals rows) with
  | inl e =>
      (Throw (QueryError e), setGlobals db ∅,
       [EvQuery TruncateGlobals db;
        EvQuery (InsertGlobals rows) (setGlobals db ∅)])
  | inr (r, db') =>
      (Ok true, db',
       [EvQuery TruncateGlobals db;
        EvQuery (InsertGlobals rows) (setGlobals db ∅);
        EvLog (LogInsertedWRs (affectedRows r))])
  end.
Proof.
  unfold seedWrite. rewrite Db_bind_eq, query_eq.
  change (runStmt db TruncateGlobals) with
    (inr (ResultSetHeader 0, setGlobals db ∅) : SqlError + QueryResult * DB).
  cbv beta iota. rewrite Db_bind_eq, query_eq.
  by destruct (runStmt (setGlobals db ∅) (InsertGlobals rows)) as [e|[r db']].
Qed.

Lemma seedWRs_eq (fuel : nat) (db : DB) :
  seedWRs world fuel db =
  match updateMaps world fuel db with
  | (Ok true, dbA, ev1) =>
      match loadAllWRs world fuel with
      | (Ok wrs, ev2) =>
          match insertUsers wrs dbA with
          | (Ok _, dbB, ev3) =>
              match seedWrite (wrRow <$> wrs) dbB with
              | (r, dbD, ev4) => (r, dbD, ev1 ++ ev2 ++ ev3 ++ ev4)
              end
          | (Throw e, dbB, ev3) => (Throw e, dbB, ev1 ++ ev2 ++ ev3)
          | (OutOfFuel, dbB, ev3) => (OutOfFuel, dbB, ev1 ++ ev2 ++ ev3)
          end
      | (Throw e, ev2) => (Throw e, dbA, ev1 ++ ev2)
      | (OutOfFuel, ev2) => (OutOfFuel, dbA, ev1 ++ ev2)
      end
  | (Ok false, dbA, ev1) => (Ok false, dbA, ev1 ++ [])
  | (Throw e, dbA, ev1) => (Throw e, dbA, ev1)
  | (OutOfFuel, dbA, ev1) => (OutOfFuel, dbA, ev1)
  end.
Proof.
  unfold seedWRs. rewrite Db_bind_eq.
  destruct (updateMaps world fuel db) as [[[[]| |] dbA] ev1]; cbn [negb];
    try done.
  rewrite Db_bind_eq. unfold lift.
  destruct (loadAllWRs world fuel) as [[wrs| |] ev2]; cbn [fst snd]; try done.
  rewrite Db_bind_eq.
  destruct (insertUsers wrs dbA) as [[[[]| |] dbB] ev3]; try done.
  cbv zeta.
  change ((query TruncateGlobals ≫= _) dbB)
    with (seedWrite (wrRow <$> wrs) dbB).
  by destruct (seedWrite (wrRow <$> wrs) dbB) as [[r dbD] ev4].
Qed.

(** Each stage, run again on a store that holds what the stage left,
    gives the same result and leaves that store as it is. *)
Lemma updateMaps_again (fuel : nat) (db dbA : DB) r ev :
  updateMaps world fuel db = (r, dbA, ev) →
  users dbA = users db ∧ globals dbA = globals db
  ∧ ∀ X, maps X = maps dbA → ∃ ev', updateMaps world fuel X = (r, X, ev').
Proof.
  rewrite updateMaps_eq.
  destruct (loadMaps world fuel) as [[cat| |] evs] eqn:Hload.
  2,3: intros [= <- <- <-]; repeat split; try done;
       intros X _; rewrite updateMaps_eq, Hload; eauto.
  rewrite runStmt_InsertMaps.
  destruct cat as [|row cat].
  { intros [= <- <- <-]. repeat split; try done. intros X HX.
    rewrite updateMaps_eq, Hload. cbn [runStmt]. eexists. repeat f_equal.
    apply DB_eq; try done; by rewrite HX. }
  cbn [maps setMaps].
  destruct (foldl insertMapRow (inr ∅) (row :: cat)) as [e|m] eqn:Hfold.
  - intros [= <- <- <-]. repeat split; try done. intros X HX.
    rewrite updateMaps_eq, Hload, runStmt_InsertMaps. cbn [maps setMaps].
    rewrite Hfold. eexists. repeat f_equal. apply DB_eq; try done;
      by rewrite HX.
  - intros [= <- <- <-]. repeat split; try done. intros X HX.
    rewrite updateMaps_eq, Hload, runStmt_InsertMaps. cbn [maps setMaps].
    rewrite Hfold. eexists. repeat f_equal. apply DB_eq; try done;
      by rewrite HX.
Qed.

Lemma insertUsers_again (wrs : list WR) (db dbB : DB) r ev :
  insertUsers wrs db = (r, dbB, ev) →
  maps dbB = maps db ∧ globals dbB = globals db
  ∧ ∀ X, users X = users dbB → ∃ ev', insertUsers wrs X = (r, X, ev').
Proof.
  rewrite insertUsers_eq. destruct (decide (userRows wrs = [])) as [Hnil|Hne].
  { rewrite Hnil. cbn [runStmt]. intros [= <- <- <-]. repeat split; try done.
    intros X _. rewrite insertUsers_eq, Hnil. cbn [runStmt]. eauto. }
  rewrite runStmt_UpsertUsers by done.
  intros [= <- <- <-]. repeat split; try done. intros X HX.
  rewrite insertUsers_eq, runStmt_UpsertUsers by done.
  eexists. repeat f_equal. apply DB_eq; try done. cbn [users setUsers] in *.
  rewrite HX. apply foldl_insert_again.
  - apply userRows_NoDup.
  - intros k name Hin. by apply foldl_insert_holds; [apply userRows_NoDup|].
Qed.

Lemma seedWrite_again (rows : list GlobalsRow) (db dbD : DB) r ev :
  seedWrite rows db = (r, dbD, ev) →
  users dbD = users db ∧ maps dbD = maps db
  ∧ ∀ X, users X = users db → maps X = maps db → globals X = globals dbD →
      ∃ ev', seedWrite rows X = (r, X, ev').
Proof.
  rewrite seedWrite_eq, runStmt_InsertGlobals.
  assert (∀ X, users X = users db → maps X = maps db →
            runStmt (setGlobals X ∅) (InsertGlobals rows)
            = match rows with
              | [] => inl ER_PARSE_ERROR
              | _ =>
                  match foldl (insertGlobalsRow (setGlobals db ∅)) (inr ∅) rows
                  with
                  | inl e => inl e
                  | inr g =>
                      inr (ResultSetHeader (Z.of_nat (length rows)),
                           setGlobals (setGlobals X ∅) g)
                  end
              end) as Hsame.
  { intros X Hu Hm. rewrite runStmt_InsertGlobals. destruct rows; [done|].
    cbn [globals setGlobals].
    by rewrite (foldl_insertGlobalsRow_same (setGlobals db ∅) (setGlobals X ∅)). }
  destruct rows as [|row rows].
  { intros [= <- <- <-]. repeat split; try done. intros X Hu Hm Hg.
    rewrite seedWrite_eq, (Hsame X Hu Hm). eexists. repeat f_equal.
    by apply DB_eq. }
  cbn [globals setGlobals].
  destruct (foldl (insertGlobalsRow (setGlobals db ∅)) (inr ∅) (row :: rows))
    as [e|g] eqn:Hfold.
  - intros [= <- <- <-]. repeat split; try done. intros X Hu Hm Hg.
    rewrite seedWrite_eq, (Hsame X Hu Hm). cbv beta iota.
    eexists. repeat f_equal. by apply DB_eq.
  - intros [= <- <- <-]. repeat split; try done. intros X Hu Hm Hg.
    rewrite seedWrite_eq, (Hsame X Hu Hm). cbv beta iota.
    eexists. repeat f_equal. by apply DB_eq.
Qed.

End SeedStages.

(** ** Writing the same input twice *)

Lemma time_id_wrRow (wrs : list WR) : time_id <$> (wrRow <$> wrs) = timeId <$> wrs.
Proof. rewrite <- list_fmap_compose. by apply list_fmap_ext. Qed.

Section WriteTwice.
Context (world : World).

(** A store that already holds the users of the page, a map for every
    record and the rows themselves goes through [refreshWRs] unchanged. *)
Lemma refreshWRs_settled (fuel : nat) (X : DB) response r' :
  answer world 1 = Some response →
  let wrs := (pushRecords ([], ∅) (data response)).1 in
  wrs ≠ [] →
  (∀ k name, (k, name) ∈ userRows wrs → users X !! k = Some name) →
  (∀ wr, wr ∈ wrs → is_Some (maps X !! mapId wr)) →
  runStmt X (UpsertGlobals (wrRow <$> wrs)) = inr (r', X) →
  ∃ evs, refreshWRs world fuel X = (Ok true, X, evs).
Proof.
  intros Hans wrs Hne Husers Hmaps Hwrite.
  rewrite (refreshWRs_eq world fuel X response Hans). cbv zeta. fold wrs.
  destruct wrs as [|wr0 wrs0] eqn:Hwrs; [done|]. rewrite <- Hwrs in *.
  assert (wr0 ∈ wrs) as Hwr0 by (rewrite Hwrs; left).
  rewrite runStmt_UpsertUsers by (by eapply userRows_nonempty).
  rewrite foldl_insert_again by (apply userRows_NoDup || done).
  replace (setUsers X (users X)) with X by (by apply DB_eq).
  rewrite runStmt_SelectMapIds by (by eapply mapIdsOf_nonempty).
  cbn [rowsOf]. rewrite bool_decide_true.
  - rewrite Hwrite. eauto.
  - apply select_count; [apply mapIdsOf_NoDup|].
    intros i Hi. apply mapIdsOf_elem, list_elem_of_fmap in Hi as (wr & -> & Hwr).
    by apply Hmaps.
Qed.

(** C7. Seeding a second time, from the store the first seed left and
    with the same source, gives the same result and leaves that store as
    it is.  Refreshing keeps the primary key and the unique index of
    [globals]; and refreshing a second time after a refresh that went
    through, with the same page, goes through and leaves the store as it
    is: the rows are updated in place and none is added. *)
Theorem repeated_write_changes_nothing (fuel : nat) (db : DB) :
  (∀ r1 db1 evs1,
     seedWRs world fuel db = (r1, db1, evs1) →
     ∃ evs2, seedWRs world fuel db1 = (r1, db1, evs2))
  ∧ (keysAgree (globals db) → slotsUnique (globals db) →
     ∀ r1 db1 evs1,
       refreshWRs world fuel db = (r1, db1, evs1) →
       keysAgree (globals db1) ∧ slotsUnique (globals db1)
       ∧ (r1 = Ok true →
          ∃ evs2, refreshWRs world fuel db1 = (Ok true, db1, evs2))).
Proof.
  split.
  - (* seed *)
    intros r1 db1 evs1. rewrite seedWRs_eq.
    destruct (updateMaps world fuel db) as [[rA dbA] ev1] eqn:HA.
    destruct (updateMaps_again world fuel db dbA rA ev1 HA) as (_ & _ & HagainA).
    destruct rA as [[]| |].
    2,3,4: intros [= <- <- <-]; destruct (HagainA dbA eq_refl) as [ev' Hev'];
           rewrite seedWRs_eq, Hev'; eauto.
    destruct (loadAllWRs world fuel) as [[wrs| |] ev2] eqn:Hload.
    2,3: intros [= <- <- <-]; destruct (HagainA dbA eq_refl) as [ev' Hev'];
         rewrite seedWRs_eq, Hev', Hload; eauto.
    destruct (insertUsers wrs dbA) as [[rB dbB] ev3] eqn:HB.
    destruct (insertUsers_again wrs dbA dbB rB ev3 HB) as (HmB & _ & HagainB).
    destruct rB as [[]| |].
    2,3: intros [= <- <- <-];
         destruct (HagainA dbB HmB) as [ev' Hev'];
         destruct (HagainB dbB eq_refl) as [ev'' Hev''];
         rewrite seedWRs_eq, Hev', Hload, Hev''; eauto.
    destruct (seedWrite (wrRow <$> wrs) dbB) as [[rD dbD] ev4] eqn:HD.
    destruct (seedWrite_again (wrRow <$> wrs) dbB dbD rD ev4 HD)
      as (HuD & HmD & HagainD).
    intros [= <- <- <-].
    destruct (HagainA dbD ltac:(by rewrite HmD)) as [ev' Hev'].
    destruct (HagainB dbD HuD) as [ev'' Hev''].
    destruct (HagainD dbD HuD HmD eq_refl) as [ev''' Hev'''].
    rewrite seedWRs_eq, Hev', Hload, Hev'', Hev'''. eauto.
  - (* refresh *)
    intros Hk Hs r1 db1 evs1 Hrun.
    destruct (answer world 1) as [response|] eqn:Hans.
    2:{ rewrite refreshWRs_no_page in Hrun by done.
        injection Hrun as <- <- <-. by repeat split. }
    rewrite (refreshWRs_eq world fuel db response Hans) in Hrun.
    cbv zeta in Hrun.
    set (wrs := (pushRecords ([], ∅) (data response)).1) in *.
    assert (NoDup (time_id <$> (wrRow <$> wrs))) as Hnd
      by (rewrite time_id_wrRow; apply dedup_facts).
    destruct (decide (userRows wrs = [])) as [Hnil|HrowsU].
    { rewrite Hnil in Hrun. cbn [runStmt] in Hrun.
      injection Hrun as <- <- <-. by repeat split. }
    rewrite runStmt_UpsertUsers in Hrun by done.
    set (db1' := setUsers db _) in *.
    assert (∀ k name, (k, name) ∈ userRows wrs → users db1' !! k = Some name)
      as Husers
      by (intros k name Hin; by apply foldl_insert_holds;
            [apply userRows_NoDup|]).
    assert (wrs ≠ []) as Hne by (intros Hn; apply HrowsU; by rewrite Hn).
    destruct (decide (mapIdsOf wrs = [])) as [Hnil|HrowsM].
    { rewrite Hnil in Hrun. cbn [runStmt] in Hrun.
      injection Hrun as <- <- <-. by repeat split. }
    rewrite runStmt_SelectMapIds in Hrun by done. cbn [rowsOf] in Hrun.
    (* the write, against a store [dbw] that keeps the users and [globals] *)
    assert (∀ dbw evs,
      users dbw = users db1' → globals dbw = globals db →
      match runStmt dbw (UpsertGlobals (wrRow <$> wrs)) with
      | inl e =>
          (Throw (QueryError e), dbw,
           evs ++ [EvQuery (UpsertGlobals (wrRow <$> wrs)) dbw])
      | inr (rw, dbw') =>
          (Ok true, dbw',
           evs ++ [EvQuery (UpsertGlobals (wrRow <$> wrs)) dbw;
                   EvLog (LogInsertedWRs (affectedRows rw))])
      end = (r1, db1, evs1) →
      keysAgree (globals db1) ∧ slotsUnique (globals db1)
      ∧ (r1 = Ok true →
         ∃ evs2, refreshWRs world fuel db1 = (Ok true, db1, evs2))) as Hwrite.
    { intros dbw evs Hu Hg.
      destruct (runStmt dbw (UpsertGlobals (wrRow <$> wrs))) as [e|[rw dbw']]
        eqn:Hw.
      { intros [= <- <- <-]. rewrite Hg. by repeat split. }
      intros [= <- <- <-].
      destruct (upsert_globals_again dbw dbw' (wrRow <$> wrs) rw
                  ltac:(by rewrite Hg) ltac:(by rewrite Hg) Hnd Hw)
        as (Hu' & Hm' & Hk' & Hs' & Hfk & r2 & Hagain).
      split; [done|]. split; [done|]. intros _.
      apply (refreshWRs_settled fuel dbw' response r2 Hans); try done.
      - intros k name Hin. rewrite Hu', Hu. by apply Husers.
      - intros wr Hwr. rewrite Hm'.
        assert (referencesExist dbw (wrRow wr) = true) as Hrefs
          by (apply Hfk; by apply list_elem_of_fmap_2).
        unfold referencesExist in Hrefs.
        apply andb_true_iff in Hrefs as [_ Hmap].
        by apply bool_decide_eq_true in Hmap. }
    destruct (bool_decide _) in Hrun.
    + apply (Hwrite db1' _ eq_refl eq_refl Hrun).
    + destruct (updateMaps world fuel db1') as [[rM db3] ev3] eqn:HM.
      destruct (updateMaps_again world fuel db1' db3 rM ev3 HM) as (Hu3 & Hg3 & _).
      destruct rM as [[]| |].
      * apply (Hwrite db3 _ Hu3 Hg3 Hrun).
      * injection Hrun as <- <- <-. rewrite Hg3. by repeat split.
      * injection Hrun as <- <- <-. rewrite Hg3. by repeat split.
      * injection Hrun as <- <- <-. rewrite Hg3. by repeat split.
Qed.

End WriteTwice.

(** * The theorems at sample inputs *)

(** C1 on [smallWorld], whose page 3 is empty: the loop returns with one
    turn, and the record 3 of page 2 is in the batch once. *)
Lemma loadAllWRs_terminates_witness :
  ∃ (turns : nat) batch evs,
    (∀ fuel, (turns ≤ fuel)%nat → loadAllWRs smallWorld fuel = (Ok batch, evs))
    ∧ NoDup (timeId <$> batch)
    ∧ occurrences 3 batch = 1%nat.
Proof.
  destruct (loadAllWRs_terminates smallWorld 3
              {| rateLimitBurst := NotAString; data := [] |})
    as (turns & batch & evs & Hrun & Hnd & Hocc).
  - lia.
  - reflexivity.
  - reflexivity.
  - intros p Hp. assert (p = 1 ∨ p = 2) as [-> | ->] by lia;
      eexists; (split; [reflexivity|discriminate]).
  - exists turns, batch, evs. split; [exact Hrun|]. split; [exact Hnd|].
    apply (Hocc 2 {| rateLimitBurst := NumString 95;
                     data := [sampleTime 2 7 99 "anne"; sampleTime 3 8 99 "bob"] |}
             (sampleTime 3 8 99 "bob")).
    + lia.
    + reflexivity.
    + right. left.
Defined.

(** C5 on [busyWorld], whose first round reports 60: the first turn ends
    by sleeping, and the tracker is 999 again. *)
Lemma backoff_below_70_witness :
  Reachable busyWorld initialVars 1
  ∧ minimumBelow70 (resolvedAt busyWorld 1)
  ∧ ∃ v', loadAllWRs_body busyWorld initialVars 1
          = (Ok (Next v' 6),
             roundEvents busyWorld 1 ++ [EvLog LogSleeping; EvSleep 60000])
          ∧ burstRemaining v' = 999.
Proof.
  assert (minimumBelow70 (resolvedAt busyWorld 1)) as Hlow.
  { exists 60. split; [reflexivity|lia]. }
  split; [apply reach_first|]. split; [exact Hlow|].
  destruct (backoff_below_70 busyWorld 0 initialVars 1 (reach_first busyWorld))
    as [_ Hturn].
  destruct (loadAllWRs_body busyWorld initialVars 1) as [[[v'|v' page']| |] evs]
    eqn:Hbody.
  - vm_compute in Hbody. discriminate Hbody.
  - destruct Hturn as (_ & -> & Hsleep & _).
    destruct (Hsleep Hlow) as [-> Htracker]. exists v'. split; [reflexivity|].
    exact Htracker.
  - destruct Hturn.
  - destruct Hturn.
Defined.

(** C9 on [smallWorld], whose page 3 is empty and whose page 4 holds the
    record 4: the loop ends with the first burst and the batch holds the
    record 4. *)
Lemma empty_page_keeps_rest_of_burst_witness :
  Reachable smallWorld initialVars 1
  ∧ exhausted (resolvedAt smallWorld 1)
  ∧ ∃ batch evs,
      loadAllWRs_loop smallWorld 1 initialVars 1 = (Ok batch, evs)
      ∧ ∃ w, w ∈ batch ∧ timeId w = 4.
Proof.
  assert (exhausted (resolvedAt smallWorld 1)) as Hexh.
  { exists {| rateLimitBurst := NotAString; data := [] |}.
    split; [|reflexivity]. right. right. left. }
  split; [apply reach_first|]. split; [exact Hexh|].
  destruct (empty_page_keeps_rest_of_burst smallWorld 0 initialVars 1
              (reach_first smallWorld) Hexh) as (batch & evs & Hrun & _ & Hrest).
  exists batch, evs. split; [exact Hrun|].
  apply (Hrest 2%nat 3%nat {| rateLimitBurst := NotAString; data := [] |}
           {| rateLimitBurst := NotAString; data := [sampleTime 4 8 99 "bob"] |}
           (sampleTime 4 8 99 "bob")).
  - reflexivity.
  - reflexivity.
  - lia.
  - reflexivity.
  - left.
Defined.

(** C6 on [downWorld]: the request fails, [refreshWRs] answers [false],
    the store is as it was and the run ends with the status 1. *)
Lemma fetch_failure_is_soft_witness :
  answer downWorld 1 = None
  ∧ configured downWorld (Some "user") (Some "password")
  ∧ refreshWRs downWorld 1 emptyDB = (Ok false, emptyDB, pageEvents downWorld 1)
  ∧ exitStatus
      (main downWorld (Some "user") (Some "password") [] 1 emptyDB).1.1
    = Some 1.
Proof.
  assert (configured downWorld (Some "user") (Some "password")) as Hconf
    by (repeat split; reflexivity).
  split; [reflexivity|]. split; [exact Hconf|].
  destruct (fetch_failure_is_soft downWorld 1 emptyDB)
    as (_ & _ & _ & Hrefresh & Hmain).
  destruct (Hrefresh eq_refl) as [Hrun _]. split; [exact Hrun|].
  destruct (Hmain eq_refl (Some "user") (Some "password") [] Hconf eq_refl)
    as [_ Hexit].
  exact Hexit.
Defined.

(** C2 on [smallWorld] and the empty store: the write is sent, after the
    users, with the rows of the page. *)
Lemma refresh_write_after_users_and_maps_witness :
  ∃ rows before,
    EvQuery (UpsertGlobals rows) before ∈ (refreshWRs smallWorld 1 emptyDB).2
    ∧ ∃ response,
        answer smallWorld 1 = Some response
        ∧ rows = wrRow <$> (pushRecords ([], ∅) (data response)).1
        ∧ ∀ wr, wr ∈ (pushRecords ([], ∅) (data response)).1 →
            is_Some (users before !! userId wr).
Proof.
  destruct (refreshWRs smallWorld 1 emptyDB) as [[r db'] evs] eqn:Hrun.
  assert (∃ rows before, evs !! 12%nat = Some (EvQuery (UpsertGlobals rows) before))
    as (rows & before & Hlookup).
  { vm_compute in Hrun. injection Hrun as <- <- <-. eexists _, _. reflexivity. }
  exists rows, before.
  assert (EvQuery (UpsertGlobals rows) before ∈ evs) as Hin
    by (by apply list_elem_of_lookup_2 with 12%nat).
  split; [exact Hin|].
  destruct (refresh_write_after_users_and_maps smallWorld 1 emptyDB r db' evs
              rows before Hrun Hin) as (response & Hans & Hrows & _ & Husers & _).
  exists response. split; [exact Hans|]. split; [exact Hrows|exact Husers].
Defined.

(** C7 on [smallWorld] and the empty store: the second refresh goes
    through and leaves the store of the first. *)
Lemma repeated_write_changes_nothing_witness :
  keysAgree (globals emptyDB) ∧ slotsUnique (globals emptyDB)
  ∧ ∃ db1 evs1 evs2,
      refreshWRs smallWorld 1 emptyDB = (Ok true, db1, evs1)
      ∧ refreshWRs smallWorld 1 db1 = (Ok true, db1, evs2)
      ∧ slotsUnique (globals db1).
Proof.
  assert (keysAgree (globals emptyDB)) as Hk by (intros k r Hr; discriminate Hr).
  assert (slotsUnique (globals emptyDB)) as Hs
    by (intros k1 k2 r1 r2 Hr; discriminate Hr).
  split; [exact Hk|]. split; [exact Hs|].
  destruct (repeated_write_changes_nothing smallWorld 1 emptyDB) as [_ Hrefresh].
  destruct (refreshWRs smallWorld 1 emptyDB) as [[r1 db1] evs1] eqn:Hrun.
  destruct (Hrefresh Hk Hs r1 db1 evs1 eq_refl) as (_ & Hs1 & Hagain).
  assert (r1 = Ok true) as ->
    by (vm_compute in Hrun; injection Hrun as <- _ _; reflexivity).
  destruct (Hagain eq_refl) as [evs2 Hrun2].
  exists db1, evs1, evs2. split; [reflexivity|]. split; [exact Hrun2|exact Hs1].
Defined.

(** * Further properties of the engine *)

(** ** What [loadAllWRs] returns, and when it does not return *)

Lemma fetched_app l1 l2 : fetched (l1 ++ l2) = fetched l1 ++ fetched l2.
Proof.
  induction l1 as [|r l1 IH]; [done|].
  cbn [app]. by rewrite !fetched_cons, IH, app_assoc.
Qed.

Lemma exhausted_app l1 l2 :
  exhausted (l1 ++ l2) ↔ exhausted l1 ∨ exhausted l2.
Proof.
  unfold exhausted. split.
  - intros (r & Hin & Hr). apply elem_of_app in Hin as [Hin|Hin]; eauto.
  - intros [(r & Hin & Hr)|(r & Hin & Hr)]; exists r; split; try done;
      apply elem_of_app; eauto.
Qed.

Lemma resolvedAt_seqZ (world : World) (page : Z) :
  resolvedAt world page = answer world <$> seqZ page 5.
Proof. unfold resolvedAt. by rewrite burstPages_seqZ. Qed.

Lemma seqZ_next_burst (page : Z) (m : nat) :
  seqZ page (5 * (Z.of_nat (S m) + 1))
  = seqZ page 5 ++ seqZ (page + 5) (5 * (Z.of_nat m + 1)).
Proof.
  replace (5 * (Z.of_nat (S m) + 1)) with (5 + 5 * (Z.of_nat m + 1)) by lia.
  by rewrite seqZ_app by lia.
Qed.

Section Returns.
Context (world : World).

Lemma continuing_turn_pages (v : LoopVars) (page : Z) :
  let w := foldl handleResponse v (resolvedAt world page) in
  let low := bool_decide (burstRemaining w < 70) in
  requestedPages
    (roundEvents world page
     ++ (if low then [EvLog LogSleeping; EvSleep 60000] else []))
  = seqZ page 5.
Proof.
  cbv zeta. rewrite requestedPages_app, roundEvents_pages, burstPages_seqZ.
  destruct (bool_decide _); by rewrite app_nil_r.
Qed.

(** From any turn on: when the loop returns, it has run through some
    bursts without an empty page and then one with an empty page, and it
    returns what the seen-set loop makes of all their records. *)
Lemma loop_returns (fuel : nat) : ∀ v page batch evs,
  hasMore v = true →
  loadAllWRs_loop world fuel v page = (Ok batch, evs) →
  ∃ m : nat,
    (m < fuel)%nat
    ∧ requestedPages evs = seqZ page (5 * (Z.of_nat m + 1))
    ∧ batch = (pushRecords (wrs v, timeIds v)
                 (fetched (answer world <$> seqZ page (5 * (Z.of_nat m + 1))))).1
    ∧ exhausted (answer world <$> seqZ (page + 5 * Z.of_nat m) 5)
    ∧ ¬ exhausted (answer world <$> seqZ page (5 * Z.of_nat m)).
Proof.
  induction fuel as [|fuel IH]; intros v page batch evs Hmore Hrun; [done|].
  destruct (exhausted_or_not (resolvedAt world page)) as [Hexh|Hexh].
  - rewrite exhausted_turn in Hrun by done. injection Hrun as <- <-.
    exists 0%nat. rewrite resolvedAt_seqZ in *.
    replace (page + 5 * Z.of_nat 0) with page by lia.
    split; [lia|]. split; [by rewrite roundEvents_pages, burstPages_seqZ|].
    split.
    { replace (5 * (Z.of_nat 0 + 1)) with 5 by lia.
      rewrite <- resolvedAt_seqZ. reflexivity. }
    split; [done|]. intros (r & Hin & _). inversion Hin.
  - destruct (continuing_turn world fuel v page Hmore Hexh)
      as (Hstep & Hmore' & Hacc).
    cbv zeta in Hstep, Hmore', Hacc.
    set (w := foldl handleResponse v (resolvedAt world page)) in *.
    set (v' := if bool_decide (burstRemaining w < 70) then resetBurst w else w)
      in *.
    rewrite Hstep in Hrun.
    destruct (loadAllWRs_loop world fuel v' (page + 5)) as [res evs'] eqn:Hrest.
    cbn [fst snd] in Hrun. apply pair_equal_spec in Hrun as [-> <-].
    destruct (IH v' (page + 5) batch evs' Hmore' Hrest)
      as (m & Hm & Hpages & Hbatch & Hlast & Hbefore).
    exists (S m). split; [lia|].
    rewrite seqZ_next_burst, fmap_app, fetched_app, <- resolvedAt_seqZ.
    split; [|split; [|split]].
    + rewrite requestedPages_app, Hpages. f_equal.
      apply (continuing_turn_pages v page).
    + by rewrite <- pushRecords_app, <- Hacc.
    + by replace (page + 5 * Z.of_nat (S m)) with (page + 5 + 5 * Z.of_nat m)
        by lia.
    + replace (5 * Z.of_nat (S m)) with (5 + 5 * Z.of_nat m) by lia.
      rewrite seqZ_app, fmap_app, exhausted_app, <- resolvedAt_seqZ by lia.
      tauto.
Qed.

(** X1. Whenever [loadAllWRs] returns, it has asked for the pages of m + 1
    bursts; the last burst holds an empty page and no burst before it does;
    and the batch is the list of the first occurrences, by [timeId], of the
    records of all answered pages of these bursts, in the order of the
    pages, so no [timeId] is in it twice. *)
Theorem loadAllWRs_returns (fuel : nat) batch evs :
  loadAllWRs world fuel = (Ok batch, evs) →
  ∃ m : nat,
    (m < fuel)%nat
    ∧ requestedPages evs = seqZ 1 (5 * (Z.of_nat m + 1))
    ∧ batch = toRecord <$> firstOccurrences api_id
                (fetched (answer world <$> seqZ 1 (5 * (Z.of_nat m + 1))))
    ∧ NoDup (timeId <$> batch)
    ∧ exhausted (answer world <$> seqZ (1 + 5 * Z.of_nat m) 5)
    ∧ ¬ exhausted (answer world <$> seqZ 1 (5 * Z.of_nat m)).
Proof.
  intros Hrun.
  destruct (loop_returns fuel initialVars 1 batch evs eq_refl Hrun)
    as (m & Hm & Hpages & Hbatch & Hlast & Hbefore).
  exists m. cbn [wrs timeIds initialVars] in Hbatch.
  rewrite pushRecords_fresh in Hbatch. cbn [fst] in Hbatch.
  repeat split; try done.
  rewrite Hbatch, timeId_toRecord. apply firstOccurrences_NoDup.
Qed.

Lemma foldl_handleResponse_none (v : LoopVars) resolved :
  Forall (λ r, r = None) resolved → foldl handleResponse v resolved = v.
Proof.
  induction 1 as [|r resolved -> _ IH]; [done|]. cbn [foldl handleResponse].
  exact IH.
Qed.

Lemma loop_never_returns (fuel : nat) : ∀ v page,
  hasMore v = true → 1 ≤ page →
  (∀ p r, 1 ≤ p → answer world p = Some r → data r ≠ []) →
  (loadAllWRs_loop world fuel v page).1 = OutOfFuel
  ∧ requestedPages (loadAllWRs_loop world fuel v page).2
    = seqZ page (5 * Z.of_nat fuel).
Proof.
  induction fuel as [|fuel IH]; intros v page Hmore Hpage Hfull; [done|].
  assert (¬ exhausted (resolvedAt world page)) as Hexh.
  { intros (r & Hr & Hdata). apply resolvedAt_inv in Hr as (p & Hp & Hr).
    by apply (Hfull p r ltac:(lia)). }
  destruct (continuing_turn world fuel v page Hmore Hexh) as (-> & Hmore' & _).
  cbv zeta in *. cbn [fst snd].
  destruct (IH _ (page + 5) Hmore' ltac:(lia) Hfull) as [-> Hpages].
  split; [done|].
  rewrite requestedPages_app, Hpages, (continuing_turn_pages v page).
  replace (5 * Z.of_nat (S fuel)) with (5 + 5 * Z.of_nat fuel) by lia.
  by rewrite seqZ_app by lia.
Qed.

Lemma loop_never_sleeps (fuel : nat) : ∀ v page,
  hasMore v = true → 70 ≤ burstRemaining v →
  (∀ p, answer world p = None) →
  Forall (λ e, ¬ isSleep e) (loadAllWRs_loop world fuel v page).2.
Proof.
  induction fuel as [|fuel IH]; intros v page Hmore Hburst Hdown; [constructor|].
  assert (Forall (λ r, r = None) (resolvedAt world page)) as Hnone.
  { apply Forall_forall. intros r Hr.
    apply resolvedAt_inv in Hr as (p & _ & ->). apply Hdown. }
  assert (¬ exhausted (resolvedAt world page)) as Hexh.
  { intros (r & Hr & _).
    by pose proof (proj1 (Forall_forall _ _) Hnone _ Hr). }
  destruct (continuing_turn world fuel v page Hmore Hexh) as (-> & _ & _).
  cbv zeta. rewrite foldl_handleResponse_none by done.
  rewrite bool_decide_false by lia. cbn [fst snd].
  rewrite app_nil_r. apply Forall_app. split; [apply roundEvents_no_sleep|].
  by apply IH.
Qed.

(** X2. When no page the source answers is empty, [loadAllWRs] does not
    return: whatever the fuel, it is used up, and the loop has asked for
    five pages per unit of it.  When every request fails, the loop does
    not sleep between the bursts either. *)
Theorem loadAllWRs_never_returns (fuel : nat) :
  (∀ p r, 1 ≤ p → answer world p = Some r → data r ≠ []) →
  (loadAllWRs world fuel).1 = OutOfFuel
  ∧ requestedPages (loadAllWRs world fuel).2 = seqZ 1 (5 * Z.of_nat fuel)
  ∧ ((∀ p, answer world p = None) →
     Forall (λ e, ¬ isSleep e) (loadAllWRs world fuel).2).
Proof.
  intros Hfull.
  destruct (loop_never_returns fuel initialVars 1 eq_refl ltac:(lia) Hfull)
    as [Hres Hpages].
  split; [exact Hres|]. split; [exact Hpages|].
  intros Hdown. apply loop_never_sleeps; [done|cbn; lia|done].
Qed.

End Returns.

(** ** The map catalogue [loadMaps] builds *)

Section LoadMaps.
Context (world : World).

Lemma Net_bind_tryGetMaps {B} (i : Z)
    (f : option (AxiosResponse (list ApiMap)) → Net B) :
  (tryGetMaps world "map" i 100 ≫= f)
  = ((f (mapAnswer world i)).1,
     (tryGetMaps world "map" i 100).2 ++ (f (mapAnswer world i)).2).
Proof. unfold tryGetMaps. by rewrite Net_bind_tryGetRequest. Qed.

Lemma Net_bind_tryGetThumbnails {B} (assetIds : list Z) (size : string)
    (f : option (AxiosResponse (list ApiAsset)) → Net B) :
  (tryGetThumbnails world assetIds size "Webp" ≫= f)
  = ((f (thumbAnswer world assetIds size)).1,
     (tryGetThumbnails world assetIds size "Webp").2
     ++ (f (thumbAnswer world assetIds size)).2).
Proof. unfold tryGetThumbnails. by rewrite Net_bind_tryGetRequest. Qed.

(** One turn of [while (true)], evaluated. *)
Lemma loadMaps_loop_step (fuel : nat) (i : Z) (maps : list StrafesMap) :
  loadMaps_loop world (S fuel) i maps =
  match mapAnswer world i with
  | None => (Ok [], (tryGetMaps world "map" i 100).2)
  | Some mapRes =>
      if bool_decide (Z.of_nat (length (data mapRes)) < 1)
      then (Ok maps, (tryGetMaps world "map" i 100).2)
      else
        let evs :=
          (tryGetMaps world "map" i 100).2
          ++ (tryGetThumbnails world (assetIdsOf (data mapRes)) "420x420" "Webp").2
          ++ (tryGetThumbnails world (assetIdsOf (data mapRes)) "75x75" "Webp").2
        in
        let maps' := maps ++ convertPage world (data mapRes) in
        if bool_decide (Z.of_nat (length (data mapRes)) < 100)
        then (Ok maps', evs)
        else ((loadMaps_loop world fuel (i + 1) maps').1,
              evs ++ (loadMaps_loop world fuel (i + 1) maps').2)
  end.
Proof.
  cbn [loadMaps_loop]. rewrite Net_bind_tryGetMaps. cbv beta zeta.
  destruct (mapAnswer world i) as [mapRes|].
  2: { cbn [fst snd mret Net_ret]. by rewrite app_nil_r. }
  case_bool_decide.
  { cbn [fst snd mret Net_ret]. by rewrite app_nil_r. }
  rewrite Net_bind_tryGetThumbnails. cbv beta zeta.
  rewrite Net_bind_tryGetThumbnails. cbv beta zeta. cbn [fst snd].
  fold (convertPage world (data mapRes)).
  destruct (bool_decide (Z.of_nat (length (data mapRes)) < 100)).
  - cbn [fst snd mret Net_ret]. by rewrite app_nil_r.
  - by rewrite <- !app_assoc.
Qed.

(** The maps [loadMaps] builds for a page of the endpoint. *)
Lemma clearThumbs_toStrafesMap t (map : ApiMap) :
  clearThumbs (toStrafesMap t map) = toStrafesMap ∅ map.
Proof.
  unfold clearThumbs, toStrafesMap. cbn. f_equal.
  - destruct (hasThumbnail (am_thumbnail map)); [|done].
    by destruct (am_thumbnail map).
  - destruct (hasThumbnail (am_thumbnail map)); [|done].
    by destruct (am_thumbnail map).
Qed.

Lemma clearThumbs_convertPage (data : list ApiMap) :
  clearThumbs <$> convertPage world data = toStrafesMap ∅ <$> data.
Proof.
  unfold convertPage. rewrite <- list_fmap_compose.
  apply list_fmap_ext. intros _ map _. apply clearThumbs_toStrafesMap.
Qed.

Lemma clearThumbs_pages (pages : list Z) :
  clearThumbs <$> (pages ≫= (λ p,
     match mapAnswer world p with
     | Some r => convertPage world (data r)
     | None => []
     end))
  = toStrafesMap ∅ <$> (pages ≫= (λ p,
     match mapAnswer world p with Some r => data r | None => [] end)).
Proof.
  induction pages as [|p pages IH]; [done|].
  rewrite !bind_cons, !fmap_app, IH. f_equal.
  destruct (mapAnswer world p); [apply clearThumbs_convertPage|done].
Qed.

(** From page [i] on, with full pages up to a short page [K]. *)
Lemma loadMaps_loop_short (K : Z) (short : AxiosResponse (list ApiMap)) :
  mapAnswer world K = Some short →
  Z.of_nat (length (data short)) < 100 →
  ∀ (n : nat) i maps,
    i ≤ K < i + Z.of_nat n →
    (∀ p, i ≤ p < K →
       ∃ r, mapAnswer world p = Some r ∧ 100 ≤ Z.of_nat (length (data r))) →
    ∃ evs, ∀ fuel, (n ≤ fuel)%nat →
      loadMaps_loop world fuel i maps
      = (Ok (maps ++ (seqZ i (K - i + 1) ≫= (λ p,
               match mapAnswer world p with
               | Some r => convertPage world (data r)
               | None => []
               end))), evs).
Proof.
  intros HK Hshort. induction n as [|n IH]; intros i maps Hrange Hfull; [lia|].
  destruct (decide (i = K)) as [->|Hne].
  - replace (K - K + 1) with 1 by lia.
    rewrite (seqZ_cons K) by lia. change (Z.pred 1) with 0.
    rewrite seqZ_nil by lia. rewrite bind_singleton, HK.
    destruct (decide (Z.of_nat (length (data short)) < 1)) as [Hempty|Hsome].
    + assert (convertPage world (data short) = []) as ->.
      { unfold convertPage.
        destruct (data short); [done|simpl in Hempty; lia]. }
      rewrite app_nil_r.
      eexists. intros [|fuel] Hfuel; [lia|].
      rewrite loadMaps_loop_step, HK.
      rewrite (bool_decide_true (_ < 1)) by done. reflexivity.
    + eexists. intros [|fuel] Hfuel; [lia|].
      rewrite loadMaps_loop_step, HK. cbv zeta.
      rewrite (bool_decide_true (_ < 100)) by done.
      rewrite (bool_decide_false (_ < 1)) by done. reflexivity.
  - destruct (Hfull i ltac:(lia)) as (r & Hr & Hlen).
    destruct (IH (i + 1) (maps ++ convertPage world (data r)) ltac:(lia))
      as [evs Hrun].
    { intros p Hp. apply Hfull. lia. }
    eexists. intros [|fuel] Hfuel; [lia|].
    rewrite loadMaps_loop_step, Hr. cbv zeta.
    rewrite !bool_decide_false by lia. rewrite Hrun by lia. cbn [fst snd].
    rewrite (seqZ_cons i) by lia.
    replace (Z.succ i) with (i + 1) by lia.
    replace (Z.pred (K - i + 1)) with (K - (i + 1) + 1) by lia.
    rewrite bind_cons, Hr, (app_assoc maps). reflexivity.
Qed.

(** From page [i] on, with full pages up to a failed request for page
    [K]. *)
Lemma loadMaps_loop_failure (K : Z) :
  mapAnswer world K = None →
  ∀ (n : nat) i maps,
    i ≤ K < i + Z.of_nat n →
    (∀ p, i ≤ p < K →
       ∃ r, mapAnswer world p = Some r ∧ 100 ≤ Z.of_nat (length (data r))) →
    ∀ fuel, (n ≤ fuel)%nat → (loadMaps_loop world fuel i maps).1 = Ok [].
Proof.
  intros HK. induction n as [|n IH]; intros i maps Hrange Hfull; [lia|].
  intros [|fuel] Hfuel; [lia|]. rewrite loadMaps_loop_step.
  destruct (decide (i = K)) as [->|Hne]; [by rewrite HK|].
  destruct (Hfull i ltac:(lia)) as (r & -> & Hlen). cbv zeta.
  rewrite !bool_decide_false by lia. cbn [fst].
  apply IH; [lia| |lia]. intros p Hp. apply Hfull. lia.
Qed.

(** X3. When the map endpoint answers the pages [1] to [K - 1] with at
    least 100 maps each and page [K] with fewer than 100, [loadMaps]
    returns, whatever the thumbnail service does, and what it returns is,
    thumbnails apart, the maps of the pages [1] to [K] in their order. *)
Theorem loadMaps_catalogue (K : Z) (short : AxiosResponse (list ApiMap)) :
  1 ≤ K →
  mapAnswer world K = Some short →
  Z.of_nat (length (data short)) < 100 →
  (∀ p, 1 ≤ p < K →
     ∃ r, mapAnswer world p = Some r ∧ 100 ≤ Z.of_nat (length (data r))) →
  ∃ cat,
    (∀ fuel, (Z.to_nat K ≤ fuel)%nat → (loadMaps world fuel).1 = Ok cat)
    ∧ clearThumbs <$> cat = toStrafesMap ∅ <$> listedMaps world K.
Proof.
  intros HK Hshort Hlen Hfull.
  destruct (loadMaps_loop_short K short Hshort Hlen (Z.to_nat K) 1 [])
    as [evs Hrun]; [lia|done|].
  eexists. split.
  - intros fuel Hfuel. unfold loadMaps. by rewrite Hrun.
  - rewrite app_nil_l. replace (K - 1 + 1) with K by lia.
    apply clearThumbs_pages.
Qed.

(** X4. When the request for a page of maps fails after full pages,
    [loadMaps] returns the empty array: the maps of the pages before are
    dropped. *)
Theorem loadMaps_failure_discards (K : Z) :
  1 ≤ K →
  mapAnswer world K = None →
  (∀ p, 1 ≤ p < K →
     ∃ r, mapAnswer world p = Some r ∧ 100 ≤ Z.of_nat (length (data r))) →
  ∀ fuel, (Z.to_nat K ≤ fuel)%nat → (loadMaps world fuel).1 = Ok [].
Proof.
  intros HK Hfail Hfull fuel Hfuel. unfold loadMaps.
  apply (loadMaps_loop_failure K Hfail (Z.to_nat K)); [lia|done|done].
Qed.

(** What the two loops over the thumbnail responses leave in
    [assetToThumb]. *)
Lemma foldl_setLarge_lookup (assets : list ApiAsset) : ∀ t a,
  foldl setLarge t assets !! a
  = match last (filter (λ x, targetId x = a) assets) with
    | Some x => Some {["large" := imageUrl x]}
    | None => t !! a
    end.
Proof.
  induction assets as [|x assets IH] using rev_ind; intros t a; [done|].
  rewrite foldl_app, filter_app, last_app. cbn [foldl]. unfold setLarge at 1.
  destruct (decide (targetId x = a)) as [<-|Hne].
  - rewrite filter_cons_True, filter_nil by done. cbn [last].
    by rewrite lookup_insert_eq.
  - rewrite filter_cons_False, filter_nil by done. cbn [last].
    rewrite lookup_insert_ne by done. apply IH.
Qed.

Lemma foldl_setSmall_small (assets : list ApiAsset) : ∀ t a,
  foldl setSmall t assets !! a ≫= (λ urls, urls !! "small")
  = match last (imageUrl <$> filter (λ x, targetId x = a) assets) with
    | Some url => Some url
    | None => t !! a ≫= (λ urls, urls !! "small")
    end.
Proof.
  induction assets as [|x assets IH] using rev_ind; intros t a; [done|].
  rewrite foldl_app, filter_app, fmap_app, last_app. cbn [foldl].
  unfold setSmall at 1.
  destruct (decide (targetId x = a)) as [<-|Hne].
  - rewrite filter_cons_True, filter_nil by done. cbn [fmap list_fmap last].
    destruct (foldl setSmall t assets !! targetId x);
      rewrite lookup_insert_eq; cbn; [by rewrite lookup_insert_eq|done].
  - rewrite filter_cons_False, filter_nil by done. cbn [fmap list_fmap last].
    rewrite <- (IH t a).
    destruct (foldl setSmall t assets !! targetId x);
      by rewrite lookup_insert_ne.
Qed.

Lemma foldl_setSmall_large (assets : list ApiAsset) : ∀ t a,
  foldl setSmall t assets !! a ≫= (λ urls, urls !! "large")
  = t !! a ≫= (λ urls, urls !! "large").
Proof.
  induction assets as [|x assets IH] using rev_ind; intros t a; [done|].
  rewrite foldl_app. cbn [foldl]. unfold setSmall at 1. rewrite <- (IH t a).
  destruct (decide (targetId x = a)) as [<-|Hne].
  - destruct (foldl setSmall t assets !! targetId x) eqn:Hx;
      rewrite lookup_insert_eq; cbn; [|done].
    by rewrite lookup_insert_ne.
  - destruct (foldl setSmall t assets !! targetId x);
      by rewrite lookup_insert_ne.
Qed.

Lemma toStrafesMap_thumbs (large small : option (AxiosResponse (list ApiAsset)))
    (map : ApiMap) :
  let sm :=
    toStrafesMap (mergeThumbs setSmall (mergeThumbs setLarge ∅ large) small)
      map in
  sm_largeThumb sm = thumbOf map large ∧ sm_smallThumb sm = thumbOf map small.
Proof.
  cbv zeta. unfold toStrafesMap, thumbOf. cbn [sm_largeThumb sm_smallThumb].
  destruct (hasThumbnail (am_thumbnail map)); [|done].
  destruct (am_thumbnail map) as [a|]; [|done]. cbn [mbind option_bind].
  assert (∀ key, mergeThumbs setLarge ∅ large !! a
                 ≫= (λ urls : gmap string string, urls !! key)
          = if decide (key = "large") then urlFor a large else None) as Hlarge.
  { intros key. unfold mergeThumbs, urlFor. destruct large as [req|]; cbn.
    - rewrite foldl_setLarge_lookup, fmap_last.
      destruct (last _) as [x|]; cbn.
      + destruct (decide (key = "large")) as [->|Hne].
        * by rewrite lookup_singleton_eq.
        * by rewrite lookup_singleton_ne.
      + rewrite lookup_empty. cbn. by destruct (decide _).
    - rewrite lookup_empty. cbn. by destruct (decide _). }
  split.
  - destruct small as [req|]; cbn [mergeThumbs].
    + rewrite foldl_setSmall_large. by rewrite (Hlarge "large").
    + by rewrite (Hlarge "large").
  - destruct small as [req|]; cbn [mergeThumbs urlFor mbind option_bind].
    + rewrite foldl_setSmall_small. rewrite (Hlarge "small").
      by destruct (last _).
    + by rewrite (Hlarge "small").
Qed.

Lemma loadMaps_loop_thumbs (fuel : nat) : ∀ i maps cat,
  (loadMaps_loop world fuel i maps).1 = Ok cat →
  ∀ sm, sm ∈ cat →
    sm ∈ maps
    ∨ ∃ r map,
        (∃ p, mapAnswer world p = Some r)
        ∧ map ∈ data r
        ∧ clearThumbs sm = toStrafesMap ∅ map
        ∧ sm_largeThumb sm
          = thumbOf map (thumbAnswer world (assetIdsOf (data r)) "420x420")
        ∧ sm_smallThumb sm
          = thumbOf map (thumbAnswer world (assetIdsOf (data r)) "75x75").
Proof.
  induction fuel as [|fuel IH]; intros i maps cat Hrun sm Hsm; [done|].
  rewrite loadMaps_loop_step in Hrun.
  destruct (mapAnswer world i) as [r|] eqn:Hr.
  2: { injection Hrun as <-. by apply elem_of_nil in Hsm. }
  case_bool_decide; [injection Hrun as <-; by left|]. cbv zeta in Hrun.
  assert (sm ∈ maps ++ convertPage world (data r) → sm ∈ maps ∨ ∃ r map,
        (∃ p, mapAnswer world p = Some r)
        ∧ map ∈ data r
        ∧ clearThumbs sm = toStrafesMap ∅ map
        ∧ sm_largeThumb sm
          = thumbOf map (thumbAnswer world (assetIdsOf (data r)) "420x420")
        ∧ sm_smallThumb sm
          = thumbOf map (thumbAnswer world (assetIdsOf (data r)) "75x75"))
    as Hpage.
  { intros [Hold|Hnew]%elem_of_app; [by left|right].
    unfold convertPage in Hnew.
    apply list_elem_of_fmap in Hnew as (map & -> & Hmap).
    exists r, map. split; [by exists i|]. split; [done|].
    split; [apply clearThumbs_toStrafesMap|]. apply toStrafesMap_thumbs. }
  case_bool_decide.
  - injection Hrun as <-. by apply Hpage.
  - cbn [fst] in Hrun. destruct (IH _ _ _ Hrun sm Hsm) as [Hacc|Hnew].
    + by apply Hpage.
    + by right.
Qed.

(** X5. Every map [loadMaps] returns comes from a map of an answered page
    of the map endpoint, and its thumbnails are the urls of the last
    entries for its asset in the two responses of the thumbnail service
    for that page: none when the map has no thumbnail, when the request
    failed or when the response lists no entry for the asset. *)
Theorem catalogue_thumbnails_from_service (fuel : nat) (cat : list StrafesMap)
    (sm : StrafesMap) :
  (loadMaps world fuel).1 = Ok cat →
  sm ∈ cat →
  ∃ r map,
    (∃ p, mapAnswer world p = Some r)
    ∧ map ∈ data r
    ∧ clearThumbs sm = toStrafesMap ∅ map
    ∧ sm_largeThumb sm
      = thumbOf map (thumbAnswer world (assetIdsOf (data r)) "420x420")
    ∧ sm_smallThumb sm
      = thumbOf map (thumbAnswer world (assetIdsOf (data r)) "75x75").
Proof.
  intros Hrun Hsm.
  destruct (loadMaps_loop_thumbs fuel 1 [] cat Hrun sm Hsm) as [Hnil|Hres];
    [by apply elem_of_nil in Hnil|done].
Qed.

End LoadMaps.

Lemma loadMaps_loop_catalogueOf (world world' : World) :
  (∀ p, mapsApi world "map" p 100 = mapsApi world' "map" p 100) →
  ∀ fuel i maps maps',
    clearThumbs <$> maps = clearThumbs <$> maps' →
    catalogueOf (loadMaps_loop world fuel i maps).1
    = catalogueOf (loadMaps_loop world' fuel i maps').1.
Proof.
  intros Hsame. induction fuel as [|fuel IH]; intros i maps maps' Hmaps; [done|].
  rewrite !loadMaps_loop_step. unfold mapAnswer. rewrite <- Hsame.
  destruct (mapsApi world "map" i 100) as [cause|mapRes]; [done|].
  case_bool_decide; [by cbn; rewrite Hmaps|]. cbv zeta.
  assert (clearThumbs <$> maps ++ convertPage world (data mapRes)
          = clearThumbs <$> maps' ++ convertPage world' (data mapRes)) as Hnext.
  { by rewrite !fmap_app, Hmaps, !clearThumbs_convertPage. }
  case_bool_decide; [by cbn; rewrite Hnext|].
  cbn [fst]. by apply IH.
Qed.

(** X6. The thumbnail service decides nothing but the two thumbnails:
    against two worlds whose map endpoints agree, [loadMaps] ends the same
    way and, when it returns, with the same maps, thumbnails apart. *)
Theorem loadMaps_thumbnails_only_set_thumbs (world world' : World)
    (fuel : nat) :
  (∀ p, mapsApi world "map" p 100 = mapsApi world' "map" p 100) →
  catalogueOf (loadMaps world fuel).1 = catalogueOf (loadMaps world' fuel).1.
Proof.
  intros Hsame. unfold loadMaps. by apply loadMaps_loop_catalogueOf.
Qed.

(** ** The run as a whole *)

Lemma Db_bind_Forall {A B} (P : Event → Prop) (m : Db A) (f : A → Db B)
    (db : DB) :
  Forall P (m db).2 → (∀ a db1, Forall P (f a db1).2) →
  Forall P ((m ≫= f) db).2.
Proof.
  intros Hm Hf. rewrite Db_bind_eq.
  destruct (m db) as [[[a| |] db1] ev1]; cbn [fst snd] in *; [|done|done].
  specialize (Hf a db1). destruct (f a db1) as [[r db2] ev2].
  cbn [fst snd] in *. by apply Forall_app.
Qed.


Lemma query_events (q : Stmt) (db : DB) : (query q db).2 = [EvQuery q db].
Proof. rewrite query_eq. by destruct (runStmt db q) as [e|[r db']]. Qed.




Ltac engine_events :=
  repeat first
    [ apply Forall_nil_2
    | apply Forall_cons; split;
      [unfold engineEvent; cbn; repeat split; first [done|auto]|] ].

Section WholeRun.
Context (world : World).

Lemma tryGetStrafes_engine (page : Z) :
  Forall (engineEvent world) (pageEvents world page).
Proof.
  unfold pageEvents, tryGetStrafes. rewrite tryGetRequest_eq.
  destruct (strafesApi world _ _ _); engine_events.
Qed.

Lemma tryGetMaps_engine (i : Z) :
  Forall (engineEvent world) (tryGetMaps world "map" i 100).2.
Proof.
  unfold tryGetMaps. rewrite tryGetRequest_eq.
  destruct (mapsApi world _ _ _); engine_events.
Qed.

Lemma tryGetThumbnails_engine (assetIds : list Z) (size : string) :
  size = "420x420" ∨ size = "75x75" →
  Forall (engineEvent world) (tryGetThumbnails world assetIds size "Webp").2.
Proof.
  intros Hsize. unfold tryGetThumbnails. rewrite tryGetRequest_eq.
  destruct (thumbnailsApi world _ _ _); engine_events.
Qed.

Lemma loadAllWRs_loop_engine (fuel : nat) : ∀ v page,
  Forall (engineEvent world) (loadAllWRs_loop world fuel v page).2.
Proof.
  induction fuel as [|fuel IH]; intros v page; [constructor|].
  destruct (hasMore v) eqn:Hmore.
  2: { cbn [loadAllWRs_loop]. rewrite Hmore. constructor. }
  assert (Forall (engineEvent world) (roundEvents world page)) as Hround.
  { unfold roundEvents. constructor; [by split|].
    apply Forall_bind, Forall_forall. intros p _. apply tryGetStrafes_engine. }
  rewrite loadAllWRs_loop_step, loadAllWRs_body_eq by done. cbv zeta.
  destruct (negb _); [done|].
  destruct (bool_decide _); cbn [snd]; rewrite ?Forall_app; repeat split;
    try done; try apply IH.
  engine_events.
Qed.

Lemma loadMaps_loop_engine (fuel : nat) : ∀ i maps,
  Forall (engineEvent world) (loadMaps_loop world fuel i maps).2.
Proof.
  induction fuel as [|fuel IH]; intros i maps; [constructor|].
  rewrite loadMaps_loop_step.
  destruct (mapAnswer world i) as [r|]; [|apply tryGetMaps_engine].
  case_bool_decide; [apply tryGetMaps_engine|]. cbv zeta.
  assert (Forall (engineEvent world)
            ((tryGetMaps world "map" i 100).2
             ++ (tryGetThumbnails world (assetIdsOf (data r)) "420x420"
                   "Webp").2
             ++ (tryGetThumbnails world (assetIdsOf (data r)) "75x75"
                   "Webp").2)) as Hpage.
  { rewrite !Forall_app. split; [apply tryGetMaps_engine|].
    split; apply tryGetThumbnails_engine; auto. }
  case_bool_decide; [done|]. cbn [snd]. apply Forall_app. split; [done|].
  apply IH.
Qed.

Lemma insertUsers_engine (wrs : list WR) (db : DB) :
  Forall (engineEvent world) (insertUsers wrs db).2.
Proof.
  apply Db_bind_Forall.
  - rewrite query_events. by repeat constructor.
  - intros a db1. by repeat constructor.
Qed.

Lemma wrsHaveMapsLoaded_engine (wrs : list WR) (db : DB) :
  Forall (engineEvent world) (wrsHaveMapsLoaded wrs db).2.
Proof.
  apply Db_bind_Forall.
  - rewrite query_events. by repeat constructor.
  - intros a db1. constructor.
Qed.

Lemma updateMaps_engine (fuel : nat) (db : DB) :
  Forall (engineEvent world) (updateMaps world fuel db).2.
Proof.
  apply Db_bind_Forall; [apply loadMaps_loop_engine|]. intros cat db1.
  unfold notArray. apply Db_bind_Forall.
  { rewrite query_events. by repeat constructor. }
  intros _ db2. apply Db_bind_Forall.
  { rewrite query_events. by repeat constructor. }
  intros r db3. apply Db_bind_Forall; [by repeat constructor|].
  intros _ db4. constructor.
Qed.

Lemma refreshWRs_engine (fuel : nat) (db : DB) :
  Forall (engineEvent world) (refreshWRs world fuel db).2.
Proof.
  apply Db_bind_Forall; [apply tryGetStrafes_engine|].
  intros [response|] db1; [|constructor].
  apply Db_bind_Forall; [apply insertUsers_engine|]. intros _ db2.
  apply Db_bind_Forall; [apply wrsHaveMapsLoaded_engine|]. intros loaded db3.
  apply Db_bind_Forall.
  { destruct loaded; cbn [negb]; [constructor|].
    apply Db_bind_Forall; [apply updateMaps_engine|]. intros; constructor. }
  intros [] db4; [constructor|].
  apply Db_bind_Forall.
  { rewrite query_events. by repeat constructor. }
  intros r db5. apply Db_bind_Forall; [by repeat constructor|].
  intros; constructor.
Qed.

Lemma seedWRs_engine (fuel : nat) (db : DB) :
  Forall (engineEvent world) (seedWRs world fuel db).2.
Proof.
  apply Db_bind_Forall; [apply updateMaps_engine|].
  intros [] db1; cbn [negb]; [|constructor].
  apply Db_bind_Forall; [apply loadAllWRs_loop_engine|]. intros wrs db2.
  apply Db_bind_Forall; [apply insertUsers_engine|]. intros _ db3.
  apply Db_bind_Forall.
  { rewrite query_events. by repeat constructor. }
  intros _ db4. apply Db_bind_Forall.
  { rewrite query_events. by repeat constructor. }
  intros r db5. apply Db_bind_Forall; [by repeat constructor|].
  intros; constructor.
Qed.






(** [main] once the settings are there, evaluated up to the outcome of the
    function of its mode. *)
Lemma main_eq (DB_USER DB_PASSWORD : option string) (args : list string)
    (fuel : nat) (db : DB) :
  configured world DB_USER DB_PASSWORD →
  main world DB_USER DB_PASSWORD args fuel db =
  match (match modeOf args with
         | Seed => seedWRs world fuel
         | Refresh => refreshWRs world fuel
         end) db with
  | (Ok success, db', evs) =>
      (Ok (if success : bool then 0 else 1), db',
       startup (modeOf args) db ++ evs ++ [EvEnd])
  | (Throw e, db', evs) => (Throw e, db', startup (modeOf args) db ++ evs)
  | (OutOfFuel, db', evs) => (OutOfFuel, db', startup (modeOf args) db ++ evs)
  end.
Proof.
  intros (Hu & Hp & Hk). unfold main. rewrite Hu, Hp, Hk. cbn [orb].
  cbv zeta. fold (modeOf args).
  rewrite Db_bind_eq. unfold lift at 1. cbn [console_log emit fst snd].
  rewrite Db_bind_eq, query_eq. cbn [runStmt].
  rewrite Db_bind_eq, query_eq. cbn [runStmt].
  rewrite Db_bind_eq, query_eq. cbn [runStmt].
  rewrite Db_bind_eq.
  destruct ((match modeOf args with
             | Seed => seedWRs world fuel
             | Refresh => refreshWRs world fuel
             end) db) as [[[success| |] db'] evs]; try reflexivity.
Qed.

Lemma main_unconfigured (DB_USER DB_PASSWORD : option string)
    (args : list string) (fuel : nat) (db : DB) :
  ¬ configured world DB_USER DB_PASSWORD →
  ∃ line, main world DB_USER DB_PASSWORD args fuel db = (Ok 1, db, [EvLog line]).
Proof.
  intros Hnot. unfold main.
  destruct (missing DB_USER) eqn:Hu; [by eexists|].
  destruct (missing DB_PASSWORD) eqn:Hp; [by eexists|].
  destruct (missing (STRAFES_KEY world)) eqn:Hk; [by eexists|].
  by destruct Hnot.
Qed.

Lemma configured_dec (DB_USER DB_PASSWORD : option string) :
  configured world DB_USER DB_PASSWORD ∨ ¬ configured world DB_USER DB_PASSWORD.
Proof.
  unfold configured.
  destruct (missing DB_USER), (missing DB_PASSWORD),
    (missing (STRAFES_KEY world)); intuition congruence.
Qed.

Lemma mode_engine (mode : Mode) (fuel : nat) (db : DB) :
  Forall (engineEvent world)
    ((match mode with
      | Seed => seedWRs world fuel
      | Refresh => refreshWRs world fuel
      end) db).2.
Proof. destruct mode; [apply seedWRs_engine|apply refreshWRs_engine]. Qed.


(** X7. Every request of a run, whatever the mode, the store and the
    answers of the services, has a timeout of three seconds; it asks
    either for a page of 100 of the world records or of the maps, with
    the API key, or for the thumbnails of a list of assets in one of the
    two sizes as Webp, from the thumbnail proxy and without the key. *)
Theorem requests_well_formed (DB_USER DB_PASSWORD : option string)
    (args : list string) (fuel : nat) (db : DB) :
  Forall (requestShape world) (main world DB_USER DB_PASSWORD args fuel db).2.
Proof.
  destruct (configured_dec DB_USER DB_PASSWORD) as [Hconf|Hnot].
  2: { destruct (main_unconfigured _ _ args fuel db Hnot) as [line ->].
       by repeat constructor. }
  rewrite main_eq by done.
  assert (Forall (requestShape world)
            ((match modeOf args with
              | Seed => seedWRs world fuel
              | Refresh => refreshWRs world fuel
              end) db).2) as Hmode.
  { eapply Forall_impl; [apply mode_engine|]. by intros e [He _]. }
  assert (Forall (requestShape world) (startup (modeOf args) db)) as Hstart
    by (by repeat constructor).
  destruct ((match modeOf args with
             | Seed => seedWRs world fuel
             | Refresh => refreshWRs world fuel
             end) db) as [[[success| |] db'] evs]; cbn [fst snd] in *;
    rewrite ?Forall_app; repeat split; try done.
  by apply Forall_singleton.
Qed.


End WholeRun.

(** ** How a run ends *)

Lemma snoc_two {A} (l : list A) (x y : A) : l ++ [x; y] = (l ++ [x]) ++ [y].
Proof. by rewrite <- app_assoc. Qed.

Lemma snoc_three {A} (l : list A) (x y z : A) :
  l ++ [x; y; z] = (l ++ [x; y]) ++ [z].
Proof. by rewrite <- app_assoc. Qed.

Section ExitCodes.
Context (world : World).

(** [refreshWRs] answers [false] only when the page did not arrive, and
    [true] only after the line about the written records. *)
Lemma refreshWRs_outcome (fuel : nat) (db db' : DB) (s : bool)
    (ev : list Event) :
  refreshWRs world fuel db = (Ok s, db', ev) →
  (s = false ∧ answer world 1 = None ∧ db' = db ∧ ev = pageEvents world 1)
  ∨ (s = true ∧ ∃ pre n, ev = pre ++ [EvLog (LogInsertedWRs n)]).
Proof.
  intros Hrun. destruct (answer world 1) as [response|] eqn:Hans.
  2: { rewrite refreshWRs_no_page in Hrun by done.
       apply pair_equal_spec in Hrun as [[[= <-] <-]%pair_equal_spec <-].
       by left. }
  right. rewrite (refreshWRs_eq world fuel db response Hans) in Hrun.
  cbv zeta in Hrun.
  destruct (runStmt db (UpsertUsers _)) as [e|[r1 db1]]; [done|].
  destruct (runStmt db1 (SelectMapIds _)) as [e|[r2 db2]]; [done|].
  destruct (bool_decide _).
  - destruct (runStmt db2 (UpsertGlobals _)) as [e|[rw dbw]]; [done|].
    apply pair_equal_spec in Hrun as [[[= <-] <-]%pair_equal_spec <-].
    split; [done|]. eexists _, _. apply snoc_two.
  - pose proof (updateMaps_never_false world fuel db2) as Hnever.
    destruct (updateMaps world fuel db2) as [[[[]| |] db3] ev3]; try done.
    destruct (runStmt db3 (UpsertGlobals _)) as [e|[rw dbw]]; [done|].
    apply pair_equal_spec in Hrun as [[[= <-] <-]%pair_equal_spec <-].
    split; [done|]. eexists _, _. apply snoc_two.
Qed.

(** [seedWRs] never answers [false]. *)
Lemma seedWRs_outcome (fuel : nat) (db db' : DB) (s : bool) (ev : list Event) :
  seedWRs world fuel db = (Ok s, db', ev) →
  s = true ∧ ∃ pre n, ev = pre ++ [EvLog (LogInsertedWRs n)].
Proof.
  rewrite seedWRs_eq. intros Hrun.
  pose proof (updateMaps_never_false world fuel db) as Hnever.
  destruct (updateMaps world fuel db) as [[[[]| |] dbA] ev1]; try done.
  destruct (loadAllWRs world fuel) as [[wrs| |] ev2]; try done.
  destruct (insertUsers wrs dbA) as [[[[]| |] dbB] ev3]; try done.
  rewrite seedWrite_eq in Hrun.
  destruct (runStmt (setGlobals dbB ∅) (InsertGlobals _)) as [e|[r dbD]];
    [done|].
  apply pair_equal_spec in Hrun as [[[= <-] <-]%pair_equal_spec <-].
  split; [done|]. eexists _, _. rewrite !app_assoc. apply snoc_three.
Qed.

(** X9. A run that ends normally sets one of two exit codes.  It sets 0
    only after the line about the written records, with the end of the
    connection as its last act.  It sets 1 in two cases only: a setting
    is missing, and then the run logs one line and touches neither the
    services nor the store; or, in refresh mode, the request for the page
    failed, and then nothing but the three [CREATE TABLE] statements was
    sent.  Seed mode never sets 1 once the settings are there. *)
Theorem main_exit_codes (DB_USER DB_PASSWORD : option string)
    (args : list string) (fuel : nat) (db db' : DB) (code : Z)
    (evs : list Event) :
  main world DB_USER DB_PASSWORD args fuel db = (Ok code, db', evs) →
  (code = 1 ∧ ¬ configured world DB_USER DB_PASSWORD ∧ db' = db
   ∧ ∃ line, evs = [EvLog line])
  ∨ (code = 1 ∧ configured world DB_USER DB_PASSWORD
     ∧ modeOf args = Refresh ∧ answer world 1 = None ∧ db' = db
     ∧ evs = startup Refresh db ++ pageEvents world 1 ++ [EvEnd])
  ∨ (code = 0 ∧ configured world DB_USER DB_PASSWORD
     ∧ ∃ pre n,
         evs = startup (modeOf args) db ++ pre
               ++ [EvLog (LogInsertedWRs n); EvEnd]).
Proof.
  intros Hrun.
  destruct (configured_dec world DB_USER DB_PASSWORD) as [Hconf|Hnot].
  2: { destruct (main_unconfigured world _ _ args fuel db Hnot) as [line Hmain].
       rewrite Hmain in Hrun.
       apply pair_equal_spec in Hrun as [[[= <-] <-]%pair_equal_spec <-].
       left. eauto. }
  right. rewrite main_eq in Hrun by done.
  destruct (modeOf args) eqn:Hmode.
  - destruct (seedWRs world fuel db) as [[[s| |] db1] ev] eqn:Hseed; try done.
    destruct (seedWRs_outcome fuel db db1 s ev Hseed) as (-> & pre & n & ->).
    apply pair_equal_spec in Hrun as [[[= <-] <-]%pair_equal_spec <-].
    right. split; [done|]. split; [done|]. exists pre, n.
    by rewrite <- (app_assoc pre).
  - destruct (refreshWRs world fuel db) as [[[s| |] db1] ev] eqn:Href;
      try done.
    destruct (refreshWRs_outcome fuel db db1 s ev Href)
      as [(-> & Hnone & -> & ->)|(-> & pre & n & ->)];
      apply pair_equal_spec in Hrun as [[[= <-] <-]%pair_equal_spec <-].
    + by left.
    + right. split; [done|]. split; [done|]. exists pre, n.
      by rewrite <- (app_assoc pre).
Qed.

End ExitCodes.

(** ** A failed fetch of the catalogue in refresh mode *)

Lemma not_query_not_writes (l : list Event) :
  Forall (λ e, ¬ isQuery e) l → Forall (λ e, ¬ writesGlobals e) l.
Proof.
  intros Hall. eapply Forall_impl; [exact Hall|].
  intros [] Hq Hw; simpl in *; tauto.
Qed.

Section CatalogueFailure.
Context (world : World).

(** [updateMaps] when [loadMaps] comes back with the empty array: the
    table is emptied and the insert without rows is rejected. *)
Lemma updateMaps_no_maps (fuel : nat) (dbm : DB) :
  (loadMaps world fuel).1 = Ok [] →
  updateMaps world fuel dbm
  = (Throw (QueryError ER_PARSE_ERROR), setMaps dbm ∅,
     (loadMaps world fuel).2
     ++ [EvQuery TruncateMaps dbm; EvQuery (InsertMaps []) (setMaps dbm ∅)]).
Proof.
  intros Hload. rewrite updateMaps_eq.
  destruct (loadMaps world fuel) as [res evs]. cbn [fst] in Hload.
  by subst res.
Qed.

(** C3. In refresh mode, with a record on the page whose map is not in
    [maps], a request for a page of the catalogue that fails is fatal to
    the run.  [loadMaps] answers the empty array, [updateMaps] empties
    [maps] and sends an insert without rows, and the rejection of that
    statement leaves [refreshWRs] and [main] with nobody to handle it:
    the process ends with the status 1, the connection is not ended, and
    no statement that writes rows of [globals] was sent, so [globals] is
    as it was. *)
Theorem map_fetch_failure_is_fatal (DB_USER DB_PASSWORD : option string)
    (args : list string) (fuel : nat) (db : DB)
    (response : AxiosResponse (list ApiTime)) (wr : WR) (K : Z) :
  configured world DB_USER DB_PASSWORD →
  modeOf args = Refresh →
  answer world 1 = Some response →
  wr ∈ (pushRecords ([], ∅) (data response)).1 →
  maps db !! mapId wr = None →
  1 ≤ K →
  mapAnswer world K = None →
  (∀ p, 1 ≤ p < K →
     ∃ r, mapAnswer world p = Some r ∧ 100 ≤ Z.of_nat (length (data r))) →
  (Z.to_nat K ≤ fuel)%nat →
  ∃ db' evs,
    main world DB_USER DB_PASSWORD args fuel db
    = (Throw (QueryError ER_PARSE_ERROR), db', evs)
    ∧ exitStatus (main world DB_USER DB_PASSWORD args fuel db).1.1 = Some 1
    ∧ globals db' = globals db
    ∧ Forall (λ e, ¬ writesGlobals e) evs
    ∧ (EvEnd ∉ evs)
    ∧ maps db' = ∅.
Proof.
  intros Hconf Hmode Hans Hwr Hmissing HK Hfail Hfull Hfuel.
  assert ((loadMaps world fuel).1 = Ok []) as Hload.
  { unfold loadMaps.
    apply (loadMaps_loop_failure world K Hfail (Z.to_nat K)); [lia|done|done]. }
  assert (∃ dbm evs,
            refreshWRs world fuel db
            = (Throw (QueryError ER_PARSE_ERROR), setMaps dbm ∅, evs)
            ∧ globals dbm = globals db
            ∧ Forall (λ e, ¬ writesGlobals e) evs)
    as (dbm & evs & Href & Hglobals & Hwrites).
  { rewrite (refreshWRs_eq world fuel db response Hans). cbv zeta.
    set (wrs := (pushRecords ([], ∅) (data response)).1) in *.
    rewrite runStmt_UpsertUsers by (by eapply userRows_nonempty).
    assert (mapId wr ∈ mapIdsOf wrs) as Hid
      by (apply mapIdsOf_elem; by apply list_elem_of_fmap_2).
    rewrite runStmt_SelectMapIds by (by eapply mapIdsOf_nonempty).
    cbn [rowsOf]. rewrite bool_decide_false.
    2:{ intros Hlen.
        pose proof (proj1 (select_count _ _ (mapIdsOf_NoDup wrs)) Hlen) as Hall.
        destruct (Hall _ Hid) as [x Hx]. cbn in Hx. congruence. }
    rewrite updateMaps_no_maps by done.
    eexists _, _. split; [reflexivity|]. split; [done|].
    assert (Forall (λ e, ¬ isQuery e) (loadMaps world fuel).2) as Hmaps
      by apply loadMaps_loop_no_query.
    pose proof (pageEvents_no_query world 1) as Hpage.
    rewrite !Forall_app. repeat split.
    - by apply not_query_not_writes.
    - repeat constructor; simpl; tauto.
    - repeat constructor; simpl; tauto.
    - by apply not_query_not_writes.
    - repeat constructor; simpl; tauto. }
  assert (EvEnd ∉ evs) as Hend.
  { pose proof (refreshWRs_engine world fuel db) as Hengine.
    rewrite Href in Hengine. cbn [snd] in Hengine. intros Hin.
    by destruct (proj1 (Forall_forall _ _) Hengine _ Hin). }
  rewrite main_eq by done. rewrite Hmode, Href.
  eexists _, _. split; [reflexivity|]. split; [reflexivity|].
  split; [done|]. split; [|split; [|done]].
  - apply Forall_app. split; [|done]. repeat constructor; simpl; tauto.
  - intros [Hin|Hin]%elem_of_app; [|done]. unfold startup in Hin. set_solver.
Qed.

End CatalogueFailure.

(** C3 on [mapsDownWorld] and the empty store: the page names map 99, the
    request for the first page of maps fails, and the run ends with the
    status 1 and without a row in [globals]. *)
Lemma map_fetch_failure_is_fatal_witness :
  ∃ db' evs,
    main mapsDownWorld (Some "user") (Some "password") [] 1 emptyDB
    = (Throw (QueryError ER_PARSE_ERROR), db', evs)
    ∧ exitStatus
        (main mapsDownWorld (Some "user") (Some "password") [] 1 emptyDB).1.1
      = Some 1
    ∧ globals db' = globals emptyDB
    ∧ Forall (λ e, ¬ writesGlobals e) evs.
Proof.
  edestruct (map_fetch_failure_is_fatal mapsDownWorld (Some "user")
               (Some "password") [] 1 emptyDB
               {| rateLimitBurst := NumString 99;
                  data := [sampleTime 1 7 99 "ann"] |}
               (toRecord (sampleTime 1 7 99 "ann")) 1)
    as (db' & evs & Hrun & Hexit & Hglobals & Hwrites & _).
  - repeat split; reflexivity.
  - reflexivity.
  - reflexivity.
  - assert ((pushRecords ([], ∅) [sampleTime 1 7 99 "ann"]).1
            = [toRecord (sampleTime 1 7 99 "ann")]) as Hwrs
      by (vm_compute; reflexivity).
    cbn [data]. rewrite Hwrs. left.
  - reflexivity.
  - lia.
  - reflexivity.
  - intros p Hp. lia.
  - cbn. lia.
  - exists db', evs. split; [exact Hrun|]. split; [exact Hexit|].
    split; [exact Hglobals|exact Hwrites].
Defined.

(** ** The question whether the maps of a page are loaded *)

(** X10. [wrsHaveMapsLoaded], for a batch that is not empty, sends one
    [SELECT] and leaves the store as it is; it answers [true] exactly
    when the map of every record of the batch is in [maps], however often
    a map occurs in the batch. *)
Theorem wrsHaveMapsLoaded_iff (wrs : list WR) (db : DB) :
  wrs ≠ [] →
  ∃ b, wrsHaveMapsLoaded wrs db
       = (Ok b, db, [EvQuery (SelectMapIds (mapIdsOf wrs)) db])
       ∧ (b = true ↔ ∀ wr, wr ∈ wrs → is_Some (maps db !! mapId wr)).
Proof.
  intros Hne. destruct wrs as [|wr0 wrs0] eqn:Hwrs; [done|]. rewrite <- Hwrs.
  assert (wr0 ∈ wrs) as Hwr0 by (rewrite Hwrs; left).
  rewrite wrsHaveMapsLoaded_eq.
  rewrite runStmt_SelectMapIds by (by eapply mapIdsOf_nonempty).
  eexists. split; [reflexivity|]. cbn [rowsOf].
  rewrite bool_decide_eq_true, (select_count _ _ (mapIdsOf_NoDup wrs)).
  split.
  - intros Hall wr Hwr. apply Hall, mapIdsOf_elem.
    by apply list_elem_of_fmap_2.
  - intros Hall i Hi. apply mapIdsOf_elem in Hi.
    apply list_elem_of_fmap in Hi as (wr & -> & Hwr). by apply Hall.
Qed.

(** ** What the two modes leave in the store *)

Lemma mapTable_cons (row : StrafesMap) (rows : list StrafesMap) :
  mapTable (row :: rows) = <[sm_id row := row]> (mapTable rows).
Proof. reflexivity. Qed.

Lemma mapTable_lookup_None (rows : list StrafesMap) (k : Z) :
  k ∉ sm_id <$> rows → mapTable rows !! k = None.
Proof.
  intros Hk. apply not_elem_of_list_to_map_1.
  by rewrite <- list_fmap_compose.
Qed.

Lemma foldl_insertMapRow_inr (rows : list StrafesMap) : ∀ m0 m,
  foldl insertMapRow (inr m0) rows = inr m →
  m = mapTable rows ∪ m0
  ∧ NoDup (sm_id <$> rows)
  ∧ ∀ k, k ∈ sm_id <$> rows → m0 !! k = None.
Proof.
  induction rows as [|row rows IH]; intros m0 m Hfold; cbn [foldl] in Hfold.
  { injection Hfold as <-. unfold mapTable. cbn.
    rewrite (left_id_L ∅ (∪)). split; [done|]. split; [constructor|].
    intros k Hk. inversion Hk. }
  unfold insertMapRow at 2 in Hfold.
  destruct (m0 !! sm_id row) eqn:Hrow.
  { by rewrite foldl_insertMapRow_error in Hfold. }
  destruct (IH _ _ Hfold) as (-> & Hnd & Hfresh).
  assert (sm_id row ∉ sm_id <$> rows) as Hnew.
  { intros Hin. specialize (Hfresh _ Hin). by rewrite lookup_insert_eq in Hfresh. }
  split; [|split].
  - rewrite mapTable_cons, <- insert_union_l.
    by rewrite insert_union_r by (by apply mapTable_lookup_None).
  - rewrite fmap_cons. by apply NoDup_cons.
  - intros k Hk. rewrite fmap_cons in Hk.
    apply elem_of_cons in Hk as [->|Hk]; [done|].
    specialize (Hfresh _ Hk). rewrite lookup_insert_ne in Hfresh; [done|].
    intros <-. by apply Hnew.
Qed.

Lemma foldl_insertMapRow_inl (rows : list StrafesMap) : ∀ m0 e,
  foldl insertMapRow (inr m0) rows = inl e →
  e = ER_DUP_ENTRY "PRIMARY"
  ∧ ¬ (NoDup (sm_id <$> rows) ∧ ∀ k, k ∈ sm_id <$> rows → m0 !! k = None).
Proof.
  induction rows as [|row rows IH]; intros m0 e Hfold; cbn [foldl] in Hfold;
    [done|].
  unfold insertMapRow at 2 in Hfold.
  destruct (m0 !! sm_id row) eqn:Hrow.
  - rewrite foldl_insertMapRow_error in Hfold. injection Hfold as <-.
    split; [done|]. intros [_ Hfresh].
    rewrite Hfresh in Hrow; [done|]. rewrite fmap_cons. left.
  - destruct (IH _ _ Hfold) as [-> Hnot]. split; [done|].
    intros [Hnd Hfresh]. rewrite fmap_cons in Hnd.
    apply NoDup_cons in Hnd as [Hnew Hnd]. apply Hnot. split; [done|].
    intros k Hk. rewrite lookup_insert_ne by (intros <-; by apply Hnew).
    apply Hfresh. rewrite fmap_cons. by right.
Qed.

Lemma globalsTable_cons (row : GlobalsRow) (rows : list GlobalsRow) :
  globalsTable (row :: rows) = <[time_id row := row]> (globalsTable rows).
Proof. reflexivity. Qed.

Lemma globalsTable_lookup_None (rows : list GlobalsRow) (k : Z) :
  k ∉ time_id <$> rows → globalsTable rows !! k = None.
Proof.
  intros Hk. apply not_elem_of_list_to_map_1.
  by rewrite <- list_fmap_compose.
Qed.

Lemma foldl_insertGlobalsRow_error (db : DB) (rows : list GlobalsRow) e :
  foldl (insertGlobalsRow db) (inl e) rows = inl e.
Proof. by induction rows. Qed.

Lemma slotTaken_false (g : gmap Z GlobalsRow) (s : Z * Z * Z * Z) :
  slotTaken g s = false → ∀ k b, g !! k = Some b → slot b ≠ s.
Proof.
  unfold slotTaken. intros Hfalse k b Hk Hslot.
  apply bool_decide_eq_false in Hfalse. destruct Hfalse. by exists k, b.
Qed.

(** An insert into [globals] that went through: the rows sit under their
    identifiers beside what the table held, the identifiers are distinct
    and new, the references exist, and the two keys of the table hold as
    before. *)
Lemma foldl_insertGlobalsRow_inr (db : DB) (rows : list GlobalsRow) : ∀ g0 g,
  foldl (insertGlobalsRow db) (inr g0) rows = inr g →
  g = globalsTable rows ∪ g0
  ∧ NoDup (time_id <$> rows)
  ∧ (∀ r, r ∈ rows → g0 !! time_id r = None ∧ referencesExist db r = true)
  ∧ (keysAgree g0 → slotsUnique g0 → keysAgree g ∧ slotsUnique g).
Proof.
  induction rows as [|row rows IH]; intros g0 g Hfold; cbn [foldl] in Hfold.
  { injection Hfold as <-. unfold globalsTable. cbn.
    rewrite (left_id_L ∅ (∪)). split; [done|]. split; [constructor|].
    split; [|done]. intros r Hr. inversion Hr. }
  unfold insertGlobalsRow at 2 in Hfold.
  destruct (referencesExist db row) eqn:Hrefs; cbn [negb] in Hfold.
  2: { by rewrite foldl_insertGlobalsRow_error in Hfold. }
  case_bool_decide as Hold.
  { by rewrite foldl_insertGlobalsRow_error in Hfold. }
  destruct (slotTaken g0 (slot row)) eqn:Hslot.
  { by rewrite foldl_insertGlobalsRow_error in Hfold. }
  apply eq_None_not_Some in Hold.
  destruct (IH _ _ Hfold) as (-> & Hnd & Hfresh & Hkeys).
  assert (time_id row ∉ time_id <$> rows) as Hnew.
  { intros Hin. apply list_elem_of_fmap in Hin as (r & Heq & Hr).
    destruct (Hfresh _ Hr) as [Hnone _].
    by rewrite <- Heq, lookup_insert_eq in Hnone. }
  split; [|split; [|split]].
  - rewrite globalsTable_cons, <- insert_union_l.
    by rewrite insert_union_r by (by apply globalsTable_lookup_None).
  - rewrite fmap_cons. by apply NoDup_cons.
  - intros r Hr. apply elem_of_cons in Hr as [->|Hr]; [done|].
    destruct (Hfresh _ Hr) as [Hnone Href]. split; [|done].
    rewrite lookup_insert_ne in Hnone; [done|].
    intros Heq. apply Hnew. rewrite Heq. by apply list_elem_of_fmap_2.
  - intros Hk Hs. apply Hkeys.
    + intros k r. rewrite lookup_insert_Some.
      intros [[<- <-]|[_ Hr]]; [done|by apply Hk].
    + intros k1 k2 r1 r2. rewrite !lookup_insert_Some.
      intros [[<- <-]|[Hne1 Hr1]] [[<- <-]|[Hne2 Hr2]] Heq; try done.
      * by destruct (slotTaken_false _ _ Hslot _ _ Hr2).
      * by destruct (slotTaken_false _ _ Hslot _ _ Hr1).
      * by apply (Hs k1 k2 r1 r2).
Qed.

Lemma size_globalsTable (rows : list GlobalsRow) :
  NoDup (time_id <$> rows) → size (globalsTable rows) = length rows.
Proof.
  intros Hnd. unfold globalsTable.
  rewrite <- length_map_to_list, map_to_list_to_map.
  - by rewrite length_fmap.
  - by rewrite <- list_fmap_compose.
Qed.

Section Stored.
Context (world : World).

(** X11. What [updateMaps] leaves, given the catalogue [loadMaps]
    returns.  The tables [users] and [globals] are as they were.  When the
    catalogue is not empty and no two of its maps share an identifier,
    [updateMaps] answers [true] and [maps] holds the catalogue and nothing
    else.  Otherwise it throws, out of the insert, and [maps] is left
    empty, since the table was emptied by the statement before. *)
Theorem updateMaps_result (fuel : nat) (db : DB) (cat : list StrafesMap) :
  (loadMaps world fuel).1 = Ok cat →
  ∃ r db',
    (updateMaps world fuel db).1 = (r, db')
    ∧ users db' = users db ∧ globals db' = globals db
    ∧ if decide (cat ≠ [] ∧ NoDup (sm_id <$> cat))
      then r = Ok true ∧ maps db' = mapTable cat
      else maps db' = ∅
           ∧ r = Throw (QueryError (if decide (cat = []) then ER_PARSE_ERROR
                                    else ER_DUP_ENTRY "PRIMARY")).
Proof.
  intros Hcat. rewrite updateMaps_eq.
  destruct (loadMaps world fuel) as [res evs]. cbn [fst] in Hcat. subst res.
  rewrite runStmt_InsertMaps. destruct cat as [|row cat].
  { eexists _, _. split; [reflexivity|]. split; [done|]. split; [done|].
    rewrite decide_False by (by intros [? _]). by rewrite decide_True. }
  cbn [maps setMaps].
  destruct (foldl insertMapRow (inr ∅) (row :: cat)) as [e|m] eqn:Hfold.
  - destruct (foldl_insertMapRow_inl _ _ _ Hfold) as [-> Hnot].
    eexists _, _. split; [reflexivity|]. split; [done|]. split; [done|].
    rewrite decide_False.
    + by rewrite decide_False.
    + intros [_ Hnd]. apply Hnot. split; [done|]. intros k _.
      apply lookup_empty.
  - destruct (foldl_insertMapRow_inr _ _ _ Hfold) as (-> & Hnd & _).
    eexists _, _. split; [reflexivity|]. split; [done|]. split; [done|].
    rewrite decide_True by done. split; [done|]. cbn [maps setMaps].
    by rewrite (right_id_L ∅ (∪)).
Qed.

Lemma updateMaps_ok (fuel : nat) (db dbA : DB) (ev : list Event)
    (cat : list StrafesMap) :
  (loadMaps world fuel).1 = Ok cat →
  updateMaps world fuel db = (Ok true, dbA, ev) →
  maps dbA = mapTable cat.
Proof.
  intros Hcat. rewrite updateMaps_eq.
  destruct (loadMaps world fuel) as [res evm]. cbn [fst] in Hcat. subst res.
  rewrite runStmt_InsertMaps. destruct cat as [|row cat]; [done|].
  cbn [maps setMaps].
  destruct (foldl insertMapRow (inr ∅) (row :: cat)) as [e|m] eqn:Hfold;
    [done|].
  intros [= <- _]. destruct (foldl_insertMapRow_inr _ _ _ Hfold) as (-> & _).
  cbn [maps setMaps]. by rewrite (right_id_L ∅ (∪)).
Qed.

Lemma insertUsers_ok (wrs : list WR) (db dbB : DB) (ev : list Event) :
  insertUsers wrs db = (Ok tt, dbB, ev) →
  wrs ≠ [] ∧ maps dbB = maps db ∧ globals dbB = globals db.
Proof.
  rewrite insertUsers_eq. destruct wrs as [|wr wrs]; [done|].
  rewrite runStmt_UpsertUsers by (apply (userRows_nonempty _ wr); left).
  by intros [= <- <-].
Qed.

(** X12. What a seed that went through leaves.  [maps] holds the
    catalogue [loadMaps] returned; [globals] holds the rows of the batch
    [loadAllWRs] returned, one per record and under its identifier, and
    nothing else, whatever the table held before; no two of its rows share
    a slot, and the user and the map of every row are in [users] and in
    [maps]. *)
Theorem seed_stores_batch (fuel : nat) (db db' : DB) (evs : list Event) :
  seedWRs world fuel db = (Ok true, db', evs) →
  ∃ cat batch,
    (loadMaps world fuel).1 = Ok cat
    ∧ (loadAllWRs world fuel).1 = Ok batch
    ∧ batch ≠ []
    ∧ maps db' = mapTable cat
    ∧ globals db' = globalsTable (wrRow <$> batch)
    ∧ size (globals db') = length batch
    ∧ keysAgree (globals db') ∧ slotsUnique (globals db')
    ∧ foreignKeysHold db'.
Proof.
  rewrite seedWRs_eq. intros Hrun.
  destruct (loadMaps world fuel) as [[cat| |] evm] eqn:Hmaps.
  2, 3: by rewrite updateMaps_eq, Hmaps in Hrun.
  destruct (updateMaps world fuel db) as [[[[]| |] dbA] ev1] eqn:HA; try done.
  assert (maps dbA = mapTable cat) as HmapsA.
  { apply (updateMaps_ok fuel db dbA ev1 cat); [by rewrite Hmaps|done]. }
  destruct (loadAllWRs world fuel) as [[batch| |] ev2]; try done.
  destruct (insertUsers batch dbA) as [[[[]| |] dbB] ev3] eqn:HB; try done.
  destruct (insertUsers_ok _ _ _ _ HB) as (Hne & HmapsB & _).
  rewrite seedWrite_eq, runStmt_InsertGlobals in Hrun.
  destruct (wrRow <$> batch) as [|row rows] eqn:Hrows; [done|].
  rewrite <- Hrows in *. cbn [globals setGlobals] in Hrun.
  destruct (foldl (insertGlobalsRow (setGlobals dbB ∅)) (inr ∅)
              (wrRow <$> batch)) as [e|g] eqn:Hfold; [done|].
  destruct (foldl_insertGlobalsRow_inr _ _ _ _ Hfold)
    as (-> & Hnd & Hrefs & Hkeys).
  apply pair_equal_spec in Hrun as [[_ <-]%pair_equal_spec _].
  cbn [maps globals setGlobals]. rewrite (right_id_L ∅ (∪)).
  exists cat, batch. split; [done|]. split; [done|]. split; [done|].
  split; [by rewrite HmapsB|]. split; [done|].
  split; [by rewrite size_globalsTable, length_fmap|].
  destruct Hkeys as [Hk Hs]; [done|done|].
  rewrite (right_id_L ∅ (∪)) in Hk, Hs. split; [done|]. split; [done|].
  intros k r Hr. cbn [users maps globals setGlobals] in *.
  apply elem_of_list_to_map_2 in Hr.
  apply list_elem_of_fmap in Hr as (r' & [= -> <-] & Hin).
  destruct (Hrefs _ Hin) as [_ Href]. unfold referencesExist in Href.
  apply andb_true_iff in Href as [Hu Hm].
  apply bool_decide_eq_true in Hu, Hm. by split.
Qed.

End Stored.

(** ** Refresh mode when the maps of the page are loaded *)

Section Loaded.
Context (world : World).

(** X13. When the page arrives with records whose maps are all in
    [maps], [refreshWRs] asks for nothing but the page and sends three
    statements: the upsert of the users, the [SELECT] and the upsert of the
    records, both against the store the first left; the catalogue is not
    fetched, [maps] is as it was, and the outcome does not depend on the
    fuel. *)
Theorem refresh_with_maps_loaded (fuel : nat) (db : DB)
    (response : AxiosResponse (list ApiTime)) :
  answer world 1 = Some response →
  (pushRecords ([], ∅) (data response)).1 ≠ [] →
  (∀ wr, wr ∈ (pushRecords ([], ∅) (data response)).1 →
     is_Some (maps db !! mapId wr)) →
  ∃ r db' dbU n tail,
    refreshWRs world fuel db
    = (r, db',
       pageEvents world 1
       ++ [EvQuery (UpsertUsers
                      (userRows (pushRecords ([], ∅) (data response)).1)) db;
           EvLog (LogInsertedUsers n);
           EvQuery (SelectMapIds
                      (mapIdsOf (pushRecords ([], ∅) (data response)).1)) dbU;
           EvQuery (UpsertGlobals
                      (wrRow <$> (pushRecords ([], ∅) (data response)).1)) dbU]
       ++ tail)
    ∧ maps dbU = maps db ∧ globals dbU = globals db
    ∧ maps db' = maps db
    ∧ ((∃ err, r = Throw (QueryError err) ∧ tail = [] ∧ db' = dbU)
       ∨ (∃ m, r = Ok true ∧ tail = [EvLog (LogInsertedWRs m)])).
Proof.
  intros Hans Hne Hloaded.
  rewrite (refreshWRs_eq world fuel db response Hans). cbv zeta.
  set (wrs := (pushRecords ([], ∅) (data response)).1) in *.
  destruct wrs as [|wr0 wrs0] eqn:Hwrs; [done|]. rewrite <- Hwrs in *.
  assert (wr0 ∈ wrs) as Hwr0 by (rewrite Hwrs; left).
  rewrite runStmt_UpsertUsers by (by eapply userRows_nonempty).
  cbv beta iota.
  rewrite runStmt_SelectMapIds by (by eapply mapIdsOf_nonempty).
  cbv beta iota. cbn [rowsOf].
  rewrite bool_decide_true.
  2: { cbn [maps setUsers]. apply (select_count _ _ (mapIdsOf_NoDup wrs)).
       intros i Hi. apply mapIdsOf_elem in Hi.
       apply list_elem_of_fmap in Hi as (wr & -> & Hwr). by apply Hloaded. }
  rewrite runStmt_UpsertGlobals.
  destruct (wrRow <$> wrs) as [|row rows] eqn:Hrows.
  { by rewrite Hwrs in Hrows. }
  rewrite <- Hrows.
  destruct (foldl _ _ (wrRow <$> wrs)) as [e|[g m]];
    rewrite <- !app_assoc; cbn [app].
  - eexists _, _, _, _, []. split; [reflexivity|].
    split; [done|]. split; [done|]. split; [done|]. left. by exists e.
  - eexists _, _, _, _, [_]. split; [reflexivity|].
    split; [done|]. split; [done|]. split; [done|]. right. by eexists.
Qed.

End Loaded.

(** * The further properties at sample inputs *)

(** X1 on [smallWorld]: the loop returns within the first turn, after the
    pages 1 to 5. *)
Lemma loadAllWRs_returns_witness :
  ∃ batch evs,
    loadAllWRs smallWorld 1 = (Ok batch, evs)
    ∧ requestedPages evs = seqZ 1 5
    ∧ NoDup (timeId <$> batch).
Proof.
  destruct (loadAllWRs smallWorld 1) as [[batch| |] evs] eqn:Hrun.
  - destruct (loadAllWRs_returns smallWorld 1 batch evs Hrun)
      as (m & Hm & Hpages & _ & Hnd & _).
    assert (m = 0%nat) as -> by lia.
    exists batch, evs. split; [reflexivity|]. split; [exact Hpages|exact Hnd].
  - vm_compute in Hrun. discriminate Hrun.
  - vm_compute in Hrun. discriminate Hrun.
Defined.

(** X2 on [busyWorld], where every page holds a record: two units of fuel
    are used up on the pages 1 to 10. *)
Lemma loadAllWRs_never_returns_witness :
  (loadAllWRs busyWorld 2).1 = OutOfFuel
  ∧ requestedPages (loadAllWRs busyWorld 2).2 = seqZ 1 10.
Proof.
  destruct (loadAllWRs_never_returns busyWorld 2) as (Hres & Hpages & _).
  - intros p r _ Hr. unfold answer in Hr. cbn in Hr. injection Hr as <-.
    discriminate.
  - split; [exact Hres|exact Hpages].
Defined.

(** X3 on [seedWorld], whose first page of maps is short. *)
Lemma loadMaps_catalogue_witness :
  ∃ cat,
    (loadMaps seedWorld 1).1 = Ok cat
    ∧ clearThumbs <$> cat = toStrafesMap ∅ <$> listedMaps seedWorld 1.
Proof.
  edestruct (loadMaps_catalogue seedWorld 1) as (cat & Hrun & Hclear).
  - lia.
  - reflexivity.
  - reflexivity.
  - intros p Hp. lia.
  - exists cat. split; [apply Hrun; cbn; lia|exact Hclear].
Defined.

(** X4 on [fullPageWorld]: the 100 maps of page 1 are dropped when the
    request for page 2 fails. *)
Lemma loadMaps_failure_discards_witness :
  (∃ r, mapAnswer fullPageWorld 1 = Some r ∧ length (data r) = 100%nat)
  ∧ (loadMaps fullPageWorld 2).1 = Ok [].
Proof.
  split; [eexists; split; reflexivity|].
  apply (loadMaps_failure_discards fullPageWorld 2).
  - lia.
  - reflexivity.
  - intros p Hp. assert (p = 1) as -> by lia.
    eexists. split; [reflexivity|]. vm_compute. discriminate.
  - cbn. lia.
Defined.

(** X5 on [seedWorld]: map 99 has the large thumbnail the service lists
    for the asset 555 and no small one. *)
Lemma catalogue_thumbnails_from_service_witness :
  ∃ cat sm,
    (loadMaps seedWorld 1).1 = Ok cat
    ∧ cat !! 2%nat = Some sm
    ∧ sm_largeThumb sm = Some "large.webp"
    ∧ ∃ r map,
        (∃ p, mapAnswer seedWorld p = Some r)
        ∧ map ∈ data r
        ∧ clearThumbs sm = toStrafesMap ∅ map
        ∧ sm_largeThumb sm
          = thumbOf map (thumbAnswer seedWorld (assetIdsOf (data r)) "420x420")
        ∧ sm_smallThumb sm
          = thumbOf map (thumbAnswer seedWorld (assetIdsOf (data r)) "75x75").
Proof.
  destruct (loadMaps seedWorld 1).1 as [cat| |] eqn:Hrun.
  - destruct (cat !! 2%nat) as [sm|] eqn:Hsm.
    + exists cat, sm. split; [reflexivity|]. split; [exact Hsm|]. split.
      * vm_compute in Hrun. injection Hrun as <-.
        vm_compute in Hsm. injection Hsm as <-. reflexivity.
      * apply (catalogue_thumbnails_from_service seedWorld 1 cat sm Hrun).
        by apply list_elem_of_lookup_2 with 2%nat.
    + vm_compute in Hrun. injection Hrun as <-. vm_compute in Hsm.
      discriminate Hsm.
  - vm_compute in Hrun. discriminate Hrun.
  - vm_compute in Hrun. discriminate Hrun.
Defined.

(** X6 on [seedWorld] with and without the thumbnail service. *)
Lemma loadMaps_thumbnails_only_set_thumbs_witness :
  (loadMaps seedWorld 1).1 ≠ (loadMaps seedWorldNoThumbs 1).1
  ∧ catalogueOf (loadMaps seedWorld 1).1
    = catalogueOf (loadMaps seedWorldNoThumbs 1).1.
Proof.
  split.
  - intros Heq. vm_compute in Heq. discriminate Heq.
  - apply loadMaps_thumbnails_only_set_thumbs. intros p. reflexivity.
Defined.


(** X9 on [smallWorld] in refresh mode: the run sets 0 and ends the
    connection last. *)
Lemma main_exit_codes_witness :
  ∃ db' evs,
    main smallWorld (Some "user") (Some "password") [] 1 emptyDB
    = (Ok 0, db', evs)
    ∧ last evs = Some EvEnd.
Proof.
  destruct (main smallWorld (Some "user") (Some "password") [] 1 emptyDB)
    as [[[code| |] db'] evs] eqn:Hrun.
  - pose proof (main_exit_codes smallWorld _ _ _ _ _ _ _ _ Hrun) as Hcases.
    assert (code = 0) as Hcode.
    { vm_compute in Hrun. injection Hrun as <- _ _. reflexivity. }
    subst code. exists db', evs. split; [reflexivity|].
    destruct Hcases as [(Hc & _)|[(Hc & _)|(_ & _ & pre & n & ->)]].
    + discriminate Hc.
    + discriminate Hc.
    + rewrite last_app, last_app. reflexivity.
  - vm_compute in Hrun. discriminate Hrun.
  - vm_compute in Hrun. discriminate Hrun.
Defined.

(** X10 on one record and the empty store: the answer is [false]. *)
Lemma wrsHaveMapsLoaded_iff_witness :
  (wrsHaveMapsLoaded [toRecord (sampleTime 1 7 99 "ann")] emptyDB).1.1
  = Ok false.
Proof.
  destruct (wrsHaveMapsLoaded_iff [toRecord (sampleTime 1 7 99 "ann")] emptyDB)
    as (b & Hrun & Hiff); [discriminate|].
  rewrite Hrun. destruct b; [|reflexivity].
  destruct (proj1 Hiff eq_refl (toRecord (sampleTime 1 7 99 "ann")))
    as [x Hx]; [left|].
  vm_compute in Hx. discriminate Hx.
Defined.

(** X11 on [seedWorld]: the three maps of the catalogue are in [maps]. *)
Lemma updateMaps_result_witness :
  ∃ db', (updateMaps seedWorld 1 emptyDB).1 = (Ok true, db')
         ∧ size (maps db') = 3%nat.
Proof.
  destruct (loadMaps seedWorld 1).1 as [cat| |] eqn:Hcat.
  - destruct (updateMaps_result seedWorld 1 emptyDB cat Hcat)
      as (r & db' & Hrun & _ & _ & Hcase).
    vm_compute in Hcat. injection Hcat as <-.
    destruct (decide _) as [_|Hnot].
    + destruct Hcase as [-> Hmaps]. exists db'. split; [exact Hrun|].
      rewrite Hmaps. reflexivity.
    + destruct Hnot. split; [discriminate|]. cbn.
      repeat (apply NoDup_cons; split; [set_solver|]). apply NoDup_nil_2.
  - vm_compute in Hcat. discriminate Hcat.
  - vm_compute in Hcat. discriminate Hcat.
Defined.

(** X12 on [seedWorld] and the empty store: the three records of the
    batch are in [globals]. *)
Lemma seed_stores_batch_witness :
  ∃ db' evs,
    seedWRs seedWorld 1 emptyDB = (Ok true, db', evs)
    ∧ size (globals db') = 3%nat
    ∧ foreignKeysHold db'.
Proof.
  destruct (seedWRs seedWorld 1 emptyDB) as [[r db'] evs] eqn:Hrun.
  assert (r = Ok true) as Hr.
  { vm_compute in Hrun. injection Hrun as <- _ _. reflexivity. }
  subst r.
  destruct (seed_stores_batch seedWorld 1 emptyDB db' evs Hrun)
    as (cat & batch & _ & Hbatch & _ & _ & _ & Hsize & _ & _ & Hfk).
  exists db', evs. split; [reflexivity|]. split; [|exact Hfk].
  rewrite Hsize. vm_compute in Hbatch. injection Hbatch as <-. reflexivity.
Defined.

(** X13 on [smallWorld] and a store that holds map 99: the refresh goes
    through without fuel and leaves [maps] as it is. *)
Lemma refresh_with_maps_loaded_witness :
  ∃ db' evs,
    refreshWRs smallWorld 0 catalogDB = (Ok true, db', evs)
    ∧ maps db' = maps catalogDB.
Proof.
  edestruct (refresh_with_maps_loaded smallWorld 0 catalogDB)
    as (r & db' & dbU & n & tail & Hrun & _ & _ & Hmaps & Hcase).
  - reflexivity.
  - intros Hnil. vm_compute in Hnil. discriminate Hnil.
  - intros wr Hwr.
    assert ((pushRecords ([], ∅)
               [sampleTime 1 7 99 "ann"; sampleTime 2 7 99 "anne"]).1
            = [toRecord (sampleTime 1 7 99 "ann");
               toRecord (sampleTime 2 7 99 "anne")]) as Hwrs
      by (vm_compute; reflexivity).
    cbn [data] in Hwr. rewrite Hwrs in Hwr.
    apply elem_of_cons in Hwr as [->|Hwr];
      [|apply elem_of_cons in Hwr as [->|Hwr];
        [|by apply elem_of_nil in Hwr]];
      (eexists; vm_compute; reflexivity).
  - destruct Hcase as [(err & -> & _)|(m & -> & _)].
    + vm_compute in Hrun. discriminate Hrun.
    + eexists _, _. split; [exact Hrun|exact Hmaps].
Defined.
